(** * Karaoke alignment and scoring core

    A shallow embedding of the numeric core of [python/preprocess_full.py]
    (SequenceAligner, WarpFitter, PitchWarper, NoteBinSegmenter) and of
    [python/refine_results.py] (PhraseScorer), with the properties the
    specification states about them, and of the phrase segmentation and
    the DTW cost of [python/analyze.py].

    Conventions of the embedding.
    - A float64 is modelled by an exact rational ([Q]); comparisons are the
      boolean comparisons of [Q].  Rounding is therefore not modelled, and
      [==] on [Q] stands where the specification writes an (approximate)
      equality of floats.
    - A one-dimensional numpy array is a [list Q]; a two-dimensional one is
      the list of its rows.
    - A Python exception is [None] in an [option] result; the comment next
      to each [None] names the exception.
    - Routines of external libraries that the code calls but that are not
      part of the repository (dtaidistance's DTW, numpy's [log2], scipy's
      [interp1d]) are fields of the interface [Extern]; the numpy helpers
      with a closed form ([interp], [linspace], [median], [polyfit] of
      degree one, [argmin]) are written out in module [Np].
    - The value of [dtw.warping_path] is a [PathValue]: the library returns
      a Python list of pairs, and indexing it like an array raises. *)

From Stdlib Require Import QArith Qabs Qround Qminmax List Bool Arith Lia Lqa.
From Stdlib Require Import ZArith Sorting.Sorted.
Import ListNotations.

Open Scope Q_scope.

(** ** Error monad *)

Definition bind {A B : Type} (m : option A) (k : A -> option B) : option B :=
  match m with
  | Some x => k x
  | None => None
  end.

Notation "x <- m ;; k" := (bind m (fun x => k))
  (at level 61, m at next level, right associativity).
Notation "' p <- m ;; k" := (bind m (fun x => let p := x in k))
  (at level 61, p pattern, m at next level, right associativity).

(** ** numpy and Python builtins *)

Module Np.

Definition Qlt_bool (x y : Q) : bool := negb (Qle_bool y x).

Definition of_nat (n : nat) : Q := inject_Z (Z.of_nat n).

(** Python's [int(x)] on a float: truncation toward zero. *)
Definition int (x : Q) : Z := Z.quot (Qnum x) (Zpos (Qden x)).

(** Python's two-argument [min] and [max]: the second argument is returned
    only when it is strictly smaller (resp. larger). *)
Definition py_min (x y : Q) : Q := if Qlt_bool y x then y else x.
Definition py_max (x y : Q) : Q := if Qlt_bool x y then y else x.

Definition sum (l : list Q) : Q := fold_right Qplus 0 l.

(** [np.mean]; every call site guards against the empty list. *)
Definition mean (l : list Q) : Q := sum l / of_nat (length l).

Definition arange (n : nat) : list Q := map of_nat (seq 0 n).

(** [np.linspace(start, stop, num)] with the default [endpoint=True]: the
    last sample is [stop] itself. *)
Definition linspace (start stop : Q) (num : nat) : list Q :=
  match num with
  | O => []
  | S O => [start]
  | S m =>
      let step := (stop - start) / of_nat m in
      map (fun i => of_nat i * step + start) (seq 0 m) ++ [stop]
  end.

(** [a[::k]]: every [k]-th element, starting with the first. *)
Fixpoint stride_from (k skip : nat) (l : list Q) : list Q :=
  match l with
  | [] => []
  | x :: l' =>
      match skip with
      | O => x :: stride_from k (k - 1) l'
      | S s => stride_from k s l'
      end
  end.

Definition stride (k : nat) (l : list Q) : list Q := stride_from k 0 l.

(** [a[idx]] for an integer index array: IndexError when out of range. *)
Fixpoint take (a : list Q) (idx : list nat) : option (list Q) :=
  match idx with
  | [] => Some []
  | i :: idx' =>
      x <- nth_error a i ;;
      r <- take a idx' ;;
      Some (x :: r)
  end.

(** [a[mask]] for a boolean mask of the same length. *)
Definition compress (mask : list bool) (a : list Q) : list Q :=
  map snd (filter fst (combine mask a)).

(** [m.mean(axis=0)] of a two-dimensional array given by its rows. *)
Definition mean_axis0 (rows : list (list Q)) : list Q :=
  map (fun j => sum (map (fun r => nth j r 0) rows) / of_nat (length rows))
      (seq 0 (length (hd [] rows))).

(** Number of sample points not above [x]; on a non-decreasing [xp] this is
    [np.searchsorted(xp, x, side='right')], and the bisection of [np.interp]
    returns one less. *)
Definition count_le (xp : list Q) (x : Q) : nat :=
  length (filter (fun p => Qle_bool p x) xp).

(** One evaluation of [np.interp] (non-decreasing [xp], default [left] and
    [right]): clamp outside the sample range, the sample itself on a sample
    point, the chord between the two neighbours otherwise. *)
Definition interp1 (xp fp : list Q) (x : Q) : Q :=
  if Qlt_bool (last xp 0) x then last fp 0
  else if Qlt_bool x (hd 0 xp) then hd 0 fp
  else
    let j := (count_le xp x - 1)%nat in
    if (S j =? length xp)%nat then nth j fp 0
    else if Qeq_bool (nth j xp 0) x then nth j fp 0
    else
      let slope := (nth (S j) fp 0 - nth j fp 0) / (nth (S j) xp 0 - nth j xp 0) in
      slope * (x - nth j xp 0) + nth j fp 0.

(** [np.interp(x, xp, fp)]: ValueError on an empty [xp] and on [xp], [fp] of
    different lengths. *)
Definition interp (x xp fp : list Q) : option (list Q) :=
  match xp with
  | [] => None
  | _ => if (length xp =? length fp)%nat then Some (map (interp1 xp fp) x) else None
  end.

(** Sorting, for [np.median]. *)
Fixpoint insert (x : Q) (l : list Q) : list Q :=
  match l with
  | [] => [x]
  | y :: l' => if Qle_bool x y then x :: l else y :: insert x l'
  end.

Definition sort (l : list Q) : list Q := fold_right insert [] l.

(** [np.median]: the middle element of the sorted list, or the mean of the
    two middle ones.  numpy returns nan on an empty array; the model has no
    nan and returns [None] there. *)
Definition median (l : list Q) : option Q :=
  match l with
  | [] => None
  | _ =>
      let s := sort l in
      let n := length l in
      let h := (n / 2)%nat in
      if Nat.even n then Some ((nth (h - 1) s 0 + nth h s 0) / 2)
      else Some (nth h s 0)
  end.

(** [np.argmin]: index of the first minimum; ValueError on an empty list. *)
Fixpoint argmin_from (i besti : nat) (best : Q) (l : list Q) : nat :=
  match l with
  | [] => besti
  | x :: l' =>
      if Qlt_bool x best then argmin_from (S i) i x l'
      else argmin_from (S i) besti best l'
  end.

Definition argmin (l : list Q) : option nat :=
  match l with
  | [] => None
  | x :: l' => Some (argmin_from 1 0 x l')
  end.

(** [np.polyfit(x, y, 1)]: the least-squares line [(slope, intercept)].
    TypeError on empty [x] or on different lengths.  Where the normal
    equations are singular numpy answers with a minimum-norm solution and a
    RankWarning; the model leaves that case out ([None]). *)
Definition polyfit1 (x y : list Q) : option (Q * Q) :=
  let n := of_nat (length x) in
  let sx := sum x in
  let sy := sum y in
  let sxx := sum (map (fun t => t * t) x) in
  let sxy := sum (map (fun p => fst p * snd p) (combine x y)) in
  let d := n * sxx - sx * sx in
  if negb (length x =? length y)%nat then None
  else if Qeq_bool d 0 then None
  else
    let a := (n * sxy - sx * sy) / d in
    Some (a, (sy - a * sx) / n).

(** [range(0, stop, step)] for a positive [step]. *)
Definition range_step (stop step : nat) : list nat :=
  map (fun k => (k * step)%nat) (seq 0 ((stop + step - 1) / step)).

End Np.

(** ** External routines *)

(** The value [dtw.warping_path] hands back.  dtaidistance returns a
    Python list of index pairs; an array of shape [(k, 2)] is what the
    indexing [path[:, 0]] of the callers is written for. *)
Inductive PathValue : Type :=
| PyList (pairs : list (nat * nat))
| NdArray (pairs : list (nat * nat)).

Definition path_pairs (path : PathValue) : list (nat * nat) :=
  match path with
  | PyList pairs => pairs
  | NdArray pairs => pairs
  end.

(** [path[:, 0]] and [path[:, 1]]: the index is a tuple.  On a Python list
    it raises TypeError (list indices must be integers or slices, not
    tuple); on a two-dimensional array it is the column. *)
Definition column (proj : nat * nat -> nat) (path : PathValue) : option (list nat) :=
  match path with
  | PyList _ => None
  | NdArray pairs => Some (map proj pairs)
  end.

(** The routines the code calls in libraries outside the repository.
    [warping_path r s w] is [dtw.warping_path(r, s, window=w)], [distance]
    is [dtw.distance], [log2] is [np.log2], and [interp1d x y] is scipy's
    linear [interp1d] with [bounds_error=False, fill_value=0], whose
    construction may raise. *)
Record Extern : Type := {
  warping_path : list Q -> list Q -> option Z -> PathValue;
  distance : list Q -> list Q -> Q;
  log2 : Q -> Q;
  interp1d : list Q -> list Q -> option (Q -> Q)
}.

(** The warping path is a Python list, as dtaidistance returns it. *)
Definition returns_list (E : Extern) : Prop :=
  forall r s w, warping_path E r s w = PyList (path_pairs (warping_path E r s w)).

(** The warping path is a two-dimensional array (the routine wrapped in
    [np.array]); dtaidistance itself does not return one. *)
Definition returns_array (E : Extern) : Prop :=
  forall r s w, warping_path E r s w = NdArray (path_pairs (warping_path E r s w)).

(** A warping path only visits cells of the cost matrix. *)
Definition path_in_bounds (E : Extern) : Prop :=
  forall r s w,
    Forall (fun p => (fst p < length r)%nat /\ (snd p < length s)%nat)
           (path_pairs (warping_path E r s w)).

(** A warping path between non-empty sequences ends in the last cell. *)
Definition path_ends_in_corner (E : Extern) : Prop :=
  forall r s w, r <> [] -> s <> [] ->
    exists p,
      path_pairs (warping_path E r s w)
      = p ++ [((length r - 1)%nat, (length s - 1)%nat)].

(** Between two equal sequences the diagonal has cost zero and is the path
    DTW returns. *)
Definition diagonal_on_equal (E : Extern) : Prop :=
  forall r,
    path_pairs (warping_path E r r None) = map (fun i => (i, i)) (seq 0 (length r)).

(** The binary logarithm of one is zero. *)
Definition log2_of_one (E : Extern) : Prop :=
  forall q, q == 1 -> log2 E q == 0.

(** An instance on which the definitions can be run: the path that walks
    the diagonal and then the border to the last cell (the optimal path
    between two equal sequences) as a Python list, distance zero, the
    integer part of the binary logarithm, and linear interpolation that is
    zero outside the sampled range. *)
Definition diagonal_path (n m : nat) : list (nat * nat) :=
  match n, m with
  | O, _ | _, O => []
  | _, _ =>
      map (fun i => (i, i)) (seq 0 (Nat.min n m))
      ++ map (fun i => (i, (m - 1)%nat)) (seq m (n - m))
      ++ map (fun j => ((n - 1)%nat, j)) (seq n (m - n))
  end.

Definition diagonal_extern : Extern := {|
  warping_path := fun r s _ => PyList (diagonal_path (length r) (length s));
  distance := fun _ _ => 0;
  log2 := fun q => inject_Z (Z.log2 (Qfloor q));
  interp1d := fun x y =>
    if (length x =? length y)%nat && (2 <=? length x)%nat then
      Some (fun t =>
              if Np.Qlt_bool t (hd 0 x) || Np.Qlt_bool (last x 0) t then 0
              else Np.interp1 x y t)
    else None
|}.

(** The same routines with the path converted to an array, as
    [np.array(dtw.warping_path(...))] would give it. *)
Definition diagonal_array_extern : Extern := {|
  warping_path := fun r s _ => NdArray (diagonal_path (length r) (length s));
  distance := distance diagonal_extern;
  log2 := log2 diagonal_extern;
  interp1d := interp1d diagonal_extern
|}.

(** ** preprocess_full.py *)

Module Preprocess.
Import Np.

(** [PreprocessorConfig] *)
Definition DTW_BAND_WIDTH : Q := 1 # 10.
Definition DTW_WINDOW : nat := 200.
Definition NOTE_TOLERANCE_CENTS : Q := 40.
Definition MIN_NOTE_DURATION : Q := 2 # 10.
Definition PITCH_CONF_THRESHOLD : Q := 3 # 10.
Definition REF_FPS : Q := 50.

Record AlignmentSegment : Type := {
  tk_start : Q;
  tk_end : Q;
  a : Q;
  b : Q;
  quality : Q
}.

Definition map_time (seg : AlignmentSegment) (tk : Q) : Q := a seg * tk + b seg.

Definition abs_diff (n m : nat) : nat := ((n - m) + (m - n))%nat.

(** [align_with_dtw]: returns [(tk_aligned, tref_aligned, quality)]. *)
Definition align_with_dtw (E : Extern) (chroma_k chroma_ref : list (list Q))
    (times_k times_ref : list Q) (band_width : Q) : option (list Q * list Q * Q) :=
  let nk := length times_k in
  let nr := length times_ref in
  if (Nat.max nk nr =? 0)%nat then None (* ZeroDivisionError *)
  else if Qlt_bool (of_nat (abs_diff nk nr) / of_nat (Nat.max nk nr)) (1 # 10) then
    let indices := linspace 0 (of_nat nr - 1) nk in
    let tk_aligned := times_k in
    tref_aligned <- interp indices (arange nr) times_ref ;;
    Some (tk_aligned, tref_aligned, 95 # 100)
  else
    let downsample_factor := 10%nat in
    let chroma_k_down := map (stride downsample_factor) chroma_k in
    let chroma_ref_down := map (stride downsample_factor) chroma_ref in
    let times_k_down := stride downsample_factor times_k in
    let times_ref_down := stride downsample_factor times_ref in
    let window :=
      int (band_width * of_nat (Nat.max (length times_k_down) (length times_ref_down))) in
    let chroma_k_mean := mean_axis0 chroma_k_down in
    let chroma_ref_mean := mean_axis0 chroma_ref_down in
    let path := warping_path E chroma_k_mean chroma_ref_mean (Some window) in
    k_indices <- column fst path ;; (* TypeError on a list *)
    tk_aligned0 <- take times_k_down k_indices ;;
    ref_indices <- column snd path ;;
    tref_aligned0 <- take times_ref_down ref_indices ;;
    tk_aligned <- interp times_k tk_aligned0 tref_aligned0 ;;
    let tref_aligned := times_k in
    Some (tk_aligned, tref_aligned, 85 # 100).

(** The least-squares fit of one window and its R-squared score. *)
Definition fit_segment (tk tref : list Q) : option AlignmentSegment :=
  '(a, b) <- polyfit1 tk tref ;;
  let y_pred := map (fun t => a * t + b) tk in
  let ss_res := sum (map (fun p => (fst p - snd p) * (fst p - snd p)) (combine tref y_pred)) in
  let m := mean tref in
  let ss_tot := sum (map (fun t => (t - m) * (t - m)) tref) + (1 # 100000000) in
  let r2 := 1 - ss_res / ss_tot in
  Some {| tk_start := hd 0 tk; tk_end := last tk 0; a := a; b := b; quality := r2 |}.

Definition slice (i j : nat) (l : list Q) : list Q := firstn (j - i) (skipn i l).

Fixpoint fit_windows (tk tref : list Q) (n window : nat) (starts : list nat)
    : option (list AlignmentSegment) :=
  match starts with
  | [] => Some []
  | i :: starts' =>
      let end_idx := Nat.min (i + window) n in
      seg <- fit_segment (slice i end_idx tk) (slice i end_idx tref) ;;
      segs <- fit_windows tk tref n window starts' ;;
      Some (seg :: segs)
  end.

Definition similar (seg last : AlignmentSegment) : bool :=
  Qlt_bool (Qabs (a seg - a last)) (1 # 100)
  && Qlt_bool (Qabs (b seg - b last)) (1 # 10)
  && Qlt_bool (8 # 10) (quality seg)
  && Qlt_bool (8 # 10) (quality last).

(** One iteration of the merge loop on the list [merged]. *)
Definition merge_step (merged : list AlignmentSegment) (seg : AlignmentSegment)
    : list AlignmentSegment :=
  match rev merged with
  | [] => [seg]
  | last :: _ =>
      if similar seg last then
        removelast merged ++
          [{| tk_start := tk_start last;
              tk_end := tk_end seg;
              a := (a seg + a last) / 2;
              b := (b seg + b last) / 2;
              quality := py_min (quality seg) (quality last) |}]
      else merged ++ [seg]
  end.

Definition merge_segments (segments : list AlignmentSegment) : list AlignmentSegment :=
  fold_left merge_step segments [].

(** [fit_piecewise_linear]; [window] is a positive int in every call. *)
Definition fit_piecewise_linear (tk tref : list Q) (window : nat)
    : option (list AlignmentSegment) :=
  let n := length tk in
  if (n <? window)%nat then
    seg <- fit_segment tk tref ;;
    Some [seg]
  else
    let step := (window / 2)%nat in
    if (step =? 0)%nat then None (* ValueError: range() arg 3 must not be zero *)
    else
      segments <- fit_windows tk tref n window (range_step (n - window + 1) step) ;;
      Some (merge_segments segments).

(** Steps 4 and 5 of [main]: the aligner's matched pairs are handed to the
    fitter. *)
Definition align_and_fit (E : Extern) (chroma_k chroma_ref : list (list Q))
    (times_k times_ref : list Q) (band_width : Q) (window : nat)
    : option (list AlignmentSegment) :=
  '(tk_aligned, tref_aligned, _) <-
     align_with_dtw E chroma_k chroma_ref times_k times_ref band_width ;;
  fit_piecewise_linear tk_aligned tref_aligned window.

(** The segment lookup of [warp_pitch_to_karaoke] for one grid time. *)
Definition covers (tk : Q) (seg : AlignmentSegment) : bool :=
  Qle_bool (tk_start seg) tk && Qle_bool tk (tk_end seg).

Definition find_segment (alignment_segments : list AlignmentSegment) (tk : Q)
    : option AlignmentSegment :=
  match find (covers tk) alignment_segments with
  | Some seg => Some seg
  | None =>
      let distances := map (fun seg => Qabs (tk - tk_start seg)) alignment_segments in
      i <- argmin distances ;; (* ValueError on an empty list *)
      nth_error alignment_segments i
  end.

(** The karaoke grid [np.arange(num_frames) / fps].  The frame count
    [int(duration_k * fps)] is taken on the exact product; the float64
    product can round across an integer and give one frame less. *)
Definition tk_grid (duration_k : Q) : list Q :=
  let num_frames := Z.to_nat (int (duration_k * REF_FPS)) in
  map (fun i => of_nat i / REF_FPS) (seq 0 num_frames).

Fixpoint map_grid (alignment_segments : list AlignmentSegment) (grid : list Q)
    : option (list Q) :=
  match grid with
  | [] => Some []
  | tk :: grid' =>
      segment <- find_segment alignment_segments tk ;;
      rest <- map_grid alignment_segments grid' ;;
      Some (map_time segment tk :: rest)
  end.

(** The smoothing loop of [warp_pitch_to_karaoke]; [prev] is
    [f0_smooth[i-1]]. *)
Definition alpha : Q := 3 # 10.

(** The body of the loop: [w] is [f0_warped[i]]. *)
Definition ema_step (prev w : Q) : Q :=
  if Qlt_bool 0 w && Qlt_bool 0 prev then alpha * w + (1 - alpha) * prev else w.

Fixpoint ema_loop (prev : Q) (f0_warped : list Q) : list Q :=
  match f0_warped with
  | [] => []
  | w :: rest =>
      let s := ema_step prev w in
      s :: ema_loop s rest
  end.

Definition ema_smooth (f0_warped : list Q) : option (list Q) :=
  match f0_warped with
  | [] => None (* IndexError: f0_warped[0] *)
  | w0 :: rest => Some (w0 :: ema_loop w0 rest)
  end.

Definition warp_pitch_to_karaoke (E : Extern) (times_ref f0_ref conf_ref : list Q)
    (alignment_segments : list AlignmentSegment) (duration_k : Q)
    : option (list Q * list Q * list Q) :=
  let grid := tk_grid duration_k in
  tref_mapped <- map_grid alignment_segments grid ;;
  f0_interp <- interp1d E times_ref f0_ref ;;
  conf_interp <- interp1d E times_ref conf_ref ;;
  let f0_warped := map f0_interp tref_mapped in
  let conf_warped := map conf_interp tref_mapped in
  f0_smooth <- ema_smooth f0_warped ;;
  Some (grid, f0_smooth, conf_warped).

(** [create_note_bins] *)
Record NoteBin : Type := {
  nb_start : Q;
  nb_end : Q;
  nb_f0 : Q;
  tol_cents : Q
}.

(** [(f0 > 0) & (confidence > PITCH_CONF_THRESHOLD)], elementwise. *)
Definition voiced_mask (f0 confidence : list Q) : list bool :=
  map (fun p => Qlt_bool 0 (fst p) && Qlt_bool PITCH_CONF_THRESHOLD (snd p))
      (combine f0 confidence).

(** The state of the scanning loop: [(segments, in_segment, start_idx)]. *)
Definition scan_state : Type := (list (nat * nat) * bool * nat)%type.

Definition scan_step (st : scan_state) (iv : nat * bool) : scan_state :=
  let '(segments, in_segment, start_idx) := st in
  let '(i, v) := iv in
  if v && negb in_segment then (segments, true, i)
  else if negb v && in_segment then (segments ++ [(start_idx, i)], false, start_idx)
  else st.

Definition voiced_segments (voiced : list bool) : list (nat * nat) :=
  let '(segments, in_segment, start_idx) :=
    fold_left scan_step (combine (seq 0 (length voiced)) voiced) ([], false, 0%nat) in
  if in_segment then segments ++ [(start_idx, length voiced)] else segments.

Fixpoint bins_of_segments (times f0 : list Q) (tolerance_cents : Q)
    (segments : list (nat * nat)) : option (list NoteBin) :=
  match segments with
  | [] => Some []
  | (start_idx, end_idx) :: rest =>
      t_end <- nth_error times (end_idx - 1) ;; (* IndexError *)
      t_start <- nth_error times start_idx ;;
      let duration := t_end - t_start in
      if Qlt_bool duration MIN_NOTE_DURATION then
        bins_of_segments times f0 tolerance_cents rest
      else
        let segment_f0 := slice start_idx end_idx f0 in
        let segment_f0_voiced := filter (Qlt_bool 0) segment_f0 in
        match median segment_f0_voiced with
        | None => bins_of_segments times f0 tolerance_cents rest (* empty: continue *)
        | Some median_f0 =>
            bins <- bins_of_segments times f0 tolerance_cents rest ;;
            Some ({| nb_start := t_start; nb_end := t_end;
                     nb_f0 := median_f0; tol_cents := tolerance_cents |} :: bins)
        end
  end.

(** [create_note_bins] on parallel arrays.  Where [f0] and [confidence]
    differ in length the model gives [None], although numpy would still
    broadcast an array of length one. *)
Definition create_note_bins (times f0 confidence : list Q) (tolerance_cents : Q)
    : option (list NoteBin) :=
  if negb (length f0 =? length confidence)%nat then None (* shapes do not broadcast *)
  else bins_of_segments times f0 tolerance_cents (voiced_segments (voiced_mask f0 confidence)).

End Preprocess.

(** ** refine_results.py *)

Module Refine.
Import Np.

Definition extract_phrase_pitch (times f0 : list Q) (start end_ : Q)
    : option (list Q * list Q) :=
  let mask := map (fun t => Qle_bool start t && Qle_bool t end_) times in
  if (length f0 =? length times)%nat then Some (compress mask times, compress mask f0)
  else None. (* IndexError: boolean index did not match *)

(** [align_phrase_dtw]: [(cost, ref_indices, singer_indices)]. *)
Definition align_phrase_dtw (E : Extern) (ref_pitch singer_pitch : list Q)
    : option (Q * list nat * list nat) :=
  let ref_voiced := filter (Qlt_bool 0) ref_pitch in
  let singer_voiced := filter (Qlt_bool 0) singer_pitch in
  if (length ref_voiced <? 3)%nat || (length singer_voiced <? 3)%nat
  then Some (1, [], [])
  else
    let dist := distance E ref_voiced singer_voiced in
    let normalized_cost :=
      dist / of_nat (Nat.max (length ref_voiced) (length singer_voiced)) in
    let path := warping_path E ref_voiced singer_voiced None in
    ref_indices <- column fst path ;; (* TypeError on a list *)
    singer_indices <- column snd path ;;
    Some (normalized_cost, ref_indices, singer_indices).

Record PhraseMetrics : Type := {
  accuracy : Q;
  median_cents_error : Q;
  on_beat_pct : Q;
  timing_offset : Q;
  dtw_cost : Q
}.

(** The frequency pairs [(ref_freq, singer_freq)] that pass the guard of the
    first loop and reach the call of [log2]. *)
Fixpoint log2_pairs (ref_f0 singer_f0 : list Q) (idx : list (nat * nat))
    : option (list (Q * Q)) :=
  match idx with
  | [] => Some []
  | (r_idx, s_idx) :: idx' =>
      ref_freq <- nth_error ref_f0 r_idx ;; (* IndexError *)
      singer_freq <- nth_error singer_f0 s_idx ;;
      rest <- log2_pairs ref_f0 singer_f0 idx' ;;
      if Qlt_bool 0 ref_freq && Qlt_bool 0 singer_freq
      then Some ((ref_freq, singer_freq) :: rest)
      else Some rest
  end.

Definition cents_error (E : Extern) (p : Q * Q) : Q :=
  1200 * log2 E (snd p / fst p).

(** The second loop: timing offsets of the pairs inside both time arrays. *)
Fixpoint timing_offsets (ref_t singer_t : list Q) (idx : list (nat * nat)) : list Q :=
  match idx with
  | [] => []
  | (r_idx, s_idx) :: idx' =>
      match nth_error ref_t r_idx, nth_error singer_t s_idx with
      | Some rt, Some st => (st - rt) :: timing_offsets ref_t singer_t idx'
      | _, _ => timing_offsets ref_t singer_t idx'
      end
  end.

Definition degenerate (cost : Q) : PhraseMetrics :=
  {| accuracy := 0; median_cents_error := 0; on_beat_pct := 0;
     timing_offset := 0; dtw_cost := cost |}.

Definition calculate_phrase_metrics (E : Extern)
    (ref_times ref_pitch singer_times singer_pitch : list Q)
    (phrase_start phrase_end : Q) : option PhraseMetrics :=
  '(ref_t, ref_f0) <- extract_phrase_pitch ref_times ref_pitch phrase_start phrase_end ;;
  '(singer_t, singer_f0) <-
     extract_phrase_pitch singer_times singer_pitch phrase_start phrase_end ;;
  if (length ref_f0 =? 0)%nat || (length singer_f0 =? 0)%nat then Some (degenerate 1)
  else
    '(cost, ref_idx, singer_idx) <- align_phrase_dtw E ref_f0 singer_f0 ;;
    if (length ref_idx =? 0)%nat then Some (degenerate cost)
    else
      pairs <- log2_pairs ref_f0 singer_f0 (combine ref_idx singer_idx) ;;
      let cents_errors := map (cents_error E) pairs in
      let '(median_cents, acc) :=
        match median cents_errors with
        | None => (0, 0)
        | Some med =>
            let within_tolerance :=
              length (filter (fun e => Qle_bool (Qabs e) 50) cents_errors) in
            (med, of_nat within_tolerance / of_nat (length cents_errors))
        end in
      let offsets := timing_offsets ref_t singer_t (combine ref_idx singer_idx) in
      let timing :=
        match offsets with
        | [] => 0
        | _ => mean offsets
        end in
      Some {| accuracy := acc; median_cents_error := median_cents;
              on_beat_pct := acc; timing_offset := timing; dtw_cost := cost |}.

(** The JSON documents, as far as [refine_results] reads them.  A key that
    [dict.get] may find missing is an [option]. *)
Record Phrase : Type := { id : Z; start : Q; end_ : Q }.
Record PitchPoint : Type := { t : Q; f0 : Q }.
Record Reference : Type := {
  phrases_k : option (list Phrase);
  f0_ref_on_k : option (list PitchPoint)
}.
Record Performance : Type := {
  timestamps : option (list Q);
  pitch : option (list Q)
}.

Record RefinedPhrase : Type := {
  rp_id : Z; rp_start : Q; rp_end : Q; rp_metrics : PhraseMetrics
}.
Record ChartPoint : Type := { cp_t : Q; cp_ref_f0 : Q; cp_perf_f0 : Q }.
Record Refined : Type := {
  overall_accuracy : Q;
  overall_median_cents_error : Q;
  phrases : list RefinedPhrase;
  pitch_timeline : list ChartPoint;
  phrase_accuracy : list Q
}.

Definition get {A : Type} (field : option (list A)) : list A :=
  match field with
  | Some l => l
  | None => []
  end.

Definition generate_pitch_chart (E : Extern) (ref_times ref_pitch perf_times perf_pitch : list Q)
    : option (list ChartPoint) :=
  if (length ref_times =? 0)%nat || (length perf_times =? 0)%nat then Some []
  else
    let t_min := py_min (hd 0 ref_times) (hd 0 perf_times) in
    let t_max := py_max (last ref_times 0) (last perf_times 0) in
    let t_common := linspace t_min t_max 500 in
    ref_interp <- interp1d E ref_times ref_pitch ;;
    perf_interp <- interp1d E perf_times perf_pitch ;;
    Some (map (fun t => {| cp_t := t; cp_ref_f0 := ref_interp t; cp_perf_f0 := perf_interp t |})
              t_common).

Fixpoint refine_phrases (E : Extern) (ref_times ref_pitch perf_times perf_pitch : list Q)
    (phrases : list Phrase) : option (list RefinedPhrase) :=
  match phrases with
  | [] => Some []
  | phrase :: rest =>
      metrics <- calculate_phrase_metrics E ref_times ref_pitch perf_times perf_pitch
                   (start phrase) (end_ phrase) ;;
      refined <- refine_phrases E ref_times ref_pitch perf_times perf_pitch rest ;;
      Some ({| rp_id := id phrase; rp_start := start phrase; rp_end := end_ phrase;
               rp_metrics := metrics |} :: refined)
  end.

Definition refine_results (E : Extern) (reference : Reference) (performance : Performance)
    : option Refined :=
  let phrases := get (phrases_k reference) in
  let ref_pitch_data := get (f0_ref_on_k reference) in
  let ref_times := map t ref_pitch_data in
  let ref_pitch := map f0 ref_pitch_data in
  let perf_times := get (timestamps performance) in
  let perf_pitch := get (pitch performance) in
  refined_phrases <- refine_phrases E ref_times ref_pitch perf_times perf_pitch phrases ;;
  let accuracies := map (fun p => accuracy (rp_metrics p)) refined_phrases in
  let overall_accuracy :=
    match refined_phrases with
    | [] => 0
    | _ => mean accuracies
    end in
  let median_error :=
    match median (map (fun p => median_cents_error (rp_metrics p)) refined_phrases) with
    | None => 0
    | Some m => m
    end in
  chart <- generate_pitch_chart E ref_times ref_pitch perf_times perf_pitch ;;
  Some {| overall_accuracy := overall_accuracy;
          overall_median_cents_error := median_error;
          phrases := refined_phrases;
          pitch_timeline := chart;
          phrase_accuracy := accuracies |}.

End Refine.

(** ** Building the reference document *)

Module Builder.
Import Np Refine.

(** The loop of [detect_phrases] over consecutive onsets; [i] is the loop
    index.  [onsets] is the array librosa's [onset_detect] returns. *)
Fixpoint phrases_between (i : nat) (onsets : list Q) : list Phrase :=
  match onsets with
  | s :: ((e :: _) as rest) =>
      if Qlt_bool 2 (e - s)
      then {| id := Z.of_nat (i + 1); start := s; end_ := e |}
           :: phrases_between (S i) rest
      else phrases_between (S i) rest
  | _ => []
  end.

(** [detect_phrases], from the detected onsets on; [duration] is
    [len(audio) / sr]. *)
Definition detect_phrases (onsets : list Q) (duration : Q) : list Phrase :=
  let phrases := phrases_between 0 onsets in
  if (0 <? length onsets)%nat then
    if Qlt_bool 2 (duration - last onsets 0) then
      phrases ++ [{| id := Z.of_nat (length phrases + 1);
                     start := last onsets 0; end_ := duration |}]
    else phrases
  else phrases.

(** The entry ['f0_ref_on_k'] of [build_reference_json]: the frames of the
    warped contour with [f0 > 0], as [{t, f0, conf}]. *)
Record RefSample : Type := { s_t : Q; s_f0 : Q; s_conf : Q }.

Definition build_f0_ref_on_k (times_k f0_warped conf_warped : list Q) : list RefSample :=
  map (fun p => {| s_t := fst (fst p); s_f0 := snd (fst p); s_conf := snd p |})
      (filter (fun p => Qlt_bool 0 (snd (fst p)))
              (combine (combine times_k f0_warped) conf_warped)).

(** The two entries of the reference document that [refine_results] reads
    back, ['phrases_k'] and the [t] and [f0] of ['f0_ref_on_k']. *)
Definition build_reference_json (times_k f0_warped conf_warped : list Q)
    (phrases : list Phrase) : Reference :=
  {| phrases_k := Some phrases;
     f0_ref_on_k :=
       Some (map (fun s => {| t := s_t s; f0 := s_f0 s |})
                 (build_f0_ref_on_k times_k f0_warped conf_warped)) |}.

End Builder.

(** ** python/analyze.py: phrase segments and the DTW cost *)

Module Analyze.
Import Np.

(** A phrase of [create_phrase_segments], [{"start", "end"}]. *)
Record Segment : Type := { seg_start : Q; seg_end : Q }.

(** [np.diff]. *)
Fixpoint diff (xs : list Q) : list Q :=
  match xs with
  | x :: ((y :: _) as rest) => (y - x) :: diff rest
  | _ => []
  end.

(** [np.mean(np.diff(beats)) if len(beats) > 1 else 2.0]. *)
Definition beat_interval (beats : list Q) : Q :=
  if (1 <? length beats)%nat then mean (diff beats) else 2.

(** One turn of the fallback loop, for the loop index [i]. *)
Definition fallback_step (beat_interval duration : Q) (phrases : list Segment) (i : nat)
    : list Segment :=
  let start := of_nat i * beat_interval * 4 in
  let end_ := py_min (of_nat (i + 1) * beat_interval * 4) duration in
  if Qlt_bool 1 (end_ - start)
  then phrases ++ [{| seg_start := start; seg_end := end_ |}]
  else phrases.

(** The fallback branch: phrases of four beats.  With a mean beat distance
    of zero the quotient is [inf] or [nan] and [int] raises (OverflowError,
    ValueError). *)
Definition fallback_phrases (beats : list Q) (duration : Q) : option (list Segment) :=
  let beat_interval := beat_interval beats in
  if Qeq_bool (beat_interval * 4) 0 then None
  else
    Some (fold_left (fallback_step beat_interval duration)
                    (seq 0 (Z.to_nat (int (duration / (beat_interval * 4))))) []).

(** The state of the grouping loop: the phrases so far and [current_start]. *)
Record group_state : Type := { gs_phrases : list Segment; current_start : Q }.

Definition group_step (st : group_state) (onset : Q) : group_state :=
  if Qlt_bool 1 (onset - current_start st)
  then {| gs_phrases := gs_phrases st
                        ++ [{| seg_start := current_start st; seg_end := onset |}];
          current_start := onset |}
  else st.

Definition create_phrase_segments (onsets beats : list Q) (duration : Q)
    : option (list Segment) :=
  if (length onsets <? 2)%nat then fallback_phrases beats duration
  else
    let st := fold_left group_step onsets {| gs_phrases := []; current_start := 0 |} in
    if Qlt_bool 1 (duration - current_start st)
    then Some (gs_phrases st ++ [{| seg_start := current_start st; seg_end := duration |}])
    else Some (gs_phrases st).

(** A float64 that may be infinite or not a number: the entries of the DTW
    matrix start as [np.inf]. *)
Inductive Float : Type :=
| Finite (x : Q)
| PosInf
| NegInf
| NaN.

(** [c + x] for a finite [c]. *)
Definition fadd (c : Q) (x : Float) : Float :=
  match x with
  | Finite v => Finite (c + v)
  | other => other
  end.

(** [x < y]; a comparison with [nan] is false. *)
Definition flt (x y : Float) : bool :=
  match x, y with
  | Finite u, Finite v => Qlt_bool u v
  | Finite _, PosInf => true
  | NegInf, Finite _ => true
  | NegInf, PosInf => true
  | _, _ => false
  end.

(** Python's three-argument [min]: a later argument replaces the current
    minimum only when it is strictly smaller. *)
Definition py_min3 (x y z : Float) : Float :=
  let m := if flt y x then y else x in
  if flt z m then z else m.

(** [x / n] for a numpy float and a Python integer: dividing by zero gives
    an infinity or [nan], not an exception. *)
Definition fdiv (x : Float) (n : nat) : Float :=
  match x with
  | Finite v =>
      match n with
      | O => if Qlt_bool 0 v then PosInf else if Qlt_bool v 0 then NegInf else NaN
      | _ => Finite (v / of_nat n)
      end
  | other => other
  end.

(** The local cost: the pitch distance of two voiced frames, 100 when
    either is unvoiced. *)
Definition cost (x y : Q) : Q :=
  if Qlt_bool 0 x && Qlt_bool 0 y then Qabs (x - y) else 100.

(** Row [i] of the matrix from column 1 on, for [x = seq1[i-1]]: [above] is
    row [i-1] from column 1 on, [diag] the entry of row [i-1] left of it and
    [left] the entry of row [i] just written. *)
Fixpoint fill_row (x : Q) (seq2 : list Q) (diag : Float) (above : list Float)
    (left : Float) : list Float :=
  match seq2, above with
  | y :: seq2', up :: above' =>
      let entry := fadd (cost x y) (py_min3 up left diag) in
      entry :: fill_row x seq2' up above' entry
  | _, _ => []
  end.

(** Row [i] from row [i-1]; column 0 keeps its initial [np.inf]. *)
Definition next_row (seq2 : list Q) (prev : list Float) (x : Q) : list Float :=
  match prev with
  | [] => []
  | diag :: above => PosInf :: fill_row x seq2 diag above PosInf
  end.

(** Row 0: [dtw_matrix[0, 0] = 0], [np.inf] elsewhere. *)
Definition first_row (m : nat) : list Float := Finite 0 :: repeat PosInf m.

(** The inner function [dtw_distance]: the matrix is filled row by row and
    [dtw_matrix[n, m]] is the last entry of the last row. *)
Definition dtw_distance (seq1 seq2 : list Q) : Float :=
  last (fold_left (next_row seq2) seq1 (first_row (length seq2))) NaN.

(** [calculate_dtw_alignment]; on two lists of floats nothing in the [try]
    block raises. *)
Definition calculate_dtw_alignment (reference_pitch live_pitch : list Q) : Float :=
  let alignment_cost := dtw_distance reference_pitch live_pitch in
  fdiv alignment_cost (Nat.max (length reference_pitch) (length live_pitch)).

End Analyze.

(** ** Notions of the specification *)

Module Spec.
Import Np Preprocess.

(** The merge condition of the WarpFitter, in the specification's words:
    slope difference below 0.01, intercept difference below 0.1, both
    qualities above 0.8. *)
Definition mergeable (prev cur : AlignmentSegment) : Prop :=
  Qabs (a cur - a prev) < 1 # 100
  /\ Qabs (b cur - b prev) < 1 # 10
  /\ 8 # 10 < quality cur
  /\ 8 # 10 < quality prev.

(** [m] is the merge of [cur] into [prev]: it spans both, its slope and
    intercept are the arithmetic means and its quality the minimum. *)
Definition is_merge_of (m prev cur : AlignmentSegment) : Prop :=
  tk_start m = tk_start prev
  /\ tk_end m = tk_end cur
  /\ a m == (a prev + a cur) / 2
  /\ b m == (b prev + b cur) / 2
  /\ quality m == Qmin (quality prev) (quality cur).

(** The merge pass as a scan: the result for [segs ++ [cur]] is obtained
    from the result for [segs] by merging [cur] into its last segment or by
    appending [cur]. *)
Inductive merge_pass : list AlignmentSegment -> list AlignmentSegment -> Prop :=
| merge_pass_nil : merge_pass [] []
| merge_pass_first seg : merge_pass [seg] [seg]
| merge_pass_merge segs out prev cur m :
    merge_pass segs (out ++ [prev]) ->
    mergeable prev cur ->
    is_merge_of m prev cur ->
    merge_pass (segs ++ [cur]) (out ++ [m])
| merge_pass_keep segs out prev cur :
    merge_pass segs (out ++ [prev]) ->
    ~ mergeable prev cur ->
    merge_pass (segs ++ [cur]) (out ++ [prev; cur]).

(** The pitch samples of a phrase window, and the voiced ones among them:
    the two sequences the PhraseScorer hands to DTW. *)
Definition phrase_f0 (times f0 : list Q) (phrase_start phrase_end : Q) : list Q :=
  compress (map (fun t => Qle_bool phrase_start t && Qle_bool t phrase_end) times) f0.

Definition phrase_voiced (times f0 : list Q) (phrase_start phrase_end : Q) : list Q :=
  filter (Qlt_bool 0) (phrase_f0 times f0 phrase_start phrase_end).

(** A strictly increasing time array. *)
Definition strictly_increasing (times : list Q) : Prop := Sorted Qlt times.

(** [segs] is a list of voiced runs of the mask [V], given as half-open
    index ranges, in increasing order between [lo] and [hi]: each run is
    non-empty, lies inside the mask, covers voiced frames only, and starts
    no earlier than the previous one ends. *)
Fixpoint runs_ok (V : list bool) (lo : nat) (segs : list (nat * nat)) (hi : nat) : Prop :=
  match segs with
  | [] => (lo <= hi)%nat
  | (s, e) :: rest =>
      (lo <= s)%nat /\ (s < e)%nat /\ (e <= length V)%nat
      /\ (forall k, (s <= k < e)%nat -> nth k V false = true)
      /\ runs_ok V e rest hi
  end.

(** The invariant of the scanning loop before frame [i]. *)
Definition scan_inv (V : list bool) (i : nat) (st : scan_state) : Prop :=
  let '(segs, in_segment, start_idx) := st in
  if in_segment : bool then
    (start_idx < i)%nat /\ runs_ok V 0 segs start_idx
    /\ (forall k, (start_idx <= k < i)%nat -> nth k V false = true)
  else runs_ok V 0 segs i.

(** Frame [k] lies in one of the runs. *)
Definition in_runs (segs : list (nat * nat)) (k : nat) : Prop :=
  exists s e, In (s, e) segs /\ (s <= k < e)%nat.

(** A run that cannot be extended: the frame before it and the frame after
    it, where they exist, are unvoiced. *)
Definition maximal_run (V : list bool) (r : nat * nat) : Prop :=
  (fst r = 0%nat \/ nth (fst r - 1) V true = false)
  /\ (snd r = length V \/ nth (snd r) V true = false).

(** What the scanning loop knows before frame [i], beyond [scan_inv]: every
    voiced frame seen so far is in a closed run or in the open one, every
    closed run is maximal, and the open run starts after an unvoiced
    frame. *)
Definition scan_cover_inv (V : list bool) (i : nat) (st : scan_state) : Prop :=
  let '(segs, in_segment, start_idx) := st in
  (forall k, (k < i)%nat -> nth k V false = true ->
     in_runs segs k \/ (in_segment = true /\ (start_idx <= k)%nat))
  /\ Forall (fun r => (fst r = 0%nat \/ nth (fst r - 1) V true = false)
                      /\ nth (snd r) V true = false) segs
  /\ (if in_segment : bool
      then (start_idx < i)%nat
           /\ (start_idx = 0%nat \/ nth (start_idx - 1) V true = false)
      else i = 0%nat \/ nth (i - 1) V true = false).

(** A NoteBin as the specification wants it. *)
Definition valid_bin (bin : NoteBin) : Prop :=
  MIN_NOTE_DURATION <= nb_end bin - nb_start bin
  /\ nb_start bin < nb_end bin
  /\ 0 < nb_f0 bin.

(** An alignment input whose lengths differ by more than ten percent: 100
    karaoke frames and 200 reference frames, one frame per second, with
    twelve constant chroma rows each.  Downsampled by ten they leave 10 and
    20 frames, and a DTW band of [int(0.1 * 20) = 2]. *)
Definition short_times_k : list Q := arange 100.
Definition long_times_ref : list Q := arange 200.
Definition short_chroma_k : list (list Q) := repeat (repeat (1 # 12) 100) 12.
Definition long_chroma_ref : list (list Q) := repeat (repeat (1 # 12) 200) 12.

(** The determinant of the normal equations of a line fit over the
    abscissae [x], and the squared distances of [x0] to the elements of a
    list. *)
Definition fit_det (x : list Q) : Q :=
  of_nat (length x) * sum (map (fun t => t * t) x) - sum x * sum x.

Definition sq_dists (x0 : Q) (l : list Q) : Q :=
  sum (map (fun y => (x0 - y) * (x0 - y)) l).

(** A segment of the identity warp. *)
Definition identity_segment (seg : AlignmentSegment) : Prop :=
  a seg == 1 /\ b seg == 0 /\ quality seg == 1.

(** A segment that carries the affine warp [t_ref = k * t_k + c] with a
    perfect fit. *)
Definition affine_segment (k c : Q) (seg : AlignmentSegment) : Prop :=
  a seg == k /\ b seg == c /\ quality seg == 1.

(** A segment that spans a non-empty stretch of karaoke time with a fit
    score of at most one. *)
Definition proper_segment (seg : AlignmentSegment) : Prop :=
  tk_start seg < tk_end seg /\ quality seg <= 1.

(** A performance that replays the reference contour sample by sample. *)
Definition replay (reference : Refine.Reference) : Refine.Performance :=
  {| Refine.timestamps :=
       Some (map Refine.t (Refine.get (Refine.f0_ref_on_k reference)));
     Refine.pitch :=
       Some (map Refine.f0 (Refine.get (Refine.f0_ref_on_k reference))) |}.

(** The metrics of a phrase that was sung exactly. *)
Definition perfect_score (m : Refine.PhraseMetrics) : Prop :=
  Refine.accuracy m == 1 /\ Refine.median_cents_error m == 0
  /\ Refine.timing_offset m == 0.

(** A phrase of six frames at 50 frames per second whose contour is
    unvoiced for three frames and then holds 220 Hz for three. *)
Definition leading_unvoiced_times : list Q := [0; 1 # 50; 2 # 50; 3 # 50; 4 # 50; 5 # 50].
Definition leading_unvoiced_f0 : list Q := [0; 0; 0; 220; 220; 220].

End Spec.

(** Notions for the properties of [python/analyze.py]. *)

Module AnalyzeSpec.
Import Np Analyze.

(** The phrases cover the stretch from [from] to [to] without gap or
    overlap: the first starts at [from], each next one starts where the one
    before ends, the last ends at [to]. *)
Fixpoint tiles (from to : Q) (phrases : list Segment) : Prop :=
  match phrases with
  | [] => from = to
  | p :: rest => seg_start p = from /\ tiles (seg_end p) to rest
  end.

(** The entry [dtw_matrix[i, j]]: entry [j] of the row reached after [i]
    elements of [seq1]. *)
Definition entry (seq1 seq2 : list Q) (i j : nat) : Float :=
  nth j (fold_left (next_row seq2) (firstn i seq1) (first_row (length seq2))) NaN.

(** The local costs along the diagonal. *)
Definition diagonal_costs (seq1 seq2 : list Q) : list Q :=
  map (fun p => cost (fst p) (snd p)) (combine seq1 seq2).

(** A matrix entry that is a non-negative number or still [np.inf]. *)
Definition nonneg_or_inf (x : Float) : Prop :=
  match x with
  | Finite v => 0 <= v
  | PosInf => True
  | _ => False
  end.

(** The order of such entries. *)
Definition fle (x y : Float) : Prop :=
  match x, y with
  | Finite u, Finite v => u <= v
  | _, PosInf => True
  | _, _ => False
  end.

(** The result is the number [q], up to [==]. *)
Definition is_value (x : Float) (q : Q) : Prop :=
  match x with
  | Finite v => v == q
  | _ => False
  end.

End AnalyzeSpec.

(** * Properties *)

Import Np.

(** ** Boolean comparisons on [Q] *)

Lemma Qlt_bool_iff (x y : Q) : Qlt_bool x y = true <-> x < y.
Proof.
  unfold Qlt_bool. rewrite negb_true_iff.
  split; intro H.
  - apply Qnot_le_lt. intro Hle. apply Qle_bool_iff in Hle. congruence.
  - destruct (Qle_bool y x) eqn:Hb; [|reflexivity].
    apply Qle_bool_iff in Hb. apply Qle_not_lt in Hb. contradiction.
Qed.

Lemma Qlt_bool_false_iff (x y : Q) : Qlt_bool x y = false <-> y <= x.
Proof.
  unfold Qlt_bool. rewrite negb_false_iff. apply Qle_bool_iff.
Qed.

Lemma Qle_bool_false_iff (x y : Q) : Qle_bool x y = false <-> y < x.
Proof.
  rewrite <- Qlt_bool_iff. unfold Qlt_bool.
  destruct (Qle_bool x y); simpl; intuition congruence.
Qed.

Ltac qbool :=
  repeat match goal with
  | H : Qlt_bool _ _ = true |- _ => apply Qlt_bool_iff in H
  | H : Qlt_bool _ _ = false |- _ => apply Qlt_bool_false_iff in H
  | H : Qle_bool _ _ = true |- _ => apply Qle_bool_iff in H
  | H : Qle_bool _ _ = false |- _ => apply Qle_bool_false_iff in H
  | H : Qeq_bool _ _ = true |- _ => apply Qeq_bool_iff in H
  | H : Qeq_bool _ _ = false |- _ => apply Qeq_bool_neq in H
  | H : _ && _ = true |- _ => apply andb_true_iff in H; destruct H
  end.

Lemma of_nat_S (n : nat) : of_nat (S n) == of_nat n + 1.
Proof.
  unfold of_nat. rewrite Nat2Z.inj_succ, <- Z.add_1_r, inject_Z_plus. reflexivity.
Qed.

Lemma of_nat_nonneg (n : nat) : 0 <= of_nat n.
Proof.
  unfold of_nat. change 0 with (inject_Z 0). rewrite <- Zle_Qle. lia.
Qed.

Lemma of_nat_le (n m : nat) : (n <= m)%nat -> of_nat n <= of_nat m.
Proof.
  intro H. unfold of_nat. rewrite <- Zle_Qle. lia.
Qed.

Lemma of_nat_lt (n m : nat) : (n < m)%nat -> of_nat n < of_nat m.
Proof.
  intro H. unfold of_nat. rewrite <- Zlt_Qlt. lia.
Qed.

Lemma nth_map_seq {A : Type} (f : nat -> A) (s len i : nat) (d : A) :
  (i < len)%nat -> nth i (map f (seq s len)) d = f (s + i)%nat.
Proof.
  intro H.
  rewrite (nth_indep _ d (f 0%nat)) by (rewrite length_map, length_seq; assumption).
  rewrite (map_nth f), seq_nth by assumption. reflexivity.
Qed.

(** ** PitchWarper: the smoothing loop *)

Section Ema.
Import Preprocess.

Lemma ema_loop_length (ws : list Q) : forall prev, length (ema_loop prev ws) = length ws.
Proof.
  induction ws as [|w ws IH]; intro prev; simpl; [reflexivity|].
  now rewrite IH.
Qed.

Lemma ema_step_pos (prev w : Q) : 0 <= w -> (0 < ema_step prev w <-> 0 < w).
Proof.
  intro Hw. unfold ema_step, alpha.
  destruct (Qlt_bool 0 w) eqn:H1; destruct (Qlt_bool 0 prev) eqn:H2; simpl;
    qbool; split; intro; try assumption; lra.
Qed.

(** Each output sample is one step from the previous output sample, and is
    voiced exactly when its input sample is. *)
Lemma ema_loop_nth (ws : list Q) :
  forall prev k,
    Forall (fun x => 0 <= x) ws -> (k < length ws)%nat ->
    nth (S k) (prev :: ema_loop prev ws) 0
      = ema_step (nth k (prev :: ema_loop prev ws) 0) (nth k ws 0)
    /\ (0 < nth (S k) (prev :: ema_loop prev ws) 0 <-> 0 < nth k ws 0).
Proof.
  induction ws as [|w ws IH]; intros prev k Hnn Hk; simpl in Hk; [lia|].
  inversion Hnn as [|? ? Hw Hws]; subst.
  destruct k as [|k].
  - simpl. split; [reflexivity|]. now apply ema_step_pos.
  - specialize (IH (ema_step prev w) k Hws ltac:(lia)).
    cbn [ema_loop].
    change (nth (S (S k)) (prev :: ema_step prev w :: ema_loop (ema_step prev w) ws) 0)
      with (nth (S k) (ema_step prev w :: ema_loop (ema_step prev w) ws) 0).
    change (nth (S k) (prev :: ema_step prev w :: ema_loop (ema_step prev w) ws) 0)
      with (nth k (ema_step prev w :: ema_loop (ema_step prev w) ws) 0).
    change (nth (S k) (w :: ws) 0) with (nth k ws 0).
    exact IH.
Qed.

Lemma ema_smooth_pos (w0 : Q) (ws : list Q) (i : nat) :
  Forall (fun x => 0 <= x) (w0 :: ws) -> (i < length (w0 :: ws))%nat ->
  (0 < nth i (w0 :: ema_loop w0 ws) 0 <-> 0 < nth i (w0 :: ws) 0).
Proof.
  intros Hnn Hi. inversion Hnn; subst.
  destruct i as [|k]; [simpl; tauto|].
  simpl in Hi.
  destruct (ema_loop_nth ws w0 k) as [_ H]; [assumption|lia|].
  exact H.
Qed.

(** C7. On a non-negative warped pitch sequence the smoothing loop returns
    a sequence of the same length whose first sample is the input's; at a
    later index [i] it blends, [output[i] = 0.3 * warped[i] + 0.7 *
    output[i-1]], when [warped[i]] and [warped[i-1]] are both voiced, and
    copies [warped[i]] when either is zero; the output is zero exactly where
    the input is. *)
Theorem ema_smooth_blends_within_voiced_runs :
  forall (warped : list Q) (i : nat),
    Forall (fun x => 0 <= x) warped ->
    (i < length warped)%nat ->
    exists output,
      ema_smooth warped = Some output
      /\ length output = length warped
      /\ nth 0 output 0 = nth 0 warped 0
      /\ (forall j, i = S j ->
            (0 < nth i warped 0 -> 0 < nth j warped 0 ->
               nth i output 0 == (3 # 10) * nth i warped 0 + (7 # 10) * nth j output 0)
            /\ (nth i warped 0 == 0 \/ nth j warped 0 == 0 ->
               nth i output 0 = nth i warped 0))
      /\ (nth i output 0 == 0 <-> nth i warped 0 == 0).
Proof.
  intros [|w0 ws] i Hnn Hi; simpl in Hi; [lia|].
  exists (w0 :: ema_loop w0 ws). split; [reflexivity|].
  split; [simpl; now rewrite ema_loop_length|].
  split; [reflexivity|].
  assert (Hpos : forall k, (k < length (w0 :: ws))%nat ->
            (0 < nth k (w0 :: ema_loop w0 ws) 0 <-> 0 < nth k (w0 :: ws) 0))
    by (intros k Hk; now apply ema_smooth_pos).
  assert (Hge : forall k, (k < length (w0 :: ws))%nat -> 0 <= nth k (w0 :: ws) 0).
  { intros k Hk. rewrite Forall_forall in Hnn. apply Hnn, nth_In, Hk. }
  split.
  - intros j ->.
    inversion Hnn as [|? ? _ Hws]; subst.
    destruct (ema_loop_nth ws w0 j Hws ltac:(lia)) as [Hstep _].
    change (nth (S j) (w0 :: ws) 0) with (nth j ws 0).
    rewrite Hstep. unfold ema_step, alpha.
    specialize (Hpos j ltac:(simpl; lia)).
    split.
    + intros Hi0 Hj0.
      apply Qlt_bool_iff in Hi0. rewrite Hi0.
      apply Hpos, Qlt_bool_iff in Hj0. rewrite Hj0. simpl. ring.
    + intros [Hz|Hz].
      * destruct (Qlt_bool 0 (nth j ws 0)) eqn:Hb; [|reflexivity].
        qbool. lra.
      * destruct (Qlt_bool 0 (nth j (w0 :: ema_loop w0 ws) 0)) eqn:Hb;
          [|now rewrite andb_false_r].
        apply Qlt_bool_iff, Hpos in Hb. lra.
  - specialize (Hpos i ltac:(simpl; lia)). specialize (Hge i ltac:(simpl; lia)).
    assert (Hge' : 0 <= nth i (w0 :: ema_loop w0 ws) 0).
    { destruct (Qlt_le_dec 0 (nth i (w0 :: ws) 0)) as [Hp|Hn].
      - apply Qlt_le_weak. now apply Hpos.
      - destruct i as [|k]; [exact Hge|].
        inversion Hnn as [|? ? _ Hws]; subst.
        destruct (ema_loop_nth ws w0 k Hws ltac:(simpl in Hi; lia)) as [Hstep _].
        rewrite Hstep. unfold ema_step.
        change (nth (S k) (w0 :: ws) 0) with (nth k ws 0) in *.
        destruct (Qlt_bool 0 (nth k ws 0)) eqn:Hb; [qbool; lra|].
        simpl. exact Hge. }
    split; intro Hz.
    + destruct (Qlt_le_dec 0 (nth i (w0 :: ws) 0)) as [Hp|Hn]; [|lra].
      apply Hpos in Hp. lra.
    + destruct (Qlt_le_dec 0 (nth i (w0 :: ema_loop w0 ws) 0)) as [Hp|Hn]; [|lra].
      apply Hpos in Hp. lra.
Qed.

Lemma ema_smooth_blends_within_voiced_runs_witness :
  exists output,
    ema_smooth [0; 100; 110; 0; 120] = Some output
    /\ length output = 5%nat
    /\ nth 2 output 0 == 103
    /\ nth 4 output 0 = 120.
Proof.
  destruct (ema_smooth_blends_within_voiced_runs [0; 100; 110; 0; 120] 2)
    as (output & Hs & Hlen & _ & _ & _).
  - repeat constructor; discriminate.
  - simpl; lia.
  - exists output. split; [exact Hs|]. split; [exact Hlen|].
    injection Hs as <-. split; vm_compute; reflexivity.
Defined.

End Ema.

(** ** WarpFitter: the merge pass *)

Section Merge.
Import Preprocess Spec.

Lemma similar_iff (seg last : AlignmentSegment) :
  similar seg last = true <-> mergeable last seg.
Proof.
  unfold similar, mergeable.
  rewrite !andb_true_iff, !Qlt_bool_iff. tauto.
Qed.

Lemma py_min_Qmin (x y : Q) : py_min x y == Qmin x y.
Proof.
  unfold py_min. destruct (Qlt_bool y x) eqn:H; qbool.
  - symmetry. apply Q.min_r. now apply Qlt_le_weak.
  - symmetry. now apply Q.min_l.
Qed.

Lemma merge_step_snoc (out : list AlignmentSegment) (prev cur : AlignmentSegment) :
  merge_step (out ++ [prev]) cur =
    if similar cur prev then
      out ++ [{| tk_start := tk_start prev; tk_end := tk_end cur;
                 a := (a cur + a prev) / 2; b := (b cur + b prev) / 2;
                 quality := py_min (quality cur) (quality prev) |}]
    else out ++ [prev; cur].
Proof.
  unfold merge_step. rewrite rev_app_distr. simpl.
  rewrite removelast_last.
  destruct (similar cur prev); [reflexivity|].
  now rewrite <- app_assoc.
Qed.

Lemma merge_segments_snoc (segs : list AlignmentSegment) (cur : AlignmentSegment) :
  merge_segments (segs ++ [cur]) = merge_step (merge_segments segs) cur.
Proof.
  unfold merge_segments. now rewrite fold_left_app.
Qed.

Lemma merge_step_nonempty merged seg : merge_step merged seg <> [].
Proof.
  unfold merge_step.
  destruct (rev merged) as [|last ?]; [discriminate|].
  destruct (similar seg last); intro H; apply app_eq_nil in H; destruct H; discriminate.
Qed.

(** C5. The merge loop of [fit_piecewise_linear] is the scan of the
    specification: the first segment is kept, and every later segment is
    merged into the last segment of the result so far exactly when the slope
    difference is below 0.01, the intercept difference below 0.1 and both
    qualities exceed 0.8; the merged segment has the mean slope, the mean
    intercept and the minimum quality; otherwise the segment is appended. *)
Theorem merge_segments_refines_merge_pass :
  forall segments : list AlignmentSegment,
    merge_pass segments (merge_segments segments)
    /\ (forall out prev cur,
          merge_segments segments = out ++ [prev] ->
          (mergeable prev cur <->
             exists m, merge_segments (segments ++ [cur]) = out ++ [m]
                       /\ is_merge_of m prev cur)
          /\ (~ mergeable prev cur <->
                merge_segments (segments ++ [cur]) = out ++ [prev; cur])).
Proof.
  assert (Hstep : forall segments out prev cur,
            merge_segments segments = out ++ [prev] ->
            (mergeable prev cur ->
               exists m, merge_segments (segments ++ [cur]) = out ++ [m]
                         /\ is_merge_of m prev cur)
            /\ (~ mergeable prev cur ->
                  merge_segments (segments ++ [cur]) = out ++ [prev; cur])).
  { intros segments out prev cur Hm.
    rewrite merge_segments_snoc, Hm, merge_step_snoc.
    destruct (similar cur prev) eqn:Hs.
    - apply similar_iff in Hs. split; [|tauto].
      intros _. eexists. split; [reflexivity|].
      unfold is_merge_of; simpl.
      repeat split; try reflexivity; try (now field).
      rewrite py_min_Qmin. apply Q.min_comm.
    - split; [|reflexivity].
      intro H. apply similar_iff in H. congruence. }
  intro segments. split.
  - induction segments as [|cur segs IH] using rev_ind; [constructor|].
    destruct (merge_segments segs) as [|x l] eqn:Hm using rev_ind.
    + rewrite merge_segments_snoc, Hm. cbn.
      destruct segs as [|s segs] using rev_ind; [constructor|].
      rewrite merge_segments_snoc in Hm. now apply merge_step_nonempty in Hm.
    + clear IHl. destruct (Hstep segs l x cur Hm) as [H1 H2].
      destruct (similar cur x) eqn:Hs.
      * apply similar_iff in Hs. destruct (H1 Hs) as (m & -> & Hmerge).
        now apply merge_pass_merge with (prev := x).
      * assert (Hn : ~ mergeable x cur)
          by (intro H; apply similar_iff in H; congruence).
        rewrite (H2 Hn). now apply merge_pass_keep.
  - intros out prev cur Hm. destruct (Hstep segments out prev cur Hm) as [H1 H2].
    split; (split; [auto|]).
    + intros (m & Heq & _) .
      destruct (similar cur prev) eqn:Hs; [now apply similar_iff|].
      assert (Hn : ~ mergeable prev cur)
        by (intro H; apply similar_iff in H; congruence).
      rewrite (H2 Hn) in Heq.
      apply (f_equal (@length _)) in Heq. rewrite !length_app in Heq. simpl in Heq. lia.
    + intros Heq Hmg. destruct (H1 Hmg) as (m & Heq' & _).
      rewrite Heq in Heq'.
      apply (f_equal (@length _)) in Heq'. rewrite !length_app in Heq'. simpl in Heq'. lia.
Qed.

End Merge.

Lemma merge_segments_refines_merge_pass_witness :
  let s1 := {| Preprocess.tk_start := 0; Preprocess.tk_end := 2; Preprocess.a := 1;
               Preprocess.b := 0; Preprocess.quality := 9 # 10 |} in
  let s2 := {| Preprocess.tk_start := 1; Preprocess.tk_end := 3; Preprocess.a := 1001 # 1000;
               Preprocess.b := 1 # 100; Preprocess.quality := 95 # 100 |} in
  Preprocess.merge_segments [s1] = [] ++ [s1]
  /\ Spec.mergeable s1 s2
  /\ exists m, Preprocess.merge_segments ([s1] ++ [s2]) = [] ++ [m]
               /\ Spec.is_merge_of m s1 s2.
Proof.
  intros s1 s2.
  assert (Hm : Spec.mergeable s1 s2) by (repeat split; vm_compute; reflexivity).
  split; [reflexivity|]. split; [exact Hm|].
  exact (proj1 (proj1 (proj2 (merge_segments_refines_merge_pass [s1]) [] s1 s2 eq_refl)) Hm).
Defined.

(** ** PitchWarper: the segment lookup *)

Section Lookup.
Import Preprocess.

Lemma find_first {A : Type} (f : A -> bool) (l : list A) (x : A) :
  find f l = Some x ->
  f x = true /\ exists l1 l2, l = l1 ++ x :: l2 /\ Forall (fun y => f y = false) l1.
Proof.
  induction l as [|y l IH]; simpl; [discriminate|].
  destruct (f y) eqn:Hy.
  - intros [= ->]. split; [assumption|]. exists [], l. split; [reflexivity|constructor].
  - intro H. destruct (IH H) as (Hx & l1 & l2 & -> & Hall).
    split; [assumption|]. exists (y :: l1), l2. split; [reflexivity|].
    now constructor.
Qed.

Lemma find_none_all {A : Type} (f : A -> bool) (l : list A) :
  find f l = None -> Forall (fun y => f y = false) l.
Proof.
  intro H. apply Forall_forall. intros y Hy. exact (find_none f l H y Hy).
Qed.

(** The scan of [argmin] keeps the index of the first least element seen. *)
Lemma argmin_from_least (l : list Q) :
  forall pre besti best,
    nth_error pre besti = Some best ->
    Forall (fun x => best <= x) pre ->
    exists v,
      nth_error (pre ++ l) (argmin_from (length pre) besti best l) = Some v
      /\ Forall (fun x => v <= x) (pre ++ l).
Proof.
  induction l as [|x l IH]; intros pre besti best Hb Hall; simpl.
  - exists best. rewrite app_nil_r. auto.
  - replace (pre ++ x :: l) with ((pre ++ [x]) ++ l) by now rewrite <- app_assoc.
    replace (S (length pre)) with (length (pre ++ [x]))
      by (rewrite length_app; simpl; lia).
    destruct (Qlt_bool x best) eqn:Hx; qbool.
    + apply IH.
      * rewrite nth_error_app2 by lia. now rewrite Nat.sub_diag.
      * apply Forall_app. split; [|repeat constructor; apply Qle_refl].
        eapply Forall_impl; [|exact Hall]. intros y Hy. simpl in Hy. lra.
    + apply IH.
      * rewrite nth_error_app1; [assumption|]. apply nth_error_Some. congruence.
      * apply Forall_app. split; [assumption|]. repeat constructor. assumption.
Qed.

Lemma argmin_least (l : list Q) :
  l <> [] ->
  exists i v, argmin l = Some i /\ nth_error l i = Some v /\ Forall (fun x => v <= x) l.
Proof.
  destruct l as [|x l]; [congruence|]. intros _.
  destruct (argmin_from_least l [x] 0%nat x eq_refl) as (v & Hv & Hall).
  - repeat constructor. apply Qle_refl.
  - exists (argmin_from 1 0 x l), v. auto.
Qed.

Lemma find_segment_some (segs : list AlignmentSegment) (tk : Q) :
  segs <> [] ->
  exists seg,
    find_segment segs tk = Some seg
    /\ In seg segs
    /\ ((tk_start seg <= tk <= tk_end seg
         /\ exists before after,
              segs = before ++ seg :: after
              /\ Forall (fun s => ~ (tk_start s <= tk <= tk_end s)) before)
        \/ (Forall (fun s => ~ (tk_start s <= tk <= tk_end s)) segs
            /\ Forall (fun s => Qabs (tk - tk_start seg) <= Qabs (tk - tk_start s)) segs)).
Proof.
  intro Hne. unfold find_segment.
  assert (Hcov : forall l, Forall (fun y => covers tk y = false) l ->
                           Forall (fun s => ~ (tk_start s <= tk <= tk_end s)) l).
  { intros l Hl. eapply Forall_impl; [|exact Hl]. intros s Hs [H1 H2]. simpl in Hs.
    unfold covers in Hs. apply Qle_bool_iff in H1, H2. rewrite H1, H2 in Hs. discriminate. }
  destruct (find (covers tk) segs) as [seg|] eqn:Hf.
  - destruct (find_first _ _ _ Hf) as (Hc & l1 & l2 & Heq & Hall).
    exists seg. split; [reflexivity|].
    split; [rewrite Heq; apply in_elt|].
    left. unfold covers in Hc. qbool. split; [split; assumption|].
    exists l1, l2. auto.
  - destruct (argmin_least (map (fun seg => Qabs (tk - tk_start seg)) segs))
      as (i & v & Hi & Hv & Hall).
    { destruct segs; [congruence|discriminate]. }
    rewrite Hi. simpl.
    rewrite nth_error_map in Hv.
    destruct (nth_error segs i) as [seg|] eqn:Hs; [|discriminate].
    injection Hv as <-.
    exists seg. split; [reflexivity|].
    split; [eapply nth_error_In; eassumption|].
    right. split; [apply Hcov, find_none_all, Hf|].
    rewrite Forall_map in Hall. exact Hall.
Qed.

(** C6. On a non-empty segment list the lookup returns a segment for every
    time [tk]: the first segment whose [[tk_start, tk_end]] contains [tk],
    or, when no segment contains it, a segment whose [tk_start] is closest
    to [tk]; and the mapping of the whole grid [i / FPS] raises no error. *)
Theorem find_segment_covering_or_nearest :
  forall (alignment_segments : list AlignmentSegment) (duration_k tk : Q),
    alignment_segments <> [] ->
    (exists seg,
       find_segment alignment_segments tk = Some seg
       /\ In seg alignment_segments
       /\ ((tk_start seg <= tk <= tk_end seg
            /\ exists before after,
                 alignment_segments = before ++ seg :: after
                 /\ Forall (fun s => ~ (tk_start s <= tk <= tk_end s)) before)
           \/ (Forall (fun s => ~ (tk_start s <= tk <= tk_end s)) alignment_segments
               /\ Forall (fun s => Qabs (tk - tk_start seg) <= Qabs (tk - tk_start s))
                         alignment_segments)))
    /\ (exists tref_mapped,
          map_grid alignment_segments (tk_grid duration_k) = Some tref_mapped
          /\ length tref_mapped = length (tk_grid duration_k)).
Proof.
  intros segs duration_k tk Hne. split; [now apply find_segment_some|].
  induction (tk_grid duration_k) as [|t grid IH]; simpl.
  - exists []. auto.
  - destruct (find_segment_some segs t Hne) as (seg & -> & _).
    destruct IH as (rest & -> & Hlen). simpl.
    eexists. split; [reflexivity|]. simpl. now rewrite Hlen.
Qed.

Lemma find_segment_covering_or_nearest_witness :
  let s1 := {| tk_start := 0; tk_end := 1; a := 1; b := 0; quality := 1 |} in
  let s2 := {| tk_start := 2; tk_end := 3; a := 1; b := 1 # 2; quality := 1 |} in
  find_segment [s1; s2] (29 # 10) = Some s2
  /\ find_segment [s1; s2] (14 # 10) = Some s2
  /\ exists tref_mapped,
       map_grid [s1; s2] (tk_grid 4) = Some tref_mapped
       /\ length tref_mapped = length (tk_grid 4).
Proof.
  intros s1 s2.
  split; [reflexivity|]. split; [reflexivity|].
  refine (proj2 (find_segment_covering_or_nearest [s1; s2] 4 (14 # 10) _)).
  discriminate.
Defined.

End Lookup.

(** ** PhraseScorer *)

Section Scorer.
Import Refine Spec.

Lemma extract_phrase_pitch_parallel (times f0 : list Q) (s e : Q) :
  length f0 = length times ->
  extract_phrase_pitch times f0 s e
    = Some (phrase_f0 times times s e, phrase_f0 times f0 s e).
Proof.
  intro H. unfold extract_phrase_pitch, phrase_f0.
  now rewrite H, Nat.eqb_refl.
Qed.

Lemma compress_length (mask : list bool) (l1 l2 : list Q) :
  length l1 = length l2 -> length (compress mask l1) = length (compress mask l2).
Proof.
  unfold compress. rewrite !length_map.
  revert l1 l2. induction mask as [|m mask IH]; intros [|x l1] [|y l2] H;
    simpl in *; try reflexivity; try discriminate.
  injection H as H. destruct m; simpl; [f_equal|]; now apply IH.
Qed.

Lemma filter_length_le {A : Type} (f : A -> bool) (l : list A) :
  (length (filter f l) <= length l)%nat.
Proof.
  induction l as [|x l IH]; simpl; [lia|]. destruct (f x); simpl; lia.
Qed.

Lemma combine_fst_snd {A B : Type} (l : list (A * B)) :
  combine (map fst l) (map snd l) = l.
Proof.
  induction l as [|[x y] l IH]; simpl; [reflexivity|]. now rewrite IH.
Qed.

(** C2. When the voiced samples of the reference or of the singer inside
    the phrase window are fewer than three, [calculate_phrase_metrics]
    returns the degenerate metrics (all zero, [dtw_cost = 1.0]) and raises
    nothing. *)
Theorem calculate_phrase_metrics_insufficient_data :
  forall (E : Extern) (ref_times ref_pitch singer_times singer_pitch : list Q)
         (phrase_start phrase_end : Q),
    length ref_pitch = length ref_times ->
    length singer_pitch = length singer_times ->
    (length (phrase_voiced ref_times ref_pitch phrase_start phrase_end) < 3)%nat
    \/ (length (phrase_voiced singer_times singer_pitch phrase_start phrase_end) < 3)%nat ->
    calculate_phrase_metrics E ref_times ref_pitch singer_times singer_pitch
                             phrase_start phrase_end
    = Some {| accuracy := 0; median_cents_error := 0; on_beat_pct := 0;
              timing_offset := 0; dtw_cost := 1 |}.
Proof.
  intros E rt rp st sp ps pe Hr Hs Hfew.
  unfold calculate_phrase_metrics.
  rewrite (extract_phrase_pitch_parallel _ _ _ _ Hr),
          (extract_phrase_pitch_parallel _ _ _ _ Hs).
  cbn [bind].
  destruct ((length (phrase_f0 rt rp ps pe) =? 0)%nat
            || (length (phrase_f0 st sp ps pe) =? 0)%nat); [reflexivity|].
  unfold align_phrase_dtw.
  fold (phrase_voiced rt rp ps pe). fold (phrase_voiced st sp ps pe).
  assert (Hb : ((length (phrase_voiced rt rp ps pe) <? 3)%nat
                || (length (phrase_voiced st sp ps pe) <? 3)%nat) = true).
  { apply orb_true_iff. destruct Hfew as [H|H]; [left|right]; now apply Nat.ltb_lt. }
  rewrite Hb. reflexivity.
Qed.

Lemma calculate_phrase_metrics_insufficient_data_witness :
  calculate_phrase_metrics diagonal_extern
    [0; 1 # 50; 2 # 50; 3 # 50] [220; 0; 221; 0]
    [0; 1 # 50; 2 # 50; 3 # 50] [220; 219; 0; 0] 0 1
  = Some {| accuracy := 0; median_cents_error := 0; on_beat_pct := 0;
            timing_offset := 0; dtw_cost := 1 |}.
Proof.
  apply calculate_phrase_metrics_insufficient_data.
  - reflexivity.
  - reflexivity.
  - left. vm_compute. lia.
Defined.

(** Every pair that reaches [log2] passed the guard, and the lookup fails
    on no index inside both arrays. *)
Lemma log2_pairs_in_bounds (ref_f0 singer_f0 : list Q) (idx : list (nat * nat)) :
  Forall (fun p => (fst p < length ref_f0)%nat /\ (snd p < length singer_f0)%nat) idx ->
  exists pairs,
    log2_pairs ref_f0 singer_f0 idx = Some pairs
    /\ Forall (fun p => 0 < fst p /\ 0 < snd p) pairs.
Proof.
  induction 1 as [|[r s] idx [Hr Hs] _ IH]; simpl.
  - exists []. auto.
  - destruct IH as (pairs & -> & Hpos). simpl in Hr, Hs.
    destruct (nth_error ref_f0 r) as [rf|] eqn:Er;
      [|apply nth_error_None in Er; lia].
    destruct (nth_error singer_f0 s) as [sf|] eqn:Es;
      [|apply nth_error_None in Es; lia].
    cbn [bind].
    destruct (Qlt_bool 0 rf && Qlt_bool 0 sf) eqn:Hg.
    + exists ((rf, sf) :: pairs). split; [reflexivity|].
      constructor; [|assumption]. simpl. qbool. auto.
    + exists pairs. auto.
Qed.

Lemma Qdiv_pos (x y : Q) : 0 < x -> 0 < y -> 0 < x / y.
Proof.
  intros Hx Hy. unfold Qdiv.
  apply Qmult_lt_0_compat; [assumption|]. now apply Qinv_lt_0_compat.
Qed.

(** What [align_phrase_dtw] returns: the degenerate triple when a voiced
    subsequence has fewer than three samples, the two columns of the path
    otherwise. *)
Lemma align_phrase_dtw_some (E : Extern) (ref_f0 singer_f0 : list Q)
    (cost : Q) (ref_idx singer_idx : list nat) :
  align_phrase_dtw E ref_f0 singer_f0 = Some (cost, ref_idx, singer_idx) ->
  (ref_idx = [] /\ singer_idx = [] /\ cost = 1)
  \/ combine ref_idx singer_idx
     = path_pairs (warping_path E (filter (Qlt_bool 0) ref_f0)
                                  (filter (Qlt_bool 0) singer_f0) None).
Proof.
  unfold align_phrase_dtw.
  destruct ((length (filter (Qlt_bool 0) ref_f0) <? 3)%nat
            || (length (filter (Qlt_bool 0) singer_f0) <? 3)%nat).
  - intros [= <- <- <-]. left. auto.
  - destruct (warping_path E _ _ None) as [pairs|pairs]; cbn [column bind path_pairs];
      [discriminate|].
    intros [= _ <- <-]. right. apply combine_fst_snd.
Qed.

(** C10. Given that the DTW path stays inside the cost matrix of the two
    voiced subsequences, every index pair of the path indexes the
    phrase-restricted arrays in bounds (a filtered sequence is no longer
    than its source); so whenever [align_phrase_dtw] hands index arrays to
    the two loops, the loops raise no IndexError and the metrics are
    returned; and [log2] is applied only to quotients of two positive
    frequencies. *)
Theorem calculate_phrase_metrics_indices_in_bounds :
  forall (E : Extern) (ref_times ref_pitch singer_times singer_pitch : list Q)
         (phrase_start phrase_end : Q),
    path_in_bounds E ->
    length ref_pitch = length ref_times ->
    length singer_pitch = length singer_times ->
    let ref_f0 := phrase_f0 ref_times ref_pitch phrase_start phrase_end in
    let singer_f0 := phrase_f0 singer_times singer_pitch phrase_start phrase_end in
    (length (filter (Qlt_bool 0) ref_f0) <= length ref_f0)%nat
    /\ (length (filter (Qlt_bool 0) singer_f0) <= length singer_f0)%nat
    /\ Forall (fun p => (fst p < length ref_f0)%nat /\ (snd p < length singer_f0)%nat)
              (path_pairs (warping_path E (filter (Qlt_bool 0) ref_f0)
                                          (filter (Qlt_bool 0) singer_f0) None))
    /\ (forall (cost : Q) (ref_idx singer_idx : list nat),
          align_phrase_dtw E ref_f0 singer_f0 = Some (cost, ref_idx, singer_idx) ->
          Forall (fun p => (fst p < length ref_f0)%nat /\ (snd p < length singer_f0)%nat)
                 (combine ref_idx singer_idx)
          /\ (exists pairs,
                log2_pairs ref_f0 singer_f0 (combine ref_idx singer_idx) = Some pairs
                /\ Forall (fun p => 0 < fst p /\ 0 < snd p /\ 0 < snd p / fst p) pairs)
          /\ (exists metrics,
                calculate_phrase_metrics E ref_times ref_pitch singer_times singer_pitch
                                         phrase_start phrase_end = Some metrics)).
Proof.
  intros E rt rp st sp ps pe Hpath Hr Hs ref_f0 singer_f0.
  assert (Hpairs : Forall (fun p => (fst p < length ref_f0)%nat
                                    /\ (snd p < length singer_f0)%nat)
                     (path_pairs (warping_path E (filter (Qlt_bool 0) ref_f0)
                                                 (filter (Qlt_bool 0) singer_f0) None))).
  { eapply Forall_impl; [|apply Hpath]. intros p [H1 H2].
    pose proof (filter_length_le (Qlt_bool 0) ref_f0).
    pose proof (filter_length_le (Qlt_bool 0) singer_f0). lia. }
  split; [apply filter_length_le|]. split; [apply filter_length_le|].
  split; [exact Hpairs|].
  intros cost ref_idx singer_idx Ha.
  assert (Hin : Forall (fun p => (fst p < length ref_f0)%nat /\ (snd p < length singer_f0)%nat)
                       (combine ref_idx singer_idx)).
  { destruct (align_phrase_dtw_some _ _ _ _ _ _ Ha) as [(-> & -> & _)| ->];
      [constructor|exact Hpairs]. }
  destruct (log2_pairs_in_bounds _ _ _ Hin) as (pairs & Hp & Hpos).
  split; [exact Hin|]. split.
  - exists pairs. split; [exact Hp|].
    eapply Forall_impl; [|exact Hpos]. intros p [H1 H2].
    repeat split; try assumption. now apply Qdiv_pos.
  - unfold calculate_phrase_metrics.
    rewrite (extract_phrase_pitch_parallel _ _ _ _ Hr),
            (extract_phrase_pitch_parallel _ _ _ _ Hs).
    cbn [bind]. fold ref_f0 singer_f0.
    destruct ((length ref_f0 =? 0)%nat || (length singer_f0 =? 0)%nat); [eauto|].
    rewrite Ha. cbn [bind].
    destruct (length ref_idx =? 0)%nat; [eauto|].
    rewrite Hp. cbn [bind].
    destruct (median (map (cents_error E) pairs)); eauto.
Qed.

End Scorer.

Lemma diagonal_path_bounded (n m : nat) :
  Forall (fun p => (fst p < n)%nat /\ (snd p < m)%nat) (diagonal_path n m).
Proof.
  unfold diagonal_path.
  destruct n as [|n]; [constructor|].
  destruct m as [|m]; [constructor|].
  apply Forall_forall. intros [i j] Hin.
  rewrite !in_app_iff, !in_map_iff in Hin.
  destruct Hin as [(k & [= <- <-] & Hk)|[(k & [= <- <-] & Hk)|(k & [= <- <-] & Hk)]];
    apply in_seq in Hk; simpl; lia.
Qed.

Lemma diagonal_path_in_bounds : path_in_bounds diagonal_extern.
Proof. intros r s w. apply diagonal_path_bounded. Qed.

Lemma diagonal_array_in_bounds : path_in_bounds diagonal_array_extern.
Proof. intros r s w. apply diagonal_path_bounded. Qed.

Lemma diagonal_extern_returns_list : returns_list diagonal_extern.
Proof. intros r s w. reflexivity. Qed.

Lemma diagonal_array_extern_returns_array : returns_array diagonal_array_extern.
Proof. intros r s w. reflexivity. Qed.

Lemma calculate_phrase_metrics_indices_in_bounds_witness :
  Forall (fun p => (fst p < 5)%nat /\ (snd p < 5)%nat)
         (path_pairs (warping_path diagonal_extern [220; 221; 222; 223] [230; 221; 224] None)).
Proof.
  exact (proj1 (proj2 (proj2
           (calculate_phrase_metrics_indices_in_bounds diagonal_extern
              [0; 1 # 50; 2 # 50; 3 # 50; 4 # 50] [220; 0; 221; 222; 223]
              [0; 1 # 50; 2 # 50; 3 # 50; 4 # 50] [0; 230; 221; 224; 0] 0 1
              diagonal_path_in_bounds eq_refl eq_refl)))).
Defined.

(** With the path as an array the two loops run over a non-empty path. *)
Lemma array_path_indices_in_bounds_example :
  exists cost ref_idx singer_idx metrics,
    Refine.align_phrase_dtw diagonal_array_extern
      [220; 0; 221; 222; 223] [0; 230; 221; 224; 0] = Some (cost, ref_idx, singer_idx)
    /\ combine ref_idx singer_idx = [(0, 0); (1, 1); (2, 2); (3, 2)]%nat
    /\ Refine.calculate_phrase_metrics diagonal_array_extern
         [0; 1 # 50; 2 # 50; 3 # 50; 4 # 50] [220; 0; 221; 222; 223]
         [0; 1 # 50; 2 # 50; 3 # 50; 4 # 50] [0; 230; 221; 224; 0] 0 1
       = Some metrics.
Proof.
  do 4 eexists. split; [vm_compute; reflexivity|]. split; [reflexivity|].
  vm_compute. reflexivity.
Qed.

(** ** Refinement stage *)

Section RefineResults.
Import Refine.

(** C8 (as the code has it). With an empty phrase list [refine_results]
    scores nothing and reports no error of its own: overall accuracy and
    overall median error are 0.0, the phrase lists are empty, and the result
    is returned whenever the pitch chart can be built. *)
Theorem refine_results_empty_phrases :
  forall (E : Extern) (reference : Reference) (performance : Performance),
    get (phrases_k reference) = [] ->
    refine_results E reference performance =
      (chart <- generate_pitch_chart E
                  (map t (get (f0_ref_on_k reference)))
                  (map f0 (get (f0_ref_on_k reference)))
                  (get (timestamps performance)) (get (pitch performance)) ;;
       Some {| overall_accuracy := 0;
               overall_median_cents_error := 0;
               phrases := [];
               pitch_timeline := chart;
               phrase_accuracy := [] |}).
Proof.
  intros E reference performance Hempty.
  unfold refine_results. rewrite Hempty. reflexivity.
Qed.

Lemma refine_results_empty_phrases_witness :
  refine_results diagonal_extern
    {| phrases_k := Some []; f0_ref_on_k := Some [{| t := 0; f0 := 220 |}] |}
    {| timestamps := Some []; pitch := Some [] |}
  = Some {| overall_accuracy := 0; overall_median_cents_error := 0; phrases := [];
            pitch_timeline := []; phrase_accuracy := [] |}.
Proof.
  rewrite refine_results_empty_phrases by reflexivity.
  reflexivity.
Defined.

(** An empty phrase list is not reported as an error. *)
Lemma refine_results_empty_phrases_not_an_error :
  ~ (forall (E : Extern) (reference : Reference) (performance : Performance),
       get (phrases_k reference) = [] ->
       refine_results E reference performance = None).
Proof.
  intro H.
  specialize (H diagonal_extern
                {| phrases_k := Some []; f0_ref_on_k := Some [] |}
                {| timestamps := Some []; pitch := Some [] |} eq_refl).
  discriminate H.
Qed.

End RefineResults.

(** ** Exact-match scoring *)

Section ExactMatch.
Import Refine Spec.

Lemma log2_pairs_leading_unvoiced (idx : list (nat * nat)) :
  Forall (fun p => (fst p < 3)%nat /\ (snd p < 3)%nat) idx ->
  log2_pairs leading_unvoiced_f0 leading_unvoiced_f0 idx = Some [].
Proof.
  induction 1 as [|[r s] idx [Hr Hs] _ IH]; [reflexivity|].
  simpl in Hr, Hs. cbn [log2_pairs]. rewrite IH.
  destruct r as [|[|[|r]]]; try lia;
    destruct s as [|[|[|s]]]; try lia; reflexivity.
Qed.

(** C4.  An exact match with three or more voiced samples in the phrase
    window is not scored at all: dtaidistance returns the warping path as a
    Python list, [align_phrase_dtw] indexes it as a two-dimensional array
    ([path[:, 0]]) and [calculate_phrase_metrics] raises (TypeError)
    instead of returning accuracy 1. *)
Theorem calculate_phrase_metrics_exact_match_raises :
  forall (E : Extern) (times f0 : list Q) (phrase_start phrase_end : Q),
    returns_list E ->
    length f0 = length times ->
    (3 <= length (phrase_voiced times f0 phrase_start phrase_end))%nat ->
    calculate_phrase_metrics E times f0 times f0 phrase_start phrase_end = None.
Proof.
  intros E times f0 ps pe Hlist Hlen Hthree.
  unfold calculate_phrase_metrics.
  rewrite (extract_phrase_pitch_parallel _ _ _ _ Hlen).
  cbn [bind].
  unfold phrase_voiced in Hthree.
  set (f := phrase_f0 times f0 ps pe) in *.
  pose proof (filter_length_le (Qlt_bool 0) f) as Hle.
  destruct (length f) as [|n] eqn:Hn; [lia|]. cbn [Nat.eqb orb].
  unfold align_phrase_dtw.
  destruct (length (filter (Qlt_bool 0) f) <? 3)%nat eqn:H3;
    [apply Nat.ltb_lt in H3; lia|].
  cbn [orb]. rewrite Hlist. reflexivity.
Qed.

Lemma calculate_phrase_metrics_exact_match_raises_witness :
  calculate_phrase_metrics diagonal_extern
    [0; 1 # 50; 2 # 50; 3 # 50] [220; 221; 219; 220]
    [0; 1 # 50; 2 # 50; 3 # 50] [220; 221; 219; 220] 0 1 = None.
Proof.
  apply calculate_phrase_metrics_exact_match_raises.
  - exact diagonal_extern_returns_list.
  - reflexivity.
  - vm_compute. lia.
Defined.

(** A second defect shows once the path is an array.  Reference and singer
    are the same contour, three unvoiced frames followed by three voiced
    ones: whatever path the DTW returns over the two voiced subsequences,
    its indices are below 3 and are used to index the unfiltered arrays,
    where they meet the unvoiced frames only; the accuracy is 0, not 1. *)
Lemma exact_match_array_path_leading_unvoiced (E : Extern) :
  returns_array E ->
  path_in_bounds E ->
  exists metrics,
    calculate_phrase_metrics E
      leading_unvoiced_times leading_unvoiced_f0
      leading_unvoiced_times leading_unvoiced_f0 0 1 = Some metrics
    /\ accuracy metrics = 0.
Proof.
  intros Harr Hpath.
  unfold calculate_phrase_metrics.
  change (extract_phrase_pitch leading_unvoiced_times leading_unvoiced_f0 0 1)
    with (Some (leading_unvoiced_times, leading_unvoiced_f0)).
  cbn [bind].
  change ((length leading_unvoiced_f0 =? 0)%nat || (length leading_unvoiced_f0 =? 0)%nat)
    with false. cbv iota.
  unfold align_phrase_dtw.
  change (filter (Qlt_bool 0) leading_unvoiced_f0) with [220; 220; 220].
  cbn [length Nat.ltb Nat.leb orb]. cbv beta iota zeta.
  rewrite Harr. cbn [column bind]. rewrite combine_fst_snd.
  destruct (Nat.eqb (length (map fst (path_pairs
              (warping_path E [220; 220; 220] [220; 220; 220] None)))) 0);
    [eexists; split; reflexivity|].
  rewrite log2_pairs_leading_unvoiced.
  - cbn [bind map median]. eexists; split; reflexivity.
  - apply (Hpath [220; 220; 220] [220; 220; 220] None).
Qed.

Lemma exact_match_array_path_leading_unvoiced_example :
  exists metrics,
    calculate_phrase_metrics diagonal_array_extern
      leading_unvoiced_times leading_unvoiced_f0
      leading_unvoiced_times leading_unvoiced_f0 0 1 = Some metrics
    /\ accuracy metrics = 0.
Proof.
  exact (exact_match_array_path_leading_unvoiced diagonal_array_extern
           diagonal_array_extern_returns_array diagonal_array_in_bounds).
Qed.

End ExactMatch.

(** ** NoteBinSegmenter *)

Section NoteBins.
Import Preprocess Spec.

Lemma runs_ok_weaken (V : list bool) (segs : list (nat * nat)) :
  forall lo hi hi', runs_ok V lo segs hi -> (hi <= hi')%nat -> runs_ok V lo segs hi'.
Proof.
  induction segs as [|[s e] segs IH]; simpl; intros lo hi hi' H Hle; [lia|].
  destruct H as (H1 & H2 & H3 & H4 & H5). eauto 6.
Qed.

Lemma runs_ok_snoc (V : list bool) (segs : list (nat * nat)) :
  forall lo hi hi' s e,
    runs_ok V lo segs hi ->
    (hi <= s)%nat -> (s < e)%nat -> (e <= length V)%nat -> (e <= hi')%nat ->
    (forall k, (s <= k < e)%nat -> nth k V false = true) ->
    runs_ok V lo (segs ++ [(s, e)]) hi'.
Proof.
  induction segs as [|[s0 e0] segs IH]; simpl; intros lo hi hi' s e H Hs Hse He Hhi Hv.
  - repeat split; try assumption; lia.
  - destruct H as (H1 & H2 & H3 & H4 & H5).
    repeat split; try assumption. eapply IH; eassumption.
Qed.

Lemma scan_step_inv (V : list bool) (i : nat) (v : bool) (st : scan_state) :
  (i < length V)%nat -> nth i V false = v ->
  scan_inv V i st -> scan_inv V (S i) (scan_step st (i, v)).
Proof.
  intros Hi Hv. destruct st as [[segs in_segment] start_idx].
  unfold scan_inv, scan_step.
  destruct v, in_segment; simpl.
  - intros (H1 & H2 & H3). repeat split; [lia|assumption|].
    intros k Hk. destruct (Nat.eq_dec k i) as [->|]; [assumption|apply H3; lia].
  - intro H. repeat split; [lia|assumption|].
    intros k Hk. replace k with i by lia. assumption.
  - intros (H1 & H2 & H3). eapply runs_ok_snoc; try eassumption; lia.
  - intro H. eapply runs_ok_weaken; [eassumption|lia].
Qed.

Lemma scan_fold_inv (V suf : list bool) :
  forall pre st,
    V = pre ++ suf ->
    scan_inv V (length pre) st ->
    scan_inv V (length V)
      (fold_left scan_step (combine (seq (length pre) (length suf)) suf) st).
Proof.
  induction suf as [|v suf IH]; intros pre st HV Hinv.
  - simpl. rewrite app_nil_r in HV. subst V. assumption.
  - cbn [length seq combine fold_left].
    replace (S (length pre)) with (length (pre ++ [v]))
      by (rewrite length_app; simpl; lia).
    apply IH.
    + now rewrite <- app_assoc.
    + rewrite length_app. simpl. rewrite Nat.add_1_r.
      apply scan_step_inv; [|  |assumption].
      * subst V. rewrite length_app. simpl. lia.
      * subst V. rewrite app_nth2 by lia. now rewrite Nat.sub_diag.
Qed.

(** The scan returns the voiced runs in order. *)
Lemma voiced_segments_runs (V : list bool) :
  runs_ok V 0 (voiced_segments V) (length V).
Proof.
  unfold voiced_segments.
  pose proof (scan_fold_inv V V [] ([], false, 0%nat) eq_refl) as H.
  simpl in H. specialize (H (Nat.le_refl 0)).
  destruct (fold_left scan_step (combine (seq 0 (length V)) V) ([], false, 0%nat))
    as [[segs in_segment] start_idx].
  unfold scan_inv in H. destruct in_segment; [|assumption].
  destruct H as (H1 & H2 & H3).
  eapply runs_ok_snoc; try eassumption; lia.
Qed.

Lemma insert_Forall (P : Q -> Prop) (x : Q) (l : list Q) :
  P x -> Forall P l -> Forall P (insert x l).
Proof.
  intros Hx Hl. induction Hl as [|y l Hy Hl IH]; simpl.
  - repeat constructor; assumption.
  - destruct (Qle_bool x y); repeat constructor; assumption.
Qed.

Lemma insert_length (x : Q) (l : list Q) : length (insert x l) = S (length l).
Proof.
  induction l as [|y l IH]; simpl; [reflexivity|].
  destruct (Qle_bool x y); simpl; [reflexivity|now rewrite IH].
Qed.

Lemma sort_Forall (P : Q -> Prop) (l : list Q) : Forall P l -> Forall P (sort l).
Proof.
  induction 1; simpl; [constructor|]. now apply insert_Forall.
Qed.

Lemma sort_length (l : list Q) : length (sort l) = length l.
Proof.
  induction l as [|x l IH]; simpl; [reflexivity|]. now rewrite insert_length, IH.
Qed.

(** The median of positive values is positive. *)
Lemma median_pos (l : list Q) (m : Q) :
  Forall (fun x => 0 < x) l -> median l = Some m -> 0 < m.
Proof.
  intros Hpos Hm.
  assert (Hnth : forall k, (k < length l)%nat -> 0 < nth k (sort l) 0).
  { intros k Hk. apply sort_Forall in Hpos. rewrite Forall_forall in Hpos.
    apply Hpos, nth_In. now rewrite sort_length. }
  destruct l as [|x l]; [discriminate|].
  unfold median in Hm.
  assert (Hh : (length (x :: l) / 2 < length (x :: l))%nat)
    by (apply Nat.div_lt; simpl; lia).
  destruct (Nat.even (length (x :: l))); injection Hm as <-.
  - assert (H1 := Hnth _ Hh).
    assert (H2 := Hnth (length (x :: l) / 2 - 1)%nat ltac:(lia)).
    apply Qlt_shift_div_l; [lra|]. simpl in H1, H2 |- *. lra.
  - now apply Hnth.
Qed.

Lemma StronglySorted_nth_error {A : Type} (R : A -> A -> Prop) (l : list A) :
  StronglySorted R l ->
  forall i j x y, (i < j)%nat ->
    nth_error l i = Some x -> nth_error l j = Some y -> R x y.
Proof.
  induction 1 as [|z l Hl IH Hz]; intros i j x y Hij Hi Hj.
  - destruct i; discriminate.
  - destruct j as [|j]; [lia|]. simpl in Hj.
    destruct i as [|i]; simpl in Hi.
    + injection Hi as <-. rewrite Forall_forall in Hz.
      eapply Hz, nth_error_In, Hj.
    + eapply IH; [|eassumption|eassumption]. lia.
Qed.

Lemma strictly_increasing_strong (times : list Q) :
  strictly_increasing times -> StronglySorted Qlt times.
Proof.
  apply Sorted_StronglySorted. intros x y z. apply Qlt_trans.
Qed.

Lemma bins_of_segments_valid (times f0 : list Q) (tol : Q) (V : list bool) :
  StronglySorted Qlt times ->
  (length V <= length times)%nat ->
  forall segs lo hi,
    runs_ok V lo segs hi ->
    exists bins,
      bins_of_segments times f0 tol segs = Some bins
      /\ Forall valid_bin bins
      /\ Forall (fun bin => exists s, (lo <= s)%nat
                                     /\ nth_error times s = Some (nb_start bin)) bins
      /\ StronglySorted (fun b1 b2 => nb_end b1 < nb_start b2) bins.
Proof.
  intros Hinc Hlen.
  induction segs as [|[s e] segs IH]; intros lo hi Hruns.
  - exists []. repeat split; constructor.
  - destruct Hruns as (Hlo & Hse & He & _ & Hrest).
    destruct (IH e hi Hrest) as (bins & Hbins & Hvalid & Hstart & Hsorted).
    assert (Hstart' : Forall (fun bin => exists s0, (lo <= s0)%nat
                         /\ nth_error times s0 = Some (nb_start bin)) bins).
    { eapply Forall_impl; [|exact Hstart]. intros bin (s0 & H1 & H2).
      exists s0. split; [lia|assumption]. }
    cbn [bins_of_segments].
    destruct (nth_error times (e - 1)) as [t_end|] eqn:Ee;
      [|apply nth_error_None in Ee; lia].
    destruct (nth_error times s) as [t_start|] eqn:Es;
      [|apply nth_error_None in Es; lia].
    cbn [bind].
    destruct (Qlt_bool (t_end - t_start) MIN_NOTE_DURATION) eqn:Hd; [eauto|].
    destruct (median (filter (Qlt_bool 0) (slice s e f0))) as [m|] eqn:Hm; [|eauto].
    rewrite Hbins. cbn [bind].
    eexists. split; [reflexivity|].
    apply Qlt_bool_false_iff in Hd. unfold MIN_NOTE_DURATION in Hd.
    split; [|split].
    + constructor; [|assumption].
      unfold valid_bin, MIN_NOTE_DURATION; simpl.
      split; [assumption|]. split; [lra|].
      eapply median_pos; [|exact Hm].
      apply Forall_forall. intros x Hx. apply filter_In in Hx.
      now apply Qlt_bool_iff.
    + constructor; [|assumption]. exists s. simpl. auto.
    + constructor; [assumption|].
      eapply Forall_impl; [|exact Hstart]. intros bin (s0 & H1 & H2). simpl.
      eapply (StronglySorted_nth_error _ _ Hinc (e - 1)%nat s0); [lia|eassumption..].
Qed.

(** C3. On a strictly increasing time array with pitch and confidence
    arrays of the same length, [create_note_bins] returns bins that each
    last at least the minimum note duration (so [end > start]) and have
    [f0 > 0], and every bin ends before any later bin starts. *)
Theorem create_note_bins_valid_sorted_disjoint :
  forall (times f0 confidence : list Q) (tolerance_cents : Q),
    strictly_increasing times ->
    length f0 = length times ->
    length confidence = length times ->
    exists bins,
      create_note_bins times f0 confidence tolerance_cents = Some bins
      /\ Forall valid_bin bins
      /\ StronglySorted (fun b1 b2 => nb_end b1 < nb_start b2) bins.
Proof.
  intros times f0 confidence tol Hinc Hf Hc.
  unfold create_note_bins. rewrite Hf, Hc, Nat.eqb_refl. cbn [negb].
  destruct (bins_of_segments_valid times f0 tol (voiced_mask f0 confidence)
              (strictly_increasing_strong _ Hinc)) with
    (segs := voiced_segments (voiced_mask f0 confidence)) (lo := 0%nat)
    (hi := length (voiced_mask f0 confidence))
    as (bins & Hb & Hv & _ & Hs).
  - unfold voiced_mask. rewrite length_map, length_combine. lia.
  - apply voiced_segments_runs.
  - exists bins. auto.
Qed.

Lemma create_note_bins_valid_sorted_disjoint_witness :
  exists bins,
    create_note_bins
      [0; 1 # 10; 2 # 10; 3 # 10; 4 # 10; 5 # 10; 6 # 10; 7 # 10; 8 # 10]
      [220; 221; 223; 0; 330; 331; 0; 440; 441]
      [9 # 10; 9 # 10; 9 # 10; 9 # 10; 9 # 10; 9 # 10; 9 # 10; 1 # 10; 9 # 10]
      40 = Some bins
    /\ Forall valid_bin bins
    /\ StronglySorted (fun b1 b2 => nb_end b1 < nb_start b2) bins.
Proof.
  apply create_note_bins_valid_sorted_disjoint.
  - repeat constructor.
  - reflexivity.
  - reflexivity.
Defined.

End NoteBins.

(** ** SequenceAligner *)

Section Aligner.
Import Preprocess Spec.

Lemma align_linear_branch_eq (E : Extern) (chroma_k chroma_ref : list (list Q))
    (times_k times_ref : list Q) (band_width : Q) :
  (Nat.max (length times_k) (length times_ref) =? 0)%nat = false ->
  Qlt_bool (of_nat (abs_diff (length times_k) (length times_ref))
            / of_nat (Nat.max (length times_k) (length times_ref))) (1 # 10) = true ->
  align_with_dtw E chroma_k chroma_ref times_k times_ref band_width =
    (tref_aligned <- interp (linspace 0 (of_nat (length times_ref) - 1) (length times_k))
                            (arange (length times_ref)) times_ref ;;
     Some (times_k, tref_aligned, 95 # 100)).
Proof.
  intros H1 H2. unfold align_with_dtw. now rewrite H1, H2.
Qed.

Lemma align_dtw_branch_eq (E : Extern) (chroma_k chroma_ref : list (list Q))
    (times_k times_ref : list Q) (band_width : Q) :
  (Nat.max (length times_k) (length times_ref) =? 0)%nat = false ->
  Qlt_bool (of_nat (abs_diff (length times_k) (length times_ref))
            / of_nat (Nat.max (length times_k) (length times_ref))) (1 # 10) = false ->
  align_with_dtw E chroma_k chroma_ref times_k times_ref band_width =
    (let path :=
       warping_path E (mean_axis0 (map (stride 10) chroma_k))
                      (mean_axis0 (map (stride 10) chroma_ref))
                      (Some (int (band_width
                                  * of_nat (Nat.max (length (stride 10 times_k))
                                                    (length (stride 10 times_ref)))))) in
     k_indices <- column fst path ;;
     tk_aligned0 <- take (stride 10 times_k) k_indices ;;
     ref_indices <- column snd path ;;
     tref_aligned0 <- take (stride 10 times_ref) ref_indices ;;
     tk_aligned <- interp times_k tk_aligned0 tref_aligned0 ;;
     Some (tk_aligned, times_k, 85 # 100)).
Proof.
  intros H1 H2. unfold align_with_dtw. now rewrite H1, H2.
Qed.

Lemma interp_length (x xp fp r : list Q) : interp x xp fp = Some r -> length r = length x.
Proof.
  unfold interp. destruct xp; [discriminate|].
  destruct (Nat.eqb _ _); [|discriminate].
  intros [= <-]. apply length_map.
Qed.

Lemma interp_some (x xp fp : list Q) :
  xp <> [] -> length xp = length fp ->
  interp x xp fp = Some (map (interp1 xp fp) x).
Proof.
  intros Hne Hlen. unfold interp. destruct xp; [congruence|].
  now rewrite Hlen, Nat.eqb_refl.
Qed.

Lemma linspace_length (start stop : Q) (num : nat) : length (linspace start stop num) = num.
Proof.
  destruct num as [|[|m]]; try reflexivity.
  unfold linspace. rewrite length_app, length_map, length_seq. simpl. lia.
Qed.

(** Both branches return arrays as long as [times_k]; the first output is
    [times_k] itself in the linear branch, the second one in the DTW
    branch. *)
Lemma align_with_dtw_outputs (E : Extern) (chroma_k chroma_ref : list (list Q))
    (times_k times_ref : list Q) (band_width : Q) (out1 out2 : list Q) (q : Q) :
  align_with_dtw E chroma_k chroma_ref times_k times_ref band_width = Some (out1, out2, q) ->
  length out1 = length times_k /\ length out2 = length times_k
  /\ ((q = 95 # 100 /\ out1 = times_k) \/ (q = 85 # 100 /\ out2 = times_k)).
Proof.
  destruct (Nat.max (length times_k) (length times_ref) =? 0)%nat eqn:H1.
  { unfold align_with_dtw. rewrite H1. discriminate. }
  destruct (Qlt_bool (of_nat (abs_diff (length times_k) (length times_ref))
                      / of_nat (Nat.max (length times_k) (length times_ref))) (1 # 10)) eqn:H2.
  - rewrite (align_linear_branch_eq _ _ _ _ _ _ H1 H2).
    destruct (interp _ _ times_ref) as [r|] eqn:Hi; [|discriminate].
    intros [= <- <- <-]. apply interp_length in Hi. rewrite linspace_length in Hi. auto.
  - rewrite (align_dtw_branch_eq _ _ _ _ _ _ H1 H2). cbv zeta.
    destruct (warping_path E _ _ _) as [pairs|pairs]; cbn [column bind];
      [discriminate|].
    destruct (take (stride 10 times_k) _) as [xs|]; [|discriminate].
    destruct (take (stride 10 times_ref) _) as [ys|]; [|discriminate].
    cbn [bind].
    destruct (interp times_k xs ys) as [r|] eqn:Hi; [|discriminate].
    intros [= <- <- <-]. apply interp_length in Hi. auto.
Qed.

(** The linear branch always returns, with [times_k] itself first. *)
Lemma align_with_dtw_linear_total (E : Extern) (chroma_k chroma_ref : list (list Q))
    (times_k times_ref : list Q) (band_width : Q) :
  (Nat.max (length times_k) (length times_ref) =? 0)%nat = false ->
  Qlt_bool (of_nat (abs_diff (length times_k) (length times_ref))
            / of_nat (Nat.max (length times_k) (length times_ref))) (1 # 10) = true ->
  exists tref_aligned,
    align_with_dtw E chroma_k chroma_ref times_k times_ref band_width
      = Some (times_k, tref_aligned, 95 # 100)
    /\ length tref_aligned = length times_k.
Proof.
  intros H1 H2. rewrite (align_linear_branch_eq _ _ _ _ _ _ H1 H2).
  assert (Href : times_ref <> []).
  { intro H0. rewrite H0 in H1, H2.
    change (length (@nil Q)) with 0%nat in H1, H2.
    rewrite Nat.max_0_r in H1, H2. unfold abs_diff in H2.
    rewrite Nat.sub_0_r in H2. cbn [Nat.sub] in H2. rewrite Nat.add_0_r in H2.
    apply Nat.eqb_neq in H1. apply Qlt_bool_iff in H2.
    assert (Hpos : 0 < of_nat (length times_k)) by (apply (of_nat_lt 0); lia).
    assert (Hq : of_nat (length times_k) / of_nat (length times_k) == 1) by (field; lra).
    rewrite Hq in H2. discriminate H2. }
  rewrite interp_some; [|destruct times_ref; [congruence|discriminate]|].
  - cbn [bind]. eexists. split; [reflexivity|].
    now rewrite length_map, linspace_length.
  - unfold arange. now rewrite length_map, length_seq.
Qed.

Lemma take_map (a : list Q) (idx : list nat) :
  Forall (fun i => (i < length a)%nat) idx ->
  take a idx = Some (map (fun i => nth i a 0) idx).
Proof.
  induction 1 as [|i idx Hi _ IH]; [reflexivity|].
  cbn [take]. rewrite IH.
  destruct (nth_error a i) as [x|] eqn:Hx; [|apply nth_error_None in Hx; lia].
  cbn [bind map]. now rewrite (nth_error_nth _ _ _ Hx).
Qed.

Lemma count_le_all (xp : list Q) (x : Q) :
  Forall (fun p => Qle_bool p x = true) xp -> count_le xp x = length xp.
Proof.
  unfold count_le. induction 1 as [|p xp Hp _ IH]; simpl; [reflexivity|].
  rewrite Hp. simpl. now rewrite IH.
Qed.

(** On the last sample point [np.interp] returns the last sample. *)
Lemma interp1_at_last (xs ys : list Q) (xl yl : Q) :
  length xs = length ys ->
  Forall (fun p => Qle_bool p xl = true) xs ->
  interp1 (xs ++ [xl]) (ys ++ [yl]) xl = yl.
Proof.
  intros Hlen Hall.
  assert (Hrefl : Qle_bool xl xl = true) by (apply Qle_bool_iff, Qle_refl).
  assert (Hall' : Forall (fun p => Qle_bool p xl = true) (xs ++ [xl]))
    by (apply Forall_app; split; [assumption|repeat constructor; assumption]).
  unfold interp1. rewrite !last_last.
  unfold Qlt_bool at 1. rewrite Hrefl. cbn [negb].
  assert (Hhd : Qlt_bool xl (hd 0 (xs ++ [xl])) = false).
  { unfold Qlt_bool. destruct xs as [|x xs]; simpl; [now rewrite Hrefl|].
    inversion Hall as [|? ? Hx _]; subst. now rewrite Hx. }
  rewrite Hhd, (count_le_all _ _ Hall'), length_app. cbn [length].
  replace (length xs + 1 - 1)%nat with (length xs) by lia.
  replace (length xs + 1)%nat with (S (length xs)) by lia.
  rewrite Nat.eqb_refl, Hlen, app_nth2 by lia. now rewrite Nat.sub_diag.
Qed.

(** Beyond the last sample point [np.interp] returns the last sample. *)
Lemma interp1_beyond_last (xp fp : list Q) (x : Q) :
  Qlt_bool (last xp 0) x = true -> interp1 xp fp x = last fp 0.
Proof.
  intro H. unfold interp1. now rewrite H.
Qed.

Lemma length_ratio_large (nk nr : nat) :
  (Nat.max nk nr <= 10 * abs_diff nk nr)%nat ->
  (Nat.max nk nr =? 0)%nat = false ->
  Qlt_bool (of_nat (abs_diff nk nr) / of_nat (Nat.max nk nr)) (1 # 10) = false.
Proof.
  intros H H0. apply Nat.eqb_neq in H0.
  apply Qlt_bool_false_iff.
  assert (Hpos : 0 < of_nat (Nat.max nk nr)) by (apply (of_nat_lt 0); lia).
  apply Qle_shift_div_l; [assumption|].
  apply of_nat_le in H. unfold of_nat in *.
  rewrite Nat2Z.inj_mul, inject_Z_mult in H. simpl (Z.of_nat 10) in H.
  change (inject_Z 10) with 10 in H. lra.
Qed.

(** C1, the DTW branch.  dtaidistance returns the warping path as a Python
    list and the branch indexes it as a two-dimensional array
    ([path[:, 0]]): whenever the two lengths differ by ten percent or more
    of the longer one, [align_with_dtw] raises (TypeError; ZeroDivisionError
    when both arrays are empty) and returns no arrays at all, where the
    contract promises [times_k] and the matched reference times. *)
Theorem align_with_dtw_dtw_branch_raises :
  forall (E : Extern) (chroma_k chroma_ref : list (list Q))
         (times_k times_ref : list Q) (band_width : Q),
    returns_list E ->
    (Nat.max (length times_k) (length times_ref)
       <= 10 * abs_diff (length times_k) (length times_ref))%nat ->
    align_with_dtw E chroma_k chroma_ref times_k times_ref band_width = None.
Proof.
  intros E chroma_k chroma_ref times_k times_ref band_width Hlist Hratio.
  destruct (Nat.max (length times_k) (length times_ref) =? 0)%nat eqn:H0.
  { unfold align_with_dtw. now rewrite H0. }
  rewrite (align_dtw_branch_eq _ _ _ _ _ _ H0 (length_ratio_large _ _ Hratio H0)).
  cbv zeta. rewrite Hlist. reflexivity.
Qed.

(** A second defect shows once the path is an array, at 100 karaoke frames
    against 200 reference frames.  For every DTW routine whose path stays
    inside the cost matrix and ends in its last cell, the second output is
    [times_k] and the first is the interpolated reference time, 190 at the
    last karaoke frame (time 99): the two outputs are swapped with respect
    to the linear branch and to the contract. *)
Lemma align_with_dtw_array_path_swaps_outputs (E : Extern) :
  returns_array E ->
  path_in_bounds E ->
  path_ends_in_corner E ->
  exists out1,
    align_with_dtw E short_chroma_k long_chroma_ref short_times_k long_times_ref
                   DTW_BAND_WIDTH
      = Some (out1, short_times_k, 85 # 100)
    /\ length out1 = length short_times_k
    /\ nth 99 out1 0 = 190
    /\ out1 <> short_times_k.
Proof.
  intros Harr Hpath Hcorner.
  rewrite align_dtw_branch_eq by (vm_compute; reflexivity).
  cbv zeta. rewrite Harr. cbn [column bind].
  set (km := mean_axis0 (map (stride 10) short_chroma_k)).
  set (rm := mean_axis0 (map (stride 10) long_chroma_ref)).
  set (w := Some _).
  set (tkd := stride 10 short_times_k).
  set (trd := stride 10 long_times_ref).
  assert (Hkm : length km = 10%nat) by (vm_compute; reflexivity).
  assert (Hrm : length rm = 20%nat) by (vm_compute; reflexivity).
  assert (Htkd : length tkd = 10%nat) by (vm_compute; reflexivity).
  assert (Htrd : length trd = 20%nat) by (vm_compute; reflexivity).
  specialize (Hpath km rm w). rewrite Hkm, Hrm in Hpath.
  destruct (Hcorner km rm w) as (p & Hp).
  { intro H0. now rewrite H0 in Hkm. }
  { intro H0. now rewrite H0 in Hrm. }
  rewrite Hkm, Hrm in Hp. cbn [Nat.sub] in Hp.
  rewrite !take_map.
  2: { rewrite Forall_map. eapply Forall_impl; [|exact Hpath].
       intros q [H1 H2]. cbv beta. lia. }
  2: { rewrite Forall_map. eapply Forall_impl; [|exact Hpath].
       intros q [H1 H2]. cbv beta. lia. }
  cbn [bind]. rewrite Hp, !map_app. cbn [map fst snd].
  change (nth 9%nat tkd 0) with 90.
  change (nth 19%nat trd 0) with 190.
  set (xs := map (fun i => nth i tkd 0) (map fst p)).
  set (ys := map (fun i => nth i trd 0) (map snd p)).
  assert (Hlen : length xs = length ys) by (unfold xs, ys; now rewrite !length_map).
  clearbody xs ys km rm tkd trd.
  rewrite interp_some.
  2: { intro H0. apply app_eq_nil in H0. destruct H0; discriminate. }
  2: { rewrite !length_app, Hlen. reflexivity. }
  cbn [bind]. eexists. split; [reflexivity|].
  split; [now rewrite length_map|].
  assert (H99 : nth 99 (map (interp1 (xs ++ [90]) (ys ++ [190])) short_times_k) 0 = 190).
  { unfold short_times_k, arange. rewrite map_map, nth_map_seq by lia.
    rewrite interp1_beyond_last; [now rewrite last_last|].
    rewrite last_last. reflexivity. }
  split; [exact H99|].
  intro Heq. rewrite Heq in H99. vm_compute in H99. discriminate H99.
Qed.

Lemma diagonal_path_corner (n' m' : nat) :
  n' <> 0%nat -> m' <> 0%nat ->
  exists p, diagonal_path n' m' = p ++ [((n' - 1)%nat, (m' - 1)%nat)].
Proof.
  intros Hn Hm. unfold diagonal_path.
  destruct n' as [|n]; [congruence|].
  destruct m' as [|m]; [congruence|].
  replace (S n - 1)%nat with n by lia.
  replace (S m - 1)%nat with m by lia.
  destruct (Nat.lt_trichotomy n m) as [Hlt|[->|Hgt]].
  - assert (H1 : seq (S n) (S m - S n) = seq (S n) (m - n - 1) ++ [m]).
    { replace (S m - S n)%nat with (S (m - n - 1)) by lia.
      rewrite seq_S. do 2 f_equal. lia. }
    assert (H2 : seq (S m) (S n - S m) = []).
    { replace (S n - S m)%nat with 0%nat by lia. reflexivity. }
    rewrite H1, H2, map_app. cbn [map app]. rewrite app_assoc.
    eexists. reflexivity.
  - assert (H1 : seq (S m) (S m - S m) = []).
    { replace (S m - S m)%nat with 0%nat by lia. reflexivity. }
    rewrite H1, Nat.min_id, seq_S, map_app. cbn [map app Nat.add].
    rewrite app_nil_r. eexists. reflexivity.
  - assert (H1 : seq (S m) (S n - S m) = seq (S m) (n - m - 1) ++ [n]).
    { replace (S n - S m)%nat with (S (n - m - 1)) by lia.
      rewrite seq_S. do 2 f_equal. lia. }
    assert (H2 : seq (S n) (S m - S n) = []).
    { replace (S m - S n)%nat with 0%nat by lia. reflexivity. }
    rewrite H1, H2, map_app. cbn [map app]. rewrite app_nil_r, app_assoc.
    eexists. reflexivity.
Qed.

Lemma diagonal_path_ends_in_corner : path_ends_in_corner diagonal_extern.
Proof.
  intros r s w Hr Hs. apply diagonal_path_corner.
  - destruct r; [congruence|discriminate].
  - destruct s; [congruence|discriminate].
Qed.

Lemma diagonal_array_ends_in_corner : path_ends_in_corner diagonal_array_extern.
Proof.
  intros r s w Hr Hs. apply diagonal_path_corner.
  - destruct r; [congruence|discriminate].
  - destruct s; [congruence|discriminate].
Qed.

Lemma align_with_dtw_dtw_branch_raises_witness :
  align_with_dtw diagonal_extern short_chroma_k long_chroma_ref
                 short_times_k long_times_ref DTW_BAND_WIDTH = None.
Proof.
  apply align_with_dtw_dtw_branch_raises.
  - exact diagonal_extern_returns_list.
  - apply Nat.leb_le. vm_compute. reflexivity.
Defined.

Lemma align_with_dtw_array_path_swaps_outputs_example :
  exists out1,
    align_with_dtw diagonal_array_extern short_chroma_k long_chroma_ref
                   short_times_k long_times_ref DTW_BAND_WIDTH
      = Some (out1, short_times_k, 85 # 100)
    /\ length out1 = length short_times_k
    /\ nth 99 out1 0 = 190
    /\ out1 <> short_times_k.
Proof.
  exact (align_with_dtw_array_path_swaps_outputs diagonal_array_extern
           diagonal_array_extern_returns_array
           diagonal_array_in_bounds diagonal_array_ends_in_corner).
Qed.

End Aligner.

(** ** Identity alignment *)

Section Identity.
Import Preprocess Spec.

Lemma arange_length (n : nat) : length (arange n) = n.
Proof. unfold arange. now rewrite length_map, length_seq. Qed.

Lemma arange_nth (n i : nat) : (i < n)%nat -> nth i (arange n) 0 = of_nat i.
Proof.
  intro H. unfold arange. now rewrite nth_map_seq.
Qed.

Lemma arange_S (n : nat) : arange (S n) = arange n ++ [of_nat n].
Proof. unfold arange. now rewrite seq_S, map_app. Qed.

Lemma count_le_app (l1 l2 : list Q) (x : Q) :
  count_le (l1 ++ l2) x = (count_le l1 x + count_le l2 x)%nat.
Proof. unfold count_le. now rewrite filter_app, length_app. Qed.

Lemma count_le_arange (n i : nat) (x : Q) :
  x == of_nat i -> count_le (arange n) x = Nat.min n (S i).
Proof.
  intro Hx. induction n as [|n IH]; [reflexivity|].
  rewrite arange_S, count_le_app, IH. unfold count_le. simpl.
  destruct (Qle_bool (of_nat n) x) eqn:Hb; qbool; simpl.
  - rewrite Hx in Hb. unfold of_nat in Hb. rewrite <- Zle_Qle in Hb. lia.
  - rewrite Hx in Hb. unfold of_nat in Hb. rewrite <- Zlt_Qlt in Hb. lia.
Qed.

(** On the sample points [0, 1, ..., n-1] the interpolation at the point
    [i] returns the [i]-th sample. *)
Lemma interp1_arange (fp : list Q) (i : nat) (x : Q) :
  (i < length fp)%nat -> x == of_nat i ->
  interp1 (arange (length fp)) fp x = nth i fp 0.
Proof.
  intros Hi Hx. unfold interp1.
  set (n := length fp) in *.
  assert (Hlast : last (arange n) 0 = of_nat (n - 1)).
  { destruct n as [|m]; [lia|]. rewrite arange_S, last_last. f_equal. lia. }
  assert (Hhd : hd 0 (arange n) = of_nat 0) by (destruct n; [lia|reflexivity]).
  rewrite Hlast, Hhd.
  assert (H1 : Qlt_bool (of_nat (n - 1)) x = false).
  { apply Qlt_bool_false_iff. rewrite Hx. apply of_nat_le. lia. }
  assert (H2 : Qlt_bool x (of_nat 0) = false).
  { apply Qlt_bool_false_iff. rewrite Hx. apply of_nat_le. lia. }
  rewrite H1, H2, (count_le_arange n i x Hx), arange_length.
  replace (Nat.min n (S i) - 1)%nat with i by lia.
  destruct (S i =? n)%nat; [reflexivity|].
  rewrite arange_nth by assumption.
  assert (H3 : Qeq_bool (of_nat i) x = true) by (apply Qeq_bool_iff; now symmetry).
  now rewrite H3.
Qed.

Lemma linspace_nth (n i : nat) :
  (i < n)%nat -> nth i (linspace 0 (of_nat n - 1) n) 0 == of_nat i.
Proof.
  intro Hi. destruct n as [|[|m]]; [lia| |].
  - replace i with 0%nat by lia. reflexivity.
  - unfold linspace.
    destruct (Nat.eq_dec i (S m)) as [->|Hne].
    + rewrite app_nth2 by (rewrite length_map, length_seq; lia).
      rewrite length_map, length_seq, Nat.sub_diag. simpl nth.
      rewrite (of_nat_S (S m)). ring.
    + rewrite app_nth1 by (rewrite length_map, length_seq; lia).
      rewrite nth_map_seq by lia. simpl Nat.add.
      rewrite (of_nat_S (S m)).
      assert (Hpos : 0 < of_nat (S m)) by (apply (of_nat_lt 0); lia).
      field. intro H0. rewrite H0 in Hpos. now apply Qlt_irrefl in Hpos.
Qed.

Lemma interp_identity (times : list Q) :
  times <> [] ->
  interp (linspace 0 (of_nat (length times) - 1) (length times))
         (arange (length times)) times = Some times.
Proof.
  intro Hne.
  rewrite interp_some.
  - f_equal. apply (nth_ext _ _ 0 0).
    + now rewrite length_map, linspace_length.
    + intros i Hi. rewrite length_map, linspace_length in Hi.
      rewrite (nth_indep _ 0 (interp1 (arange (length times)) times 0))
        by (now rewrite length_map, linspace_length).
      rewrite (map_nth (interp1 (arange (length times)) times)).
      apply interp1_arange; [assumption|].
      now apply linspace_nth.
  - destruct times; [congruence|discriminate].
  - apply arange_length.
Qed.

(** A sequence against itself takes the linear branch and is mapped to
    itself. *)
Lemma align_with_dtw_identity (E : Extern) (chroma : list (list Q)) (times : list Q)
    (band_width : Q) :
  times <> [] ->
  align_with_dtw E chroma chroma times times band_width = Some (times, times, 95 # 100).
Proof.
  intro Hne.
  rewrite align_linear_branch_eq.
  - now rewrite interp_identity.
  - destruct times; [congruence|reflexivity].
  - unfold abs_diff. rewrite Nat.sub_diag. reflexivity.
Qed.

Lemma Qsquare_nonneg (z : Q) : 0 <= z * z.
Proof.
  destruct (Qlt_le_dec z 0) as [Hz|Hz].
  - setoid_replace (z * z) with ((- z) * (- z)) by ring.
    apply Qmult_le_0_compat; lra.
  - now apply Qmult_le_0_compat.
Qed.

Lemma Qsquare_pos (z : Q) : z < 0 -> 0 < z * z.
Proof.
  intro Hz. setoid_replace (z * z) with ((- z) * (- z)) by ring.
  apply Qmult_lt_0_compat; lra.
Qed.

Lemma sum_cons (x : Q) (l : list Q) : sum (x :: l) = x + sum l.
Proof. reflexivity. Qed.

Lemma sq_dists_expand (x0 : Q) (l : list Q) :
  sq_dists x0 l ==
    of_nat (length l) * (x0 * x0) - 2 * x0 * sum l + sum (map (fun t => t * t) l).
Proof.
  unfold sq_dists. induction l as [|y l IH].
  - simpl. unfold of_nat. simpl. ring.
  - cbn [map length]. rewrite !sum_cons, IH, of_nat_S. ring.
Qed.

Lemma sq_dists_nonneg (x0 : Q) (l : list Q) : 0 <= sq_dists x0 l.
Proof.
  unfold sq_dists. induction l as [|y l IH]; [apply Qle_refl|].
  cbn [map]. rewrite sum_cons.
  pose proof (Qsquare_nonneg (x0 - y)). lra.
Qed.

Lemma fit_det_cons (x0 : Q) (l : list Q) :
  fit_det (x0 :: l) == fit_det l + sq_dists x0 l.
Proof.
  rewrite sq_dists_expand. unfold fit_det.
  cbn [map length]. rewrite !sum_cons, of_nat_S. ring.
Qed.

Lemma fit_det_nonneg (l : list Q) : 0 <= fit_det l.
Proof.
  induction l as [|x l IH].
  - unfold fit_det. simpl. unfold of_nat. simpl. lra.
  - rewrite fit_det_cons. pose proof (sq_dists_nonneg x l). lra.
Qed.

(** Two distinct abscissae make the normal equations regular. *)
Lemma fit_det_pos (l : list Q) :
  StronglySorted Qlt l -> (2 <= length l)%nat -> 0 < fit_det l.
Proof.
  intros Hs Hlen. destruct l as [|x [|y l]]; simpl in Hlen; try lia.
  rewrite fit_det_cons.
  pose proof (fit_det_nonneg (y :: l)) as Hd.
  inversion Hs as [|? ? _ Hx]; subst. inversion Hx as [|? ? Hxy _]; subst.
  unfold sq_dists. cbn [map]. rewrite sum_cons. fold (sq_dists x l).
  pose proof (sq_dists_nonneg x l) as Hq.
  assert (0 < (x - y) * (x - y)) by (apply Qsquare_pos; lra). lra.
Qed.

Lemma sum_combine_self (x : list Q) :
  sum (map (fun p => fst p * snd p) (combine x x)) = sum (map (fun t => t * t) x).
Proof.
  induction x as [|t x IH]; [reflexivity|].
  cbn [combine map fst snd]. now rewrite !sum_cons, IH.
Qed.

Lemma sum_map_zero {A : Type} (g : A -> Q) (l : list A) :
  (forall t, g t == 0) -> sum (map g l) == 0.
Proof.
  intro Hg. induction l as [|t l IH]; [reflexivity|].
  cbn [map]. rewrite sum_cons, IH, Hg. reflexivity.
Qed.

Lemma combine_map_r {A B : Type} (f : A -> B) (l : list A) :
  combine l (map f l) = map (fun t => (t, f t)) l.
Proof.
  induction l as [|t l IH]; [reflexivity|]. simpl. now rewrite IH.
Qed.

(** The line fitted to the points [(t, t)] is the identity, with a perfect
    score. *)
Lemma fit_segment_identity (tk : list Q) :
  StronglySorted Qlt tk -> (2 <= length tk)%nat ->
  exists seg,
    fit_segment tk tk = Some seg
    /\ identity_segment seg
    /\ tk_start seg = hd 0 tk /\ tk_end seg = last tk 0.
Proof.
  intros Hs Hlen.
  pose proof (fit_det_pos tk Hs Hlen) as Hd. unfold fit_det in Hd.
  assert (Hn : 0 < of_nat (length tk)) by (apply (of_nat_lt 0); lia).
  unfold fit_segment, polyfit1.
  rewrite Nat.eqb_refl, sum_combine_self. cbn [negb].
  set (d := of_nat (length tk) * sum (map (fun t => t * t) tk) - sum tk * sum tk) in *.
  destruct (Qeq_bool d 0) eqn:Hz; [qbool; lra|].
  cbn [bind]. eexists. split; [reflexivity|].
  assert (Ha : d / d == 1) by (field; lra).
  assert (Hb : (sum tk - d / d * sum tk) / of_nat (length tk) == 0)
    by (rewrite Ha; field; lra).
  split; [|split; reflexivity].
  unfold identity_segment. cbn [a b quality].
  split; [exact Ha|]. split; [exact Hb|].
  rewrite combine_map_r, map_map. cbn [fst snd].
  rewrite sum_map_zero.
  - unfold Qdiv. ring.
  - intro t. rewrite Hb, Ha. ring.
Qed.

Lemma StronglySorted_skipn {A : Type} (R : A -> A -> Prop) (l : list A) (i : nat) :
  StronglySorted R l -> StronglySorted R (skipn i l).
Proof.
  revert l. induction i as [|i IH]; intros l Hs; [assumption|].
  destruct l as [|x l]; [constructor|]. simpl. apply IH.
  now inversion Hs.
Qed.

Lemma In_firstn {A : Type} (l : list A) (i : nat) (y : A) :
  In y (firstn i l) -> In y l.
Proof.
  revert l. induction i as [|i IH]; intros [|x l] H; simpl in H; try contradiction.
  destruct H as [->|H]; [now left|right; now apply IH].
Qed.

Lemma StronglySorted_firstn {A : Type} (R : A -> A -> Prop) (l : list A) (i : nat) :
  StronglySorted R l -> StronglySorted R (firstn i l).
Proof.
  revert l. induction i as [|i IH]; intros l Hs; [constructor|].
  destruct l as [|x l]; [constructor|]. simpl.
  inversion Hs as [|? ? Hl Hx]; subst. constructor; [now apply IH|].
  rewrite Forall_forall in *. intros y Hy. apply Hx.
  eapply In_firstn. exact Hy.
Qed.

Lemma slice_length (i j : nat) (l : list Q) :
  (i <= j <= length l)%nat -> length (slice i j l) = (j - i)%nat.
Proof.
  intro H. unfold slice. rewrite length_firstn, length_skipn. lia.
Qed.

Lemma fit_windows_identity (tk : list Q) (window : nat) (starts : list nat) :
  StronglySorted Qlt tk -> (2 <= window)%nat ->
  Forall (fun i => (i + window <= length tk)%nat) starts ->
  exists segs,
    fit_windows tk tk (length tk) window starts = Some segs
    /\ Forall identity_segment segs
    /\ length segs = length starts.
Proof.
  intros Hs Hw. induction 1 as [|i starts Hi _ IH].
  - exists []. repeat split; constructor.
  - destruct IH as (segs & Hsegs & Hid & Hlen).
    cbn [fit_windows]. rewrite Nat.min_l by assumption.
    destruct (fit_segment_identity (slice i (i + window) tk)) as (seg & Hseg & Hseg_id & _).
    + unfold slice. now apply StronglySorted_firstn, StronglySorted_skipn.
    + rewrite slice_length by lia. lia.
    + rewrite Hseg, Hsegs. cbn [bind]. eexists. split; [reflexivity|].
      split; [now constructor|]. simpl. now rewrite Hlen.
Qed.

Lemma range_step_bound (stop step : nat) :
  (0 < step)%nat -> Forall (fun i => (i < stop)%nat) (range_step stop step).
Proof.
  intro Hstep. unfold range_step. rewrite Forall_map, Forall_forall.
  intros k Hk. apply in_seq in Hk. simpl in Hk. destruct Hk as [_ Hk].
  pose proof (Nat.Div0.mul_div_le (stop + step - 1) step) as Hdiv.
  nia.
Qed.

Lemma range_step_nonempty (stop step : nat) :
  (0 < step)%nat -> (0 < stop)%nat -> range_step stop step <> [].
Proof.
  intros Hstep Hstop. unfold range_step.
  assert (0 < (stop + step - 1) / step)%nat by (apply Nat.div_str_pos; lia).
  destruct ((stop + step - 1) / step)%nat; [lia|discriminate].
Qed.

Lemma merge_step_identity (merged : list AlignmentSegment) (seg : AlignmentSegment) :
  Forall identity_segment merged -> identity_segment seg ->
  Forall identity_segment (merge_step merged seg).
Proof.
  intros Hm Hseg. destruct merged as [|x l] using rev_ind.
  - constructor; [assumption|constructor].
  - clear IHl. rewrite merge_step_snoc.
    apply Forall_app in Hm. destruct Hm as [Hl Hx].
    inversion Hx as [|? ? Hx' _]; subst.
    destruct (similar seg x).
    + apply Forall_app. split; [assumption|]. constructor; [|constructor].
      destruct Hseg as (H1 & H2 & H3), Hx' as (H4 & H5 & H6).
      unfold identity_segment. cbn [a b quality].
      rewrite H1, H2, H4, H5, py_min_Qmin, H3, H6.
      repeat split; reflexivity.
    + apply Forall_app. split; [assumption|].
      constructor; [assumption|]. constructor; [assumption|constructor].
Qed.

Lemma merge_segments_identity (segments : list AlignmentSegment) :
  Forall identity_segment segments ->
  Forall identity_segment (merge_segments segments)
  /\ (segments <> [] -> merge_segments segments <> []).
Proof.
  intro H. induction segments as [|seg segs IH] using rev_ind.
  - split; [constructor|congruence].
  - apply Forall_app in H. destruct H as [Hsegs Hseg].
    inversion Hseg; subst. rewrite merge_segments_snoc. split.
    + apply merge_step_identity; [now apply IH|assumption].
    + intros _. apply merge_step_nonempty.
Qed.

(** C9 (as the code has it).  A sequence of at least two frames with a
    strictly increasing time array, aligned against a copy of itself and
    fitted with a window of at least two pairs, yields a non-empty list of
    segments that all have slope 1, intercept 0 and quality 1 (exactly, in
    exact arithmetic). *)
Theorem identity_alignment_yields_identity_segments :
  forall (E : Extern) (chroma : list (list Q)) (times : list Q)
         (band_width : Q) (window : nat),
    strictly_increasing times ->
    (2 <= length times)%nat ->
    (2 <= window)%nat ->
    exists segments,
      align_and_fit E chroma chroma times times band_width window = Some segments
      /\ segments <> []
      /\ Forall identity_segment segments.
Proof.
  intros E chroma times band_width window Hinc Hlen Hw.
  apply strictly_increasing_strong in Hinc.
  unfold align_and_fit.
  assert (Hne : times <> []) by (intro H0; rewrite H0 in Hlen; simpl in Hlen; lia).
  rewrite (align_with_dtw_identity E chroma times band_width Hne).
  cbn [bind]. unfold fit_piecewise_linear.
  destruct (length times <? window)%nat eqn:Hn.
  - destruct (fit_segment_identity times Hinc Hlen) as (seg & -> & Hid & _).
    cbn [bind]. eexists. split; [reflexivity|].
    split; [discriminate|]. constructor; [assumption|constructor].
  - apply Nat.ltb_ge in Hn.
    assert (Hstep : (0 < window / 2)%nat) by (apply Nat.div_str_pos; lia).
    destruct (window / 2 =? 0)%nat eqn:Hz; [apply Nat.eqb_eq in Hz; lia|].
    destruct (fit_windows_identity times window
                (range_step (length times - window + 1) (window / 2)) Hinc Hw)
      as (segs & -> & Hid & Hcount).
    + eapply Forall_impl; [|apply range_step_bound; exact Hstep].
      intros i Hi. simpl in Hi. lia.
    + cbn [bind]. eexists. split; [reflexivity|].
      destruct (merge_segments_identity segs Hid) as [H1 H2].
      split; [|assumption]. apply H2.
      intro Hnil. rewrite Hnil in Hcount. simpl in Hcount. symmetry in Hcount.
      apply length_zero_iff_nil in Hcount.
      revert Hcount. apply range_step_nonempty; [exact Hstep|lia].
Qed.

Lemma identity_alignment_yields_identity_segments_witness :
  exists segments,
    align_and_fit diagonal_extern
      [[1; 0; 1; 0; 1]; [0; 1; 0; 1; 0]] [[1; 0; 1; 0; 1]; [0; 1; 0; 1; 0]]
      [0; 1 # 50; 2 # 50; 3 # 50; 4 # 50] [0; 1 # 50; 2 # 50; 3 # 50; 4 # 50]
      DTW_BAND_WIDTH 4 = Some segments
    /\ segments <> []
    /\ Forall identity_segment segments.
Proof.
  apply identity_alignment_yields_identity_segments.
  - repeat constructor.
  - simpl. lia.
  - lia.
Defined.

(** On the empty sequence the aligner divides by zero and no segment is
    produced. *)
Lemma identity_alignment_empty_sequence_fails :
  ~ (exists segments,
       align_and_fit diagonal_extern (repeat [] 12) (repeat [] 12) [] []
                     DTW_BAND_WIDTH DTW_WINDOW = Some segments
       /\ segments <> []
       /\ Forall identity_segment segments).
Proof.
  intros (segments & H & _). discriminate H.
Qed.

End Identity.

(** ** Exact-match scoring on a fully voiced phrase *)

Section ExactMatchVoiced.
Import Refine Spec.

Lemma filter_all {A : Type} (p : A -> bool) (l : list A) :
  Forall (fun x => p x = true) l -> filter p l = l.
Proof.
  induction 1 as [|x l Hx _ IH]; simpl; [reflexivity|]. now rewrite Hx, IH.
Qed.

Lemma log2_pairs_diagonal (f : list Q) (suf : list Q) :
  forall pre,
    f = pre ++ suf ->
    Forall (fun x => 0 < x) suf ->
    log2_pairs f f (map (fun i => (i, i)) (seq (length pre) (length suf)))
      = Some (map (fun x => (x, x)) suf).
Proof.
  induction suf as [|x suf IH]; intros pre Hf Hpos; [reflexivity|].
  inversion Hpos as [|x' suf' Hx Hsuf]. clear x' suf' H H0.
  cbn [length seq map log2_pairs].
  assert (Hnth : nth_error f (length pre) = Some x).
  { rewrite Hf, nth_error_app2, Nat.sub_diag by lia. reflexivity. }
  rewrite Hnth. cbn [bind].
  replace (S (length pre)) with (length (pre ++ [x])) by (rewrite length_app; simpl; lia).
  rewrite (IH (pre ++ [x])); [|now rewrite Hf, <- app_assoc|assumption].
  cbn [bind]. apply Qlt_bool_iff in Hx. now rewrite Hx.
Qed.

Lemma timing_offsets_diagonal (tm : list Q) (suf : list Q) :
  forall pre,
    tm = pre ++ suf ->
    timing_offsets tm tm (map (fun i => (i, i)) (seq (length pre) (length suf)))
      = map (fun x => x - x) suf.
Proof.
  induction suf as [|x suf IH]; intros pre Hf; [reflexivity|].
  cbn [length seq map timing_offsets].
  assert (Hnth : nth_error tm (length pre) = Some x).
  { rewrite Hf, nth_error_app2, Nat.sub_diag by lia. reflexivity. }
  rewrite Hnth.
  replace (S (length pre)) with (length (pre ++ [x])) by (rewrite length_app; simpl; lia).
  rewrite (IH (pre ++ [x])); [reflexivity|now rewrite Hf, <- app_assoc].
Qed.

Lemma median_all_zero (l : list Q) :
  l <> [] -> Forall (fun e => e == 0) l -> exists m, median l = Some m /\ m == 0.
Proof.
  intros Hne Hz.
  assert (Hnth : forall k, (k < length l)%nat -> nth k (sort l) 0 == 0).
  { intros k Hk. apply sort_Forall in Hz. rewrite Forall_forall in Hz.
    apply Hz, nth_In. now rewrite sort_length. }
  destruct l as [|x l]; [congruence|].
  unfold median.
  assert (Hh : (length (x :: l) / 2 < length (x :: l))%nat)
    by (apply Nat.div_lt; simpl; lia).
  destruct (Nat.even (length (x :: l))); eexists; (split; [reflexivity|]).
  - rewrite (Hnth _ Hh), (Hnth (length (x :: l) / 2 - 1)%nat) by lia. reflexivity.
  - now apply Hnth.
Qed.

(** With the path as an array, and where the phrase window holds voiced
    frames only, the filtered and the unfiltered arrays coincide and an
    exact match scores as the specification says. *)
Lemma exact_match_fully_voiced (E : Extern) (times f0 : list Q) (ps pe : Q) :
  returns_array E ->
  log2_of_one E ->
  diagonal_on_equal E ->
  length f0 = length times ->
  Forall (fun x => 0 < x) (phrase_f0 times f0 ps pe) ->
  (3 <= length (phrase_f0 times f0 ps pe))%nat ->
  exists metrics,
    calculate_phrase_metrics E times f0 times f0 ps pe = Some metrics
    /\ accuracy metrics == 1
    /\ median_cents_error metrics == 0
    /\ timing_offset metrics == 0.
Proof.
  intros Harr Hlog Hdiag Hlen Hpos Hthree.
  unfold calculate_phrase_metrics.
  rewrite (extract_phrase_pitch_parallel _ _ _ _ Hlen).
  cbn [bind].
  assert (Ht : length (phrase_f0 times times ps pe) = length (phrase_f0 times f0 ps pe))
    by (apply compress_length; now symmetry).
  set (f := phrase_f0 times f0 ps pe) in *.
  set (tm := phrase_f0 times times ps pe) in *.
  destruct (length f) as [|n] eqn:Hn; [lia|]. cbn [Nat.eqb orb].
  unfold align_phrase_dtw.
  rewrite (filter_all (Qlt_bool 0) f)
    by (eapply Forall_impl; [|exact Hpos]; intros x Hx; now apply Qlt_bool_iff).
  rewrite Hn. destruct (S n <? 3)%nat eqn:H3; [apply Nat.ltb_lt in H3; lia|].
  cbn [orb]. rewrite Harr. cbn [column bind].
  rewrite Hdiag, combine_fst_snd, !length_map, length_seq, Hn.
  cbn [Nat.eqb]. rewrite <- Hn.
  pose proof (log2_pairs_diagonal f f [] eq_refl Hpos) as Hpairs.
  change (length (@nil Q)) with 0%nat in Hpairs. rewrite Hpairs. cbn [bind].
  pose proof (timing_offsets_diagonal tm tm [] eq_refl) as Htiming.
  change (length (@nil Q)) with 0%nat in Htiming.
  rewrite Hn, <- Ht, Htiming.
  rewrite map_map.
  set (cents := map (fun x => cents_error E (x, x)) f).
  assert (Hcz : Forall (fun e => e == 0) cents).
  { unfold cents. rewrite Forall_map. eapply Forall_impl; [|exact Hpos].
    intros x Hx. cbv beta in Hx |- *. unfold cents_error. cbn [fst snd].
    assert (Hone : x / x == 1) by (field; lra).
    pose proof (Hlog (x / x) Hone) as Hzero.
    setoid_rewrite Hzero. ring. }
  assert (Hclen : length cents = S n) by (unfold cents; now rewrite length_map).
  destruct (median_all_zero cents) as (med & Hmed & Hmz); [|assumption|].
  { intro H0. rewrite H0 in Hclen. discriminate. }
  rewrite Hmed.
  rewrite (filter_all (fun e => Qle_bool (Qabs e) 50) cents).
  2: { eapply Forall_impl; [|exact Hcz]. intros e He. cbv beta in He |- *.
       apply Qle_bool_iff. rewrite He. discriminate. }
  eexists. split; [reflexivity|]. cbn [accuracy median_cents_error timing_offset].
  assert (Hnpos : 0 < of_nat (S n)) by (apply (of_nat_lt 0); lia).
  split; [|split; [exact Hmz|]].
  - rewrite Hclen. field. lra.
  - destruct tm as [|x tm']; [discriminate|].
    cbn [map]. unfold mean. rewrite <- (map_cons (fun x => x - x)).
    rewrite sum_map_zero by (intro; ring).
    unfold Qdiv. ring.
Qed.

Lemma diagonal_path_square (n : nat) :
  diagonal_path n n = map (fun i => (i, i)) (seq 0 n).
Proof.
  unfold diagonal_path. destruct n as [|n]; [reflexivity|].
  rewrite Nat.min_id, Nat.sub_diag. cbn [seq map]. now rewrite !app_nil_r.
Qed.

Lemma diagonal_extern_diagonal_on_equal : diagonal_on_equal diagonal_extern.
Proof. intro r. apply diagonal_path_square. Qed.

Lemma diagonal_array_diagonal_on_equal : diagonal_on_equal diagonal_array_extern.
Proof. intro r. apply diagonal_path_square. Qed.

Lemma diagonal_extern_log2_of_one : log2_of_one diagonal_extern.
Proof.
  intros q Hq. simpl. rewrite Hq. reflexivity.
Qed.

Lemma diagonal_array_log2_of_one : log2_of_one diagonal_array_extern.
Proof.
  intros q Hq. simpl. rewrite Hq. reflexivity.
Qed.

Lemma exact_match_fully_voiced_example :
  exists metrics,
    calculate_phrase_metrics diagonal_array_extern
      [0; 1 # 50; 2 # 50; 3 # 50] [220; 221; 219; 220]
      [0; 1 # 50; 2 # 50; 3 # 50] [220; 221; 219; 220] 0 1 = Some metrics
    /\ accuracy metrics == 1
    /\ median_cents_error metrics == 0
    /\ timing_offset metrics == 0.
Proof.
  apply exact_match_fully_voiced.
  - exact diagonal_array_extern_returns_array.
  - exact diagonal_array_log2_of_one.
  - exact diagonal_array_diagonal_on_equal.
  - reflexivity.
  - repeat constructor.
  - vm_compute. lia.
Qed.

End ExactMatchVoiced.

(** * Further properties of the code *)

(** ** SequenceAligner: lengths, branches *)

Section AlignerMore.
Import Preprocess Spec.

(** Whenever [align_with_dtw] returns, both arrays are as long as
    [times_k]; quality 0.95 goes with [times_k] in the first place, quality
    0.85 with [times_k] in the second. *)
Theorem align_with_dtw_output_lengths :
  forall (E : Extern) (chroma_k chroma_ref : list (list Q))
         (times_k times_ref : list Q) (band_width : Q) (out1 out2 : list Q) (q : Q),
    align_with_dtw E chroma_k chroma_ref times_k times_ref band_width
      = Some (out1, out2, q) ->
    length out1 = length times_k /\ length out2 = length times_k
    /\ ((q = 95 # 100 /\ out1 = times_k) \/ (q = 85 # 100 /\ out2 = times_k)).
Proof.
  intros. eapply align_with_dtw_outputs; eassumption.
Qed.

Lemma align_with_dtw_output_lengths_witness :
  length [0; 1 # 2; 1] = 3%nat /\ length [0; 3 # 4; 3 # 2] = 3%nat.
Proof.
  destruct (align_with_dtw_output_lengths diagonal_extern
              [[1; 1; 1]] [[1; 1; 1]] [0; 1 # 2; 1] [0; 3 # 4; 3 # 2] DTW_BAND_WIDTH
              [0; 1 # 2; 1] [0; 3 # 4; 3 # 2] (95 # 100) eq_refl) as (H1 & H2 & _).
  split; [exact H1|exact H2].
Defined.

(** Two time arrays of the same (non-zero) length are paired frame by
    frame: the aligner returns [times_k] and [times_ref] unchanged, whatever
    the chroma and whatever the DTW routine. *)
Theorem align_with_dtw_equal_lengths :
  forall (E : Extern) (chroma_k chroma_ref : list (list Q))
         (times_k times_ref : list Q) (band_width : Q),
    length times_k = length times_ref ->
    times_ref <> [] ->
    align_with_dtw E chroma_k chroma_ref times_k times_ref band_width
      = Some (times_k, times_ref, 95 # 100).
Proof.
  intros E ck cr tk tr bw Hlen Hne.
  rewrite align_linear_branch_eq.
  - rewrite Hlen, interp_identity by assumption. reflexivity.
  - rewrite Hlen, Nat.max_id. destruct tr; [congruence|reflexivity].
  - rewrite Hlen. unfold abs_diff. rewrite Nat.sub_diag. reflexivity.
Qed.

Lemma align_with_dtw_equal_lengths_witness :
  align_with_dtw diagonal_extern [[1; 0]] [[0; 1]] [0; 1] [5; 7] DTW_BAND_WIDTH
    = Some ([0; 1], [5; 7], 95 # 100).
Proof.
  apply align_with_dtw_equal_lengths; [reflexivity|discriminate].
Defined.

Lemma length_ratio_small (nk nr : nat) :
  (10 * abs_diff nk nr < Nat.max nk nr)%nat ->
  (Nat.max nk nr =? 0)%nat = false
  /\ Qlt_bool (of_nat (abs_diff nk nr) / of_nat (Nat.max nk nr)) (1 # 10) = true.
Proof.
  intro H. split; [apply Nat.eqb_neq; lia|].
  apply Qlt_bool_iff.
  assert (Hpos : 0 < of_nat (Nat.max nk nr)) by (apply (of_nat_lt 0); lia).
  apply Qlt_shift_div_r; [assumption|].
  apply of_nat_lt in H. unfold of_nat in *.
  rewrite Nat2Z.inj_mul, inject_Z_mult in H. simpl (Z.of_nat 10) in H.
  change (inject_Z 10) with 10 in H. lra.
Qed.

(** When the two lengths differ by less than ten percent of the longer one
    the aligner never fails and never consults the DTW routine: it returns
    [times_k] itself, an array of the same length and quality 0.95. *)
Theorem align_with_dtw_similar_lengths :
  forall (E E' : Extern) (chroma_k chroma_ref chroma_k' chroma_ref' : list (list Q))
         (times_k times_ref : list Q) (band_width band_width' : Q),
    (10 * abs_diff (length times_k) (length times_ref)
       < Nat.max (length times_k) (length times_ref))%nat ->
    (exists tref_aligned,
       align_with_dtw E chroma_k chroma_ref times_k times_ref band_width
         = Some (times_k, tref_aligned, 95 # 100)
       /\ length tref_aligned = length times_k)
    /\ align_with_dtw E chroma_k chroma_ref times_k times_ref band_width
       = align_with_dtw E' chroma_k' chroma_ref' times_k times_ref band_width'.
Proof.
  intros E E' ck cr ck' cr' tk tr bw bw' H.
  destruct (length_ratio_small _ _ H) as [H1 H2].
  split; [now apply align_with_dtw_linear_total|].
  now rewrite !(align_linear_branch_eq _ _ _ _ _ _ H1 H2).
Qed.

Lemma align_with_dtw_similar_lengths_witness :
  exists tref_aligned,
    align_with_dtw diagonal_extern [] [] (arange 20) (arange 21) DTW_BAND_WIDTH
      = Some (arange 20, tref_aligned, 95 # 100)
    /\ length tref_aligned = length (arange 20).
Proof.
  refine (proj1 (align_with_dtw_similar_lengths diagonal_extern diagonal_extern
                   [] [] [] [] (arange 20) (arange 21) DTW_BAND_WIDTH DTW_BAND_WIDTH _)).
  vm_compute. lia.
Defined.

End AlignerMore.

(** ** WarpFitter: tempo recovery, shape of the result *)

Section FitterMore.
Import Preprocess Spec.

Lemma combine_map_map {A B C : Type} (f : A -> B) (g : A -> C) (l : list A) :
  combine (map f l) (map g l) = map (fun t => (f t, g t)) l.
Proof.
  induction l as [|t l IH]; [reflexivity|]. simpl. now rewrite IH.
Qed.

Lemma sum_map_affine (k c : Q) (x : list Q) :
  sum (map (fun t => k * t + c) x) == k * sum x + c * of_nat (length x).
Proof.
  induction x as [|t x IH].
  - simpl. unfold of_nat. simpl. ring.
  - cbn [map length]. rewrite !sum_cons, IH, of_nat_S. ring.
Qed.

Lemma sum_map_affine_product (k c : Q) (x : list Q) :
  sum (map (fun t => t * (k * t + c)) x)
    == k * sum (map (fun t => t * t) x) + c * sum x.
Proof.
  induction x as [|t x IH].
  - simpl. ring.
  - cbn [map]. rewrite !sum_cons, IH. ring.
Qed.

(** The least-squares line through points that lie on a line is that line,
    with score one. *)
Lemma fit_segment_affine (k c : Q) (tk : list Q) :
  StronglySorted Qlt tk -> (2 <= length tk)%nat ->
  exists seg,
    fit_segment tk (map (fun t => k * t + c) tk) = Some seg
    /\ affine_segment k c seg.
Proof.
  intros Hs Hlen.
  pose proof (fit_det_pos tk Hs Hlen) as Hd. unfold fit_det in Hd.
  assert (Hn : 0 < of_nat (length tk)) by (apply (of_nat_lt 0); lia).
  unfold fit_segment, polyfit1.
  rewrite length_map, Nat.eqb_refl. cbn [negb].
  rewrite combine_map_r, map_map. cbn [fst snd].
  set (sx := sum tk) in *.
  set (sxx := sum (map (fun t => t * t) tk)) in *.
  set (sy := sum (map (fun t => k * t + c) tk)).
  set (sxy := sum (map (fun t => t * (k * t + c)) tk)).
  set (n := of_nat (length tk)) in *.
  assert (Hsy : sy == k * sx + c * n) by apply sum_map_affine.
  assert (Hsxy : sxy == k * sxx + c * sx) by apply sum_map_affine_product.
  destruct (Qeq_bool (n * sxx - sx * sx) 0) eqn:Hz; [qbool; lra|].
  cbn [bind]. eexists. split; [reflexivity|].
  assert (Ha : (n * sxy - sx * sy) / (n * sxx - sx * sx) == k).
  { rewrite Hsy, Hsxy. field. lra. }
  assert (Hb : (sy - (n * sxy - sx * sy) / (n * sxx - sx * sx) * sx) / n == c).
  { rewrite Ha, Hsy. field. lra. }
  unfold affine_segment. cbn [a b quality].
  split; [exact Ha|]. split; [exact Hb|].
  rewrite combine_map_map, map_map. cbn [fst snd].
  rewrite sum_map_zero.
  - unfold Qdiv. ring.
  - intro t. rewrite Hb, Ha. ring.
Qed.

Lemma slice_map (f : Q -> Q) (i j : nat) (l : list Q) :
  slice i j (map f l) = map f (slice i j l).
Proof.
  unfold slice. now rewrite skipn_map, firstn_map.
Qed.

Lemma fit_windows_affine (k c : Q) (tk : list Q) (window : nat) (starts : list nat) :
  StronglySorted Qlt tk -> (2 <= window)%nat ->
  Forall (fun i => (i + window <= length tk)%nat) starts ->
  exists segs,
    fit_windows tk (map (fun t => k * t + c) tk) (length tk) window starts = Some segs
    /\ Forall (affine_segment k c) segs
    /\ length segs = length starts.
Proof.
  intros Hs Hw. induction 1 as [|i starts Hi _ IH].
  - exists []. repeat split; constructor.
  - destruct IH as (segs & Hsegs & Hid & Hlen).
    cbn [fit_windows]. rewrite Nat.min_l by assumption. rewrite slice_map.
    destruct (fit_segment_affine k c (slice i (i + window) tk)) as (seg & Hseg & Hseg_id).
    + unfold slice. now apply StronglySorted_firstn, StronglySorted_skipn.
    + rewrite slice_length by lia. lia.
    + rewrite Hseg, Hsegs. cbn [bind]. eexists. split; [reflexivity|].
      split; [now constructor|]. simpl. now rewrite Hlen.
Qed.

Lemma merge_step_affine (k c : Q) (merged : list AlignmentSegment) (seg : AlignmentSegment) :
  Forall (affine_segment k c) merged -> affine_segment k c seg ->
  Forall (affine_segment k c) (merge_step merged seg).
Proof.
  intros Hm Hseg. destruct merged as [|x l] using rev_ind.
  - constructor; [assumption|constructor].
  - clear IHl. rewrite merge_step_snoc.
    apply Forall_app in Hm. destruct Hm as [Hl Hx].
    inversion Hx as [|? ? Hx' _]; subst.
    destruct (similar seg x).
    + apply Forall_app. split; [assumption|]. constructor; [|constructor].
      destruct Hseg as (H1 & H2 & H3), Hx' as (H4 & H5 & H6).
      unfold affine_segment. cbn [a b quality].
      rewrite H1, H2, H4, H5, py_min_Qmin, H3, H6.
      repeat split; field.
    + apply Forall_app. split; [assumption|].
      constructor; [assumption|]. constructor; [assumption|constructor].
Qed.

Lemma merge_segments_affine (k c : Q) (segments : list AlignmentSegment) :
  Forall (affine_segment k c) segments ->
  Forall (affine_segment k c) (merge_segments segments).
Proof.
  intro H. induction segments as [|seg segs IH] using rev_ind; [constructor|].
  apply Forall_app in H. destruct H as [Hsegs Hseg]. inversion Hseg; subst.
  rewrite merge_segments_snoc. apply merge_step_affine; [now apply IH|assumption].
Qed.

Lemma merge_segments_nonempty (segments : list AlignmentSegment) :
  segments <> [] -> merge_segments segments <> [].
Proof.
  destruct segments as [|seg segs] using rev_ind; [congruence|]. intros _.
  rewrite merge_segments_snoc. apply merge_step_nonempty.
Qed.

(** Linear-tempo recovery.  When the matched reference times are karaoke
    times scaled and shifted, [t_ref = k * t_k + c], every segment the
    fitter returns has slope [k], intercept [c] and quality one. *)
Theorem fit_piecewise_linear_recovers_affine_warp :
  forall (tk : list Q) (k c : Q) (window : nat),
    strictly_increasing tk ->
    (2 <= length tk)%nat ->
    (2 <= window)%nat ->
    exists segments,
      fit_piecewise_linear tk (map (fun t => k * t + c) tk) window = Some segments
      /\ segments <> []
      /\ Forall (affine_segment k c) segments.
Proof.
  intros tk k c window Hinc Hlen Hw.
  apply strictly_increasing_strong in Hinc.
  unfold fit_piecewise_linear.
  destruct (length tk <? window)%nat eqn:Hn.
  - destruct (fit_segment_affine k c tk Hinc Hlen) as (seg & -> & Hid).
    cbn [bind]. eexists. split; [reflexivity|].
    split; [discriminate|]. constructor; [assumption|constructor].
  - apply Nat.ltb_ge in Hn.
    assert (Hstep : (0 < window / 2)%nat) by (apply Nat.div_str_pos; lia).
    destruct (window / 2 =? 0)%nat eqn:Hz; [apply Nat.eqb_eq in Hz; lia|].
    destruct (fit_windows_affine k c tk window
                (range_step (length tk - window + 1) (window / 2)) Hinc Hw)
      as (segs & -> & Hid & Hcount).
    + eapply Forall_impl; [|apply range_step_bound; exact Hstep].
      intros i Hi. simpl in Hi. lia.
    + cbn [bind]. eexists. split; [reflexivity|].
      split; [|now apply merge_segments_affine].
      apply merge_segments_nonempty.
      intro Hnil. rewrite Hnil in Hcount. simpl in Hcount. symmetry in Hcount.
      apply length_zero_iff_nil in Hcount.
      revert Hcount. apply range_step_nonempty; [exact Hstep|lia].
Qed.

Lemma fit_piecewise_linear_recovers_affine_warp_witness :
  exists segments,
    fit_piecewise_linear [0; 1; 2; 3; 4; 5]
      (map (fun t => (105 # 100) * t + (1 # 2)) [0; 1; 2; 3; 4; 5]) 4 = Some segments
    /\ segments <> []
    /\ Forall (affine_segment (105 # 100) (1 # 2)) segments.
Proof.
  apply fit_piecewise_linear_recovers_affine_warp.
  - repeat constructor.
  - simpl. lia.
  - lia.
Defined.

End FitterMore.

Section FitterShape.
Import Preprocess Spec.

Lemma hd_app_nonempty {A : Type} (d : A) (l l' : list A) :
  l <> [] -> hd d (l ++ l') = hd d l.
Proof. destruct l; [congruence|reflexivity]. Qed.

Lemma merge_segments_span (segments : list AlignmentSegment) (d : AlignmentSegment) :
  (length (merge_segments segments) <= length segments)%nat
  /\ tk_start (hd d (merge_segments segments)) = tk_start (hd d segments)
  /\ tk_end (last (merge_segments segments) d) = tk_end (last segments d).
Proof.
  induction segments as [|cur segs IH] using rev_ind; [simpl; auto|].
  destruct IH as (Hlen & Hhd & Hlast).
  rewrite merge_segments_snoc, !last_last, length_app. cbn [length].
  destruct (merge_segments segs) as [|prev out _] eqn:Hm using rev_ind.
  - assert (Hs : segs = []).
    { destruct segs as [|s0 segs0]; [reflexivity|].
      exfalso. revert Hm. apply merge_segments_nonempty. discriminate. }
    subst segs. cbn. repeat split; lia.
  - assert (Hne : segs <> []) by (intro H0; subst segs; destruct out; discriminate).
    rewrite merge_step_snoc, (hd_app_nonempty d segs [cur] Hne), <- Hhd.
    rewrite length_app in Hlen. cbn [length] in Hlen.
    destruct (similar cur prev).
    + rewrite length_app, last_last. cbn [length tk_end].
      split; [lia|]. split; [|reflexivity].
      destruct out; reflexivity.
    + replace (out ++ [prev; cur]) with ((out ++ [prev]) ++ [cur])
        by (now rewrite <- app_assoc).
      rewrite !length_app, last_last. cbn [length].
      split; [lia|]. split; [|reflexivity].
      f_equal. apply hd_app_nonempty. destruct out; discriminate.
Qed.

(** The merge pass never lengthens the list and keeps the span: the result
    starts where the first input segment starts and ends where the last
    one ends. *)
Theorem merge_segments_keeps_span :
  forall (segments : list AlignmentSegment) (d : AlignmentSegment),
    (length (merge_segments segments) <= length segments)%nat
    /\ tk_start (hd d (merge_segments segments)) = tk_start (hd d segments)
    /\ tk_end (last (merge_segments segments) d) = tk_end (last segments d).
Proof.
  intros. apply merge_segments_span.
Qed.

(** A merge moves the warp by little: the merged segment maps every time to
    the mean of what the two segments map it to, less than
    [0.005 * |t| + 0.05] seconds away from either. *)
Theorem merge_step_maps_close :
  forall (out : list AlignmentSegment) (prev cur : AlignmentSegment) (t : Q),
    similar cur prev = true ->
    exists m,
      merge_step (out ++ [prev]) cur = out ++ [m]
      /\ map_time m t == (map_time prev t + map_time cur t) / 2
      /\ Qabs (map_time m t - map_time prev t) < (1 # 200) * Qabs t + (1 # 20)
      /\ Qabs (map_time m t - map_time cur t) < (1 # 200) * Qabs t + (1 # 20).
Proof.
  intros out prev cur t Hsim.
  rewrite merge_step_snoc, Hsim. eexists. split; [reflexivity|].
  apply similar_iff in Hsim. destruct Hsim as (Ha & Hb & _ & _).
  apply Qabs_Qlt_condition in Ha, Hb.
  unfold map_time. cbn [a b].
  split; [field|].
  assert (Ht : 0 <= Qabs t) by apply Qabs_nonneg.
  assert (H1 : 0 <= ((1 # 100) - (a cur - a prev)) * Qabs t)
    by (apply Qmult_le_0_compat; lra).
  assert (H2 : 0 <= ((1 # 100) + (a cur - a prev)) * Qabs t)
    by (apply Qmult_le_0_compat; lra).
  assert (E1 : (a cur + a prev) / 2 * t + (b cur + b prev) / 2 - (a prev * t + b prev)
               == ((a cur - a prev) * t + (b cur - b prev)) * (1 # 2)) by field.
  assert (E2 : (a cur + a prev) / 2 * t + (b cur + b prev) / 2 - (a cur * t + b cur)
               == - ((a cur - a prev) * t + (b cur - b prev)) * (1 # 2)) by field.
  rewrite E1, E2.
  split; apply Qabs_Qlt_condition;
    (destruct (Qlt_le_dec t 0) as [Hneg|Hpos];
     [rewrite (Qabs_neg t) in * by lra | rewrite (Qabs_pos t) in * by lra];
     split; lra).
Qed.

Lemma merge_step_maps_close_witness :
  let prev := {| tk_start := 0; tk_end := 2; a := 1; b := 0; quality := 9 # 10 |} in
  let cur := {| tk_start := 1; tk_end := 3; a := 1001 # 1000; b := 1 # 100;
                quality := 95 # 100 |} in
  exists m,
    merge_step ([] ++ [prev]) cur = [] ++ [m]
    /\ map_time m 100 == (map_time prev 100 + map_time cur 100) / 2
    /\ Qabs (map_time m 100 - map_time prev 100) < (1 # 200) * Qabs 100 + (1 # 20)
    /\ Qabs (map_time m 100 - map_time cur 100) < (1 # 200) * Qabs 100 + (1 # 20).
Proof.
  intros prev cur. apply merge_step_maps_close. reflexivity.
Defined.

(** A window of zero or one pair is never accepted: the fitter raises on
    every input. *)
Theorem fit_piecewise_linear_rejects_tiny_window :
  forall (tk tref : list Q) (window : nat),
    (window <= 1)%nat ->
    fit_piecewise_linear tk tref window = None.
Proof.
  intros tk tref window Hw. unfold fit_piecewise_linear.
  destruct (length tk <? window)%nat eqn:Hn.
  - apply Nat.ltb_lt in Hn. destruct tk; [|simpl in Hn; lia].
    unfold fit_segment, polyfit1. cbn [length sum map fold_right combine].
    destruct (negb (0 =? length tref)%nat); reflexivity.
  - replace (window / 2)%nat with 0%nat; [reflexivity|].
    destruct window as [|[|w]]; [reflexivity|reflexivity|lia].
Qed.

Lemma fit_piecewise_linear_rejects_tiny_window_witness :
  fit_piecewise_linear [0; 1; 2] [0; 1; 2] 1 = None.
Proof.
  apply fit_piecewise_linear_rejects_tiny_window. lia.
Defined.

End FitterShape.

Section FitterSorted.
Import Preprocess Spec.

Lemma sum_squares_nonneg {A : Type} (g : A -> Q) (l : list A) :
  0 <= sum (map (fun p => g p * g p) l).
Proof.
  induction l as [|p l IH]; [apply Qle_refl|].
  cbn [map]. rewrite sum_cons. pose proof (Qsquare_nonneg (g p)). lra.
Qed.

Lemma hd_nth {A : Type} (d : A) (l : list A) : hd d l = nth 0 l d.
Proof. destruct l; reflexivity. Qed.

Lemma last_nth {A : Type} (d : A) (l : list A) :
  last l d = nth (length l - 1) l d.
Proof.
  induction l as [|x l IH]; [reflexivity|].
  destruct l as [|y l]; [reflexivity|].
  change (last (x :: y :: l) d) with (last (y :: l) d). rewrite IH.
  cbn [length].
  replace (S (S (length l)) - 1)%nat with (S (length l)) by lia.
  replace (S (length l) - 1)%nat with (length l) by lia.
  reflexivity.
Qed.

Lemma last_map_eq {A B : Type} (f : A -> B) (l : list A) (d : A) :
  last (map f l) (f d) = f (last l d).
Proof.
  induction l as [|x l IH]; [reflexivity|].
  destruct l as [|y l]; [reflexivity|]. exact IH.
Qed.

Lemma slice_nth (i j k : nat) (l : list Q) :
  (k < j - i)%nat -> nth k (slice i j l) 0 = nth (i + k) l 0.
Proof.
  intro H. unfold slice. rewrite nth_firstn.
  apply Nat.ltb_lt in H. rewrite H. apply nth_skipn.
Qed.

Lemma slice_hd_last (i w : nat) (l : list Q) :
  (1 <= w)%nat -> (i + w <= length l)%nat ->
  hd 0 (slice i (i + w) l) = nth i l 0
  /\ last (slice i (i + w) l) 0 = nth (i + w - 1) l 0.
Proof.
  intros Hw Hi. rewrite hd_nth, last_nth, slice_length by lia.
  rewrite !slice_nth by lia. split; f_equal; lia.
Qed.

Lemma StronglySorted_nth (l : list Q) (i j : nat) :
  StronglySorted Qlt l -> (i < j)%nat -> (j < length l)%nat ->
  nth i l 0 < nth j l 0.
Proof.
  intros Hs Hij Hj.
  apply (StronglySorted_nth_error Qlt l Hs i j); [assumption| |];
    apply nth_error_nth'; lia.
Qed.

(** One window of a strictly increasing time array always has a fit; the
    segment spans the window and its score is at most one. *)
Lemma fit_segment_proper (tk tref : list Q) :
  StronglySorted Qlt tk -> (2 <= length tk)%nat -> length tref = length tk ->
  exists seg,
    fit_segment tk tref = Some seg
    /\ proper_segment seg
    /\ tk_start seg = hd 0 tk /\ tk_end seg = last tk 0.
Proof.
  intros Hs Hlen Href.
  pose proof (fit_det_pos tk Hs Hlen) as Hd. unfold fit_det in Hd.
  unfold fit_segment, polyfit1.
  rewrite Href, Nat.eqb_refl. cbn [negb].
  destruct (Qeq_bool _ 0) eqn:Hz; [qbool; lra|].
  cbn [bind]. eexists. split; [reflexivity|].
  split; [|split; reflexivity].
  unfold proper_segment. cbn [tk_start tk_end quality]. split.
  - rewrite hd_nth, last_nth. apply StronglySorted_nth; [assumption|lia|lia].
  - match goal with
    | |- 1 - ?res / (?tot + ?eps) <= 1 =>
        assert (Hres : 0 <= res) by apply (sum_squares_nonneg (fun p => fst p - snd p));
        assert (Htot : 0 <= tot) by apply (sum_squares_nonneg (fun t => t - mean tref));
        assert (Hdiv : 0 <= res / (tot + eps))
          by (apply Qle_shift_div_l; lra)
    end.
    lra.
Qed.

Lemma fit_windows_proper (tk tref : list Q) (window : nat) (starts : list nat) :
  StronglySorted Qlt tk -> (2 <= window)%nat -> length tref = length tk ->
  Forall (fun i => (i + window <= length tk)%nat) starts ->
  exists segs,
    fit_windows tk tref (length tk) window starts = Some segs
    /\ Forall proper_segment segs
    /\ map tk_start segs = map (fun i => nth i tk 0) starts
    /\ map tk_end segs = map (fun i => nth (i + window - 1) tk 0) starts.
Proof.
  intros Hs Hw Href. induction 1 as [|i starts Hi _ IH].
  - exists []. repeat split; constructor.
  - destruct IH as (segs & Hsegs & Hprop & Hst & Hen).
    cbn [fit_windows]. rewrite Nat.min_l by assumption.
    destruct (fit_segment_proper (slice i (i + window) tk) (slice i (i + window) tref))
      as (seg & Hseg & Hseg_p & Hseg_s & Hseg_e).
    + unfold slice. now apply StronglySorted_firstn, StronglySorted_skipn.
    + rewrite slice_length by lia. lia.
    + rewrite !slice_length by lia. reflexivity.
    + rewrite Hseg, Hsegs. cbn [bind]. eexists. split; [reflexivity|].
      destruct (slice_hd_last i window tk ltac:(lia) Hi) as [Hh Hl].
      split; [now constructor|]. cbn [map].
      split; congruence.
Qed.

(** The invariant of the merge loop: proper segments in the order of their
    starts stay proper and in order. *)
Lemma StronglySorted_remove {A : Type} (R : A -> A -> Prop) (l1 l2 : list A) (x : A) :
  StronglySorted R (l1 ++ x :: l2) -> StronglySorted R (l1 ++ l2).
Proof.
  induction l1 as [|y l1 IH]; simpl; intro H.
  - now inversion H.
  - inversion H as [|? ? Hl Hy]; subst. constructor; [now apply IH|].
    apply Forall_app in Hy. destruct Hy as [Hy1 Hy2]. inversion Hy2; subst.
    apply Forall_app. now split.
Qed.

Lemma StronglySorted_app_lt (l1 l2 : list Q) (x y : Q) :
  StronglySorted Qlt (l1 ++ x :: l2) -> In y l2 -> x < y.
Proof.
  induction l1 as [|z l1 IH]; simpl; intros H Hy.
  - inversion H as [|? ? _ Hx]; subst. rewrite Forall_forall in Hx. now apply Hx.
  - inversion H; subst. now apply IH.
Qed.

Lemma merge_fold_sorted (rest : list AlignmentSegment) :
  forall acc,
    Forall proper_segment acc -> Forall proper_segment rest ->
    StronglySorted Qlt (map tk_start (acc ++ rest)) ->
    Forall proper_segment (fold_left merge_step rest acc)
    /\ StronglySorted Qlt (map tk_start (fold_left merge_step rest acc)).
Proof.
  induction rest as [|seg rest IH]; intros acc Hacc Hrest Hsorted.
  - simpl. rewrite app_nil_r in Hsorted. auto.
  - inversion Hrest as [|? ? Hseg Hrest']; subst. cbn [fold_left].
    destruct acc as [|prev out _] using rev_ind.
    + apply IH; [|assumption|exact Hsorted]. constructor; [assumption|constructor].
    + rewrite merge_step_snoc.
      apply Forall_app in Hacc. destruct Hacc as [Hout Hprev].
      inversion Hprev as [|? ? Hprev' _]; subst.
      rewrite <- app_assoc in Hsorted. cbn [app] in Hsorted.
      destruct (similar seg prev).
      * apply IH; [|assumption|].
        -- apply Forall_app. split; [assumption|]. constructor; [|constructor].
           destruct Hseg as [Hs1 Hs2], Hprev' as [Hp1 Hp2].
           unfold proper_segment. cbn [tk_start tk_end quality]. split.
           ++ rewrite map_app in Hsorted. cbn [map] in Hsorted.
              assert (tk_start prev < tk_start seg)
                by (eapply StronglySorted_app_lt; [exact Hsorted|now left]).
              lra.
           ++ unfold py_min. destruct (Qlt_bool _ _); assumption.
        -- rewrite <- app_assoc. cbn [app].
           rewrite !map_app in *. cbn [map] in *.
           change (tk_start prev :: tk_start seg :: map tk_start rest)
             with ([tk_start prev] ++ tk_start seg :: map tk_start rest) in Hsorted.
           rewrite app_assoc in Hsorted.
           apply StronglySorted_remove in Hsorted.
           now rewrite <- app_assoc in Hsorted.
      * apply IH; [|assumption|].
        -- apply Forall_app. split; [assumption|].
           constructor; [assumption|]. constructor; [assumption|constructor].
        -- rewrite <- app_assoc. exact Hsorted.
Qed.

Lemma range_step_sorted (stop step : nat) :
  (0 < step)%nat -> StronglySorted lt (range_step stop step).
Proof.
  intro Hstep. unfold range_step.
  generalize ((stop + step - 1) / step)%nat as cnt. intro cnt.
  generalize 0%nat as s. induction cnt as [|cnt IH]; intro s; [constructor|].
  cbn [seq map]. constructor; [apply IH|].
  rewrite Forall_map, Forall_forall. intros k Hk. apply in_seq in Hk. nia.
Qed.

Lemma map_nth_sorted (tk : list Q) (idx : list nat) :
  StronglySorted Qlt tk -> StronglySorted lt idx ->
  Forall (fun i => (i < length tk)%nat) idx ->
  StronglySorted Qlt (map (fun i => nth i tk 0) idx).
Proof.
  intros Hs Hidx. induction Hidx as [|i idx Hidx IH Hi]; intro Hb; [constructor|].
  inversion Hb as [|? ? Hib Hb']; subst. cbn [map].
  constructor; [now apply IH|].
  rewrite Forall_map, Forall_forall. intros j Hj.
  rewrite Forall_forall in Hi, Hb'.
  apply StronglySorted_nth; [assumption|now apply Hi|now apply Hb'].
Qed.

(** On a strictly increasing time array of at least two pairs the fitter
    always returns; its segments come in the order of their [tk_start],
    each spans a non-empty stretch of time and has quality at most one, the
    first starts at [tk[0]], and the last ends at one of the final
    [window / 2] times (at [tk[-1]] when the sequence is shorter than the
    window). *)
Theorem fit_piecewise_linear_segments_in_order :
  forall (tk tref : list Q) (window : nat) (d : AlignmentSegment),
    strictly_increasing tk ->
    (2 <= length tk)%nat ->
    length tref = length tk ->
    (2 <= window)%nat ->
    exists segments,
      fit_piecewise_linear tk tref window = Some segments
      /\ segments <> []
      /\ Forall proper_segment segments
      /\ StronglySorted Qlt (map tk_start segments)
      /\ tk_start (hd d segments) = hd 0 tk
      /\ (exists j, (length tk - window / 2 <= j < length tk)%nat
                    /\ tk_end (last segments d) = nth j tk 0)
      /\ ((length tk < window)%nat -> tk_end (last segments d) = last tk 0).
Proof.
  intros tk tref window d Hinc Hlen Href Hw.
  apply strictly_increasing_strong in Hinc.
  unfold fit_piecewise_linear.
  assert (Hstep : (0 < window / 2)%nat) by (apply Nat.div_str_pos; lia).
  destruct (length tk <? window)%nat eqn:Hn.
  - destruct (fit_segment_proper tk tref Hinc Hlen Href) as (seg & -> & Hp & Hs & He).
    cbn [bind]. eexists. split; [reflexivity|].
    split; [discriminate|]. split; [constructor; [assumption|constructor]|].
    split; [repeat constructor|]. split; [exact Hs|].
    cbn [last]. split; [|intros _; exact He].
    exists (length tk - 1)%nat. split; [lia|]. now rewrite He, last_nth.
  - apply Nat.ltb_ge in Hn.
    destruct (window / 2 =? 0)%nat eqn:Hz; [apply Nat.eqb_eq in Hz; lia|].
    remember (range_step (length tk - window + 1) (window / 2)) as starts eqn:Hstarts.
    assert (Hbound : Forall (fun i => (i + window <= length tk)%nat) starts).
    { rewrite Hstarts. eapply Forall_impl; [|apply range_step_bound; exact Hstep].
      intros i Hi. simpl in Hi. lia. }
    assert (Hsne : starts <> []).
    { rewrite Hstarts. apply range_step_nonempty; [exact Hstep|lia]. }
    destruct (fit_windows_proper tk tref window starts Hinc Hw Href Hbound)
      as (segs & -> & Hprop & Hst & Hen).
    cbn [bind]. eexists. split; [reflexivity|].
    assert (Hne : segs <> []).
    { intro Hnil. subst segs. cbn [map] in Hst. symmetry in Hst.
      apply map_eq_nil in Hst. contradiction. }
    destruct (merge_fold_sorted segs [] (Forall_nil _) Hprop) as [Hmp Hms].
    { cbn [app]. rewrite Hst. apply map_nth_sorted; [assumption| |].
      - rewrite Hstarts. apply range_step_sorted, Hstep.
      - eapply Forall_impl; [|exact Hbound]. intros i Hi. simpl in Hi. lia. }
    destruct (merge_segments_span segs d) as (_ & Hhd & Hlast).
    split; [now apply merge_segments_nonempty|].
    split; [exact Hmp|]. split; [exact Hms|].
    unfold merge_segments in Hhd, Hlast |- *.
    split; [|split; [|intro; lia]].
    + rewrite Hhd.
      destruct segs as [|s0 segs0]; [congruence|].
      destruct starts as [|i0 starts0]; [congruence|].
      cbn [map] in Hst. injection Hst as Hs0 _. cbn [hd]. rewrite Hs0.
      unfold range_step in Hstarts.
      destruct ((length tk - window + 1 + window / 2 - 1) / (window / 2))%nat;
        [discriminate|].
      cbn [seq map] in Hstarts. injection Hstarts as -> _.
      now rewrite hd_nth.
    + rewrite Hlast.
      assert (Hle : tk_end (last segs d) = last (map tk_end segs) (tk_end d))
        by (symmetry; apply last_map_eq).
      rewrite Hle, Hen.
      destruct (exists_last Hsne) as (starts0 & i0 & Heq).
      rewrite Heq in *.
      exists (i0 + window - 1)%nat. split; [|rewrite map_app; cbn [map]; now rewrite last_last].
      apply Forall_app in Hbound. destruct Hbound as [_ Hb0].
      inversion Hb0 as [|? ? Hi0 _]; subst.
      split; [|lia].
      unfold range_step in Hstarts.
      set (stop := (length tk - window + 1)%nat) in *.
      set (step := (window / 2)%nat) in *.
      destruct ((stop + step - 1) / step)%nat as [|cnt] eqn:Hcnt;
        [destruct starts0; discriminate|].
      rewrite seq_S, map_app in Hstarts. cbn [map Nat.add] in Hstarts.
      apply app_inj_tail in Hstarts. destruct Hstarts as [_ Hi0'].
      assert (Hdiv : (stop + step - 1 < step * S (S cnt))%nat).
      { rewrite <- Hcnt.
        pose proof (Nat.mul_succ_div_gt (stop + step - 1) step ltac:(lia)). lia. }
      unfold stop in *. nia.
Qed.

Lemma fit_piecewise_linear_segments_in_order_witness :
  exists segments,
    fit_piecewise_linear [0; 1; 2; 3; 4; 5; 6] [0; 2; 3; 5; 8; 9; 9] 4 = Some segments
    /\ segments <> []
    /\ Forall proper_segment segments
    /\ StronglySorted Qlt (map tk_start segments).
Proof.
  destruct (fit_piecewise_linear_segments_in_order
              [0; 1; 2; 3; 4; 5; 6] [0; 2; 3; 5; 8; 9; 9] 4
              {| tk_start := 0; tk_end := 0; a := 0; b := 0; quality := 0 |})
    as (segments & H1 & H2 & H3 & H4 & _).
  - repeat constructor.
  - simpl. lia.
  - reflexivity.
  - lia.
  - exists segments. auto.
Defined.

End FitterSorted.

(** ** NoteBinSegmenter: the runs are the maximal voiced runs *)

Section RunsMore.
Import Preprocess Spec.

Lemma in_runs_app (segs : list (nat * nat)) (r : nat * nat) (k : nat) :
  in_runs segs k -> in_runs (segs ++ [r]) k.
Proof.
  intros (s & e & Hin & Hk). exists s, e. split; [|assumption].
  apply in_or_app. now left.
Qed.

Lemma nth_default_irrelevant (V : list bool) (k : nat) (d d' : bool) :
  (k < length V)%nat -> nth k V d = nth k V d'.
Proof. intro H. now apply nth_indep. Qed.

Lemma scan_step_cover (V : list bool) (i : nat) (v : bool) (st : scan_state) :
  (i < length V)%nat -> nth i V false = v ->
  scan_cover_inv V i st -> scan_cover_inv V (S i) (scan_step st (i, v)).
Proof.
  intros Hi Hv. destruct st as [[segs in_segment] start_idx].
  unfold scan_cover_inv, scan_step.
  assert (Hv' : nth i V true = v) by (rewrite <- Hv; now apply nth_indep).
  replace (S i - 1)%nat with i by lia.
  intros (Hcov & Hmax & Hopen).
  destruct v, in_segment; cbn [andb negb].
  - destruct Hopen as [Hlt Hstart].
    split; [|split; [assumption|split; [lia|assumption]]].
    intros k Hk Hvk. destruct (Nat.eq_dec k i) as [->|Hne].
    + right. split; [reflexivity|lia].
    + apply Hcov; [lia|assumption].
  - split; [|split; [assumption|split; [lia|]]].
    + intros k Hk Hvk. destruct (Nat.eq_dec k i) as [->|Hne].
      * right. split; [reflexivity|lia].
      * destruct (Hcov k ltac:(lia) Hvk) as [H|[H _]]; [now left|discriminate].
    + exact Hopen.
  - destruct Hopen as [Hlt Hstart].
    split; [|split].
    + intros k Hk Hvk. left.
      destruct (Nat.eq_dec k i) as [->|Hne]; [congruence|].
      destruct (Hcov k ltac:(lia) Hvk) as [H|[_ H]]; [now apply in_runs_app|].
      exists start_idx, i. split; [apply in_or_app; right; now left|lia].
    + apply Forall_app. split; [assumption|]. constructor; [|constructor].
      cbn [fst snd]. split; assumption.
    + now right.
  - split; [|split; [assumption|now right]].
    intros k Hk Hvk. destruct (Nat.eq_dec k i) as [->|Hne]; [congruence|].
    apply Hcov; [lia|assumption].
Qed.

Lemma scan_fold_cover (V suf : list bool) :
  forall pre st,
    V = pre ++ suf ->
    scan_cover_inv V (length pre) st ->
    scan_cover_inv V (length V)
      (fold_left scan_step (combine (seq (length pre) (length suf)) suf) st).
Proof.
  induction suf as [|v suf IH]; intros pre st HV Hinv.
  - simpl. rewrite app_nil_r in HV. subst V. assumption.
  - cbn [length seq combine fold_left].
    replace (S (length pre)) with (length (pre ++ [v]))
      by (rewrite length_app; simpl; lia).
    apply IH.
    + now rewrite <- app_assoc.
    + rewrite length_app. simpl. rewrite Nat.add_1_r.
      apply scan_step_cover; [| |assumption].
      * subst V. rewrite length_app. simpl. lia.
      * subst V. rewrite app_nth2 by lia. now rewrite Nat.sub_diag.
Qed.

Lemma runs_ok_In (V : list bool) (segs : list (nat * nat)) :
  forall lo hi s e,
    runs_ok V lo segs hi -> In (s, e) segs ->
    (s < e)%nat /\ (e <= length V)%nat
    /\ (forall k, (s <= k < e)%nat -> nth k V false = true).
Proof.
  induction segs as [|[s0 e0] segs IH]; intros lo hi s e Hruns Hin; [contradiction|].
  destruct Hruns as (_ & H1 & H2 & H3 & Hrest).
  destruct Hin as [[= <- <-]|Hin]; [auto|].
  eapply IH; eassumption.
Qed.

(** The runs found by the scan are exactly the maximal voiced runs: a frame
    is voiced if and only if it lies in a run, and no run can be extended
    at either end. *)
Theorem voiced_segments_are_the_maximal_runs :
  forall (voiced : list bool),
    (forall k, nth k voiced false = true <-> in_runs (voiced_segments voiced) k)
    /\ Forall (fun r => (fst r < snd r <= length voiced)%nat /\ maximal_run voiced r)
              (voiced_segments voiced).
Proof.
  intro V.
  pose proof (voiced_segments_runs V) as Hruns.
  unfold voiced_segments in *.
  pose proof (scan_fold_cover V V [] ([], false, 0%nat) eq_refl) as H.
  cbn [length app] in H.
  specialize (H ltac:(unfold scan_cover_inv; repeat split;
                      [intros; lia|constructor|now left])).
  destruct (fold_left scan_step (combine (seq 0 (length V)) V) ([], false, 0%nat))
    as [[segs in_segment] start_idx].
  destruct H as (Hcov & Hmax & Hopen).
  set (runs := if in_segment then segs ++ [(start_idx, length V)] else segs) in *.
  assert (Hcover : forall k, nth k V false = true -> in_runs runs k).
  { intros k Hk.
    assert (Hlt : (k < length V)%nat).
    { destruct (Nat.lt_ge_cases k (length V)); [assumption|].
      rewrite nth_overflow in Hk by assumption. discriminate. }
    unfold runs. destruct (Hcov k Hlt Hk) as [Hin|[-> Hle]].
    - destruct in_segment; [now apply in_runs_app|assumption].
    - exists start_idx, (length V). split; [apply in_or_app; right; now left|lia]. }
  split.
  - intro k. split; [apply Hcover|].
    intros (s & e & Hin & Hk).
    destruct (runs_ok_In V runs 0 (length V) s e Hruns Hin) as (_ & _ & Hv).
    now apply Hv.
  - apply Forall_forall. intros [s e] Hin.
    destruct (runs_ok_In V runs 0 (length V) s e Hruns Hin) as (H1 & H2 & _).
    split; [cbn [fst snd]; lia|].
    unfold maximal_run. cbn [fst snd].
    unfold runs in Hin. rewrite Forall_forall in Hmax.
    destruct in_segment.
    + apply in_app_or in Hin. destruct Hin as [Hin|[[= <- <-]|[]]].
      * destruct (Hmax _ Hin) as [Ha Hb]. cbn [fst snd] in Ha, Hb. auto.
      * destruct Hopen as [_ Hstart]. auto.
    + destruct (Hmax _ Hin) as [Ha Hb]. cbn [fst snd] in Ha, Hb. auto.
Qed.

End RunsMore.

(** ** NoteBinSegmenter: where the bins come from *)

Section BinsMore.
Import Preprocess Spec.

Lemma voiced_mask_nth (f0 : list Q) :
  forall confidence k,
    nth k (voiced_mask f0 confidence) false = true ->
    0 < nth k f0 0 /\ PITCH_CONF_THRESHOLD < nth k confidence 0.
Proof.
  unfold voiced_mask.
  induction f0 as [|x f0 IH]; intros [|c conf] k H;
    try (destruct k; discriminate H).
  destruct k as [|k]; cbn [combine map nth fst snd] in H |- *.
  - qbool. auto.
  - now apply IH.
Qed.

Lemma voiced_mask_length (f0 confidence : list Q) :
  (length (voiced_mask f0 confidence) <= length f0)%nat.
Proof.
  unfold voiced_mask. rewrite length_map, length_combine. lia.
Qed.

Lemma slice_Forall (P : Q -> Prop) (s e : nat) (l : list Q) :
  (s <= e <= length l)%nat ->
  (forall k, (s <= k < e)%nat -> P (nth k l 0)) ->
  Forall P (slice s e l).
Proof.
  intros Hb HP. apply Forall_nth. intros i d Hi.
  rewrite slice_length in Hi by assumption.
  rewrite (nth_indep _ d 0) by (rewrite slice_length; assumption).
  rewrite slice_nth by assumption. apply HP. lia.
Qed.

Lemma bins_of_segments_from_runs (times f0 : list Q) (tol : Q) (V : list bool)
    (runs : list (nat * nat)) :
  (forall s e, In (s, e) runs ->
     (s <= e <= length f0)%nat /\ forall k, (s <= k < e)%nat -> 0 < nth k f0 0) ->
  forall segs bins,
    (forall r, In r segs -> In r runs) ->
    bins_of_segments times f0 tol segs = Some bins ->
    (length bins <= length segs)%nat
    /\ Forall (fun bin =>
                 tol_cents bin = tol
                 /\ MIN_NOTE_DURATION <= nb_end bin - nb_start bin
                 /\ exists s e,
                      In (s, e) runs
                      /\ nth_error times s = Some (nb_start bin)
                      /\ nth_error times (e - 1) = Some (nb_end bin)
                      /\ median (slice s e f0) = Some (nb_f0 bin)) bins.
Proof.
  intros Hruns. induction segs as [|[s e] segs IH]; intros bins Hsub Hb.
  - injection Hb as <-. split; [simpl; lia|constructor].
  - cbn [bins_of_segments] in Hb.
    assert (Hsub' : forall r, In r segs -> In r runs) by (intros r Hr; apply Hsub; now right).
    destruct (nth_error times (e - 1)) as [t_end|] eqn:Ee; [|discriminate].
    destruct (nth_error times s) as [t_start|] eqn:Es; [|discriminate].
    cbn [bind] in Hb.
    destruct (Qlt_bool (t_end - t_start) MIN_NOTE_DURATION) eqn:Hd.
    { destruct (IH bins Hsub' Hb) as [H1 H2]. split; [simpl; lia|assumption]. }
    destruct (Hruns s e (Hsub _ (or_introl eq_refl))) as [Hbound Hpos].
    rewrite (filter_all (Qlt_bool 0) (slice s e f0)) in Hb.
    2: { apply slice_Forall; [assumption|].
         intros k Hk. apply Qlt_bool_iff. now apply Hpos. }
    destruct (median (slice s e f0)) as [m|] eqn:Hm.
    2: { destruct (IH bins Hsub' Hb) as [H1 H2]. split; [simpl; lia|assumption]. }
    destruct (bins_of_segments times f0 tol segs) as [rest|]; [|discriminate].
    cbn [bind] in Hb. injection Hb as <-.
    destruct (IH rest Hsub' eq_refl) as [H1 H2].
    split; [simpl; lia|]. constructor; [|assumption].
    cbn [tol_cents nb_start nb_end nb_f0].
    split; [reflexivity|]. split; [now apply Qlt_bool_false_iff|].
    exists s, e. repeat split; try assumption. apply Hsub. now left.
Qed.

(** Every note bin comes from one voiced run that lasts at least the
    minimum duration: it starts at the time of the run's first frame, ends
    at the time of its last frame, carries the median of the run's pitch
    samples and the tolerance handed in; there are no more bins than
    runs. *)
Theorem create_note_bins_bins_from_runs :
  forall (times f0 confidence : list Q) (tolerance_cents : Q) (bins : list NoteBin),
    create_note_bins times f0 confidence tolerance_cents = Some bins ->
    (length bins <= length (voiced_segments (voiced_mask f0 confidence)))%nat
    /\ Forall (fun bin =>
                 tol_cents bin = tolerance_cents
                 /\ MIN_NOTE_DURATION <= nb_end bin - nb_start bin
                 /\ exists s e,
                      In (s, e) (voiced_segments (voiced_mask f0 confidence))
                      /\ nth_error times s = Some (nb_start bin)
                      /\ nth_error times (e - 1) = Some (nb_end bin)
                      /\ median (slice s e f0) = Some (nb_f0 bin)) bins.
Proof.
  intros times f0 confidence tol bins H.
  unfold create_note_bins in H.
  destruct (negb (length f0 =? length confidence)%nat); [discriminate|].
  eapply (bins_of_segments_from_runs times f0 tol (voiced_mask f0 confidence)
            (voiced_segments (voiced_mask f0 confidence))); [|auto|exact H].
  intros s e Hin.
  destruct (runs_ok_In _ _ 0%nat _ s e (voiced_segments_runs _) Hin) as (H1 & H2 & H3).
  pose proof (voiced_mask_length f0 confidence).
  split; [lia|]. intros k Hk. now apply (voiced_mask_nth f0 confidence k), H3.
Qed.

Lemma create_note_bins_bins_from_runs_witness :
  Nat.le
    (length [{| nb_start := 0; nb_end := 2 # 10; nb_f0 := 221; tol_cents := 40 |}])
    (length (voiced_segments
               (voiced_mask [220; 221; 223; 0; 330]
                            [9 # 10; 9 # 10; 9 # 10; 9 # 10; 9 # 10]))).
Proof.
  refine (proj1 (create_note_bins_bins_from_runs
                   [0; 1 # 10; 2 # 10; 3 # 10; 4 # 10] [220; 221; 223; 0; 330]
                   [9 # 10; 9 # 10; 9 # 10; 9 # 10; 9 # 10] 40 _ _)).
  reflexivity.
Defined.

(** Without a voiced frame, that is, where no frame has both [f0 > 0] and a
    confidence above the threshold, there is no note bin, whatever the time
    array. *)
Theorem create_note_bins_unvoiced :
  forall (times f0 confidence : list Q) (tolerance_cents : Q),
    length f0 = length confidence ->
    Forall (fun p => ~ (0 < fst p /\ PITCH_CONF_THRESHOLD < snd p)) (combine f0 confidence) ->
    create_note_bins times f0 confidence tolerance_cents = Some [].
Proof.
  intros times f0 confidence tol Hlen Hun.
  unfold create_note_bins. rewrite Hlen, Nat.eqb_refl. cbn [negb].
  pose proof (voiced_segments_runs (voiced_mask f0 confidence)) as Hruns.
  destruct (voiced_segments (voiced_mask f0 confidence)) as [|[s e] rest]; [reflexivity|].
  exfalso. destruct Hruns as (_ & Hse & He & Hv & _).
  specialize (Hv s ltac:(lia)). apply voiced_mask_nth in Hv.
  unfold voiced_mask in He. rewrite length_map in He.
  rewrite Forall_forall in Hun.
  apply (Hun (nth s (combine f0 confidence) (0, 0))); [apply nth_In; lia|].
  rewrite combine_nth by assumption. exact Hv.
Qed.

Lemma create_note_bins_unvoiced_witness :
  create_note_bins [0; 1 # 50; 2 # 50] [220; 0; 230] [1 # 10; 9 # 10; 3 # 10] 40 = Some [].
Proof.
  apply create_note_bins_unvoiced; [reflexivity|].
  repeat constructor; cbn [fst snd]; intros [H1 H2];
    try (now apply Qlt_irrefl in H1); vm_compute in H2; discriminate.
Defined.

End BinsMore.

(** ** PitchWarper: the grid, the shape of the result, what it needs *)

Section WarperMore.
Import Preprocess Spec.

Lemma map_grid_length (segs : list AlignmentSegment) (grid : list Q) :
  forall mapped, map_grid segs grid = Some mapped -> length mapped = length grid.
Proof.
  induction grid as [|t grid IH]; intros mapped H.
  - injection H as <-. reflexivity.
  - cbn [map_grid] in H.
    destruct (find_segment segs t); [|discriminate]. cbn [bind] in H.
    destruct (map_grid segs grid) as [rest|]; [|discriminate]. cbn [bind] in H.
    injection H as <-. simpl. now rewrite (IH rest eq_refl).
Qed.

Lemma ema_smooth_some (w out : list Q) :
  ema_smooth w = Some out -> w <> [] /\ length out = length w.
Proof.
  destruct w as [|w0 ws]; [discriminate|].
  intros [= <-]. split; [discriminate|]. simpl. now rewrite ema_loop_length.
Qed.

Lemma tk_grid_sorted_from (s n : nat) :
  Sorted Qlt (map (fun i => of_nat i / REF_FPS) (seq s n)).
Proof.
  revert s. induction n as [|n IH]; intro s; [constructor|].
  cbn [seq map]. constructor; [apply IH|].
  destruct n; cbn [seq map]; constructor.
  unfold REF_FPS, Qdiv. apply Qmult_lt_compat_r; [reflexivity|].
  apply of_nat_lt. lia.
Qed.

(** The karaoke grid has one frame per fiftieth of a second, frame [i] at
    time [i / 50], in strictly increasing order. *)
Lemma tk_grid_shape (duration_k : Q) :
  length (tk_grid duration_k) = Z.to_nat (int (duration_k * REF_FPS))
  /\ (forall i, (i < length (tk_grid duration_k))%nat ->
        nth i (tk_grid duration_k) 0 = of_nat i / REF_FPS)
  /\ strictly_increasing (tk_grid duration_k).
Proof.
  unfold tk_grid. split; [now rewrite length_map, length_seq|].
  split; [|apply tk_grid_sorted_from].
  intros i Hi. rewrite length_map, length_seq in Hi.
  now rewrite nth_map_seq.
Qed.

(** When the warper returns, the segment list was not empty and the grid
    has at least one frame; the three arrays have the length of the grid,
    and the grid is [i / 50]. *)
Theorem warp_pitch_to_karaoke_result_shape :
  forall (E : Extern) (times_ref f0_ref conf_ref : list Q)
         (alignment_segments : list AlignmentSegment) (duration_k : Q)
         (grid f0_smooth conf_warped : list Q),
    warp_pitch_to_karaoke E times_ref f0_ref conf_ref alignment_segments duration_k
      = Some (grid, f0_smooth, conf_warped) ->
    alignment_segments <> []
    /\ (1 <= length grid)%nat
    /\ length f0_smooth = length grid
    /\ length conf_warped = length grid
    /\ (forall i, (i < length grid)%nat -> nth i grid 0 = of_nat i / REF_FPS).
Proof.
  intros E times_ref f0_ref conf_ref segs d grid f0s confs H.
  unfold warp_pitch_to_karaoke in H.
  destruct (map_grid segs (tk_grid d)) as [mapped|] eqn:Hm; [|discriminate].
  cbn [bind] in H.
  destruct (interp1d E times_ref f0_ref) as [f0_interp|]; [|discriminate].
  cbn [bind] in H.
  destruct (interp1d E times_ref conf_ref) as [conf_interp|]; [|discriminate].
  cbn [bind] in H.
  destruct (ema_smooth (map f0_interp mapped)) as [smooth|] eqn:He; [|discriminate].
  cbn [bind] in H. injection H as <- <- <-.
  apply ema_smooth_some in He. destruct He as [Hne Hlen].
  pose proof (map_grid_length _ _ _ Hm) as Hgl.
  rewrite length_map in Hlen.
  destruct (tk_grid_shape d) as (Hl & Hn & _).
  assert (Hpos : (1 <= length (tk_grid d))%nat).
  { rewrite <- Hgl. destruct mapped; [now contradiction Hne|simpl; lia]. }
  split.
  { intro Hnil. subst segs. destruct (tk_grid d) as [|t0 g]; [simpl in Hpos; lia|].
    cbn in Hm. discriminate. }
  rewrite length_map. repeat split; try assumption; congruence.
Qed.

Lemma warp_pitch_to_karaoke_result_shape_witness :
  let seg := {| tk_start := 0; tk_end := 1; a := 1; b := 0; quality := 1 |} in
  exists grid f0_smooth conf_warped,
    warp_pitch_to_karaoke diagonal_extern [0; 1 # 50; 2 # 50] [220; 221; 222]
      [9 # 10; 9 # 10; 9 # 10] [seg] (5 # 100) = Some (grid, f0_smooth, conf_warped)
    /\ length f0_smooth = length grid.
Proof.
  intro seg. eexists _, _, _.
  assert (H : warp_pitch_to_karaoke diagonal_extern [0; 1 # 50; 2 # 50] [220; 221; 222]
                [9 # 10; 9 # 10; 9 # 10] [seg] (5 # 100)
              = Some ([0 / 50; 1 / 50],
                      [220; alpha * 221 + (1 - alpha) * 220],
                      [9 # 10; 9 # 10])).
  { vm_compute. reflexivity. }
  split; [exact H|].
  exact (proj1 (proj2 (proj2 (warp_pitch_to_karaoke_result_shape _ _ _ _ _ _ _ _ _ H)))).
Defined.

Lemma ema_step_range (lo hi prev w : Q) :
  lo <= prev <= hi -> lo <= w <= hi -> lo <= ema_step prev w <= hi.
Proof.
  intros Hp Hw. unfold ema_step, alpha.
  destruct (Qlt_bool 0 w && Qlt_bool 0 prev); lra.
Qed.

Lemma ema_loop_range (lo hi : Q) (ws : list Q) :
  forall prev,
    lo <= prev <= hi -> Forall (fun x => lo <= x <= hi) ws ->
    Forall (fun x => lo <= x <= hi) (ema_loop prev ws).
Proof.
  induction ws as [|w ws IH]; intros prev Hp Hws; [constructor|].
  inversion Hws; subst. cbn [ema_loop].
  assert (Hs := ema_step_range lo hi prev w Hp ltac:(assumption)).
  constructor; [assumption|now apply IH].
Qed.

(** In exact arithmetic smoothing never leaves the range of its input:
    bounds that hold for every warped sample hold for every smoothed
    sample.  (In float64 the blend [0.3 * w + 0.7 * prev] is rounded and can
    leave the range by an ulp.) *)
Theorem ema_smooth_stays_in_range :
  forall (f0_warped f0_smooth : list Q) (lo hi : Q),
    Forall (fun x => lo <= x <= hi) f0_warped ->
    ema_smooth f0_warped = Some f0_smooth ->
    Forall (fun x => lo <= x <= hi) f0_smooth.
Proof.
  intros [|w0 ws] out lo hi Hr H; [discriminate|].
  injection H as <-. inversion Hr; subst.
  constructor; [assumption|now apply ema_loop_range].
Qed.

Lemma ema_smooth_stays_in_range_witness :
  Forall (fun x => 0 <= x <= 440) (0 :: ema_loop 0 [220; 440; 0]).
Proof.
  apply (ema_smooth_stays_in_range [0; 220; 440; 0] _ 0 440).
  - repeat constructor; discriminate.
  - reflexivity.
Defined.

Lemma note_bins_on_increasing_times (times f0 confidence : list Q) (tol : Q) :
  strictly_increasing times ->
  length f0 = length times -> length confidence = length times ->
  exists bins,
    create_note_bins times f0 confidence tol = Some bins
    /\ Forall valid_bin bins
    /\ StronglySorted (fun b1 b2 => nb_end b1 < nb_start b2) bins.
Proof.
  intros Hinc Hf Hc.
  unfold create_note_bins. rewrite Hf, Hc, Nat.eqb_refl. cbn [negb].
  destruct (bins_of_segments_valid times f0 tol (voiced_mask f0 confidence)
              (strictly_increasing_strong _ Hinc)) with
    (segs := voiced_segments (voiced_mask f0 confidence)) (lo := 0%nat)
    (hi := length (voiced_mask f0 confidence))
    as (bins & Hb & Hv & _ & Hs).
  - unfold voiced_mask. rewrite length_map, length_combine. lia.
  - apply voiced_segments_runs.
  - exists bins. auto.
Qed.

(** The warper's three arrays always meet what the note-bin segmenter
    needs (a strictly increasing time array and two arrays of its length):
    on the output of a successful warp [create_note_bins] never raises, and
    its bins are valid, in time order and disjoint. *)
Theorem warp_output_feeds_create_note_bins :
  forall (E : Extern) (times_ref f0_ref conf_ref : list Q)
         (alignment_segments : list AlignmentSegment) (duration_k tolerance_cents : Q)
         (grid f0_smooth conf_warped : list Q),
    warp_pitch_to_karaoke E times_ref f0_ref conf_ref alignment_segments duration_k
      = Some (grid, f0_smooth, conf_warped) ->
    exists bins,
      create_note_bins grid f0_smooth conf_warped tolerance_cents = Some bins
      /\ Forall valid_bin bins
      /\ StronglySorted (fun b1 b2 => nb_end b1 < nb_start b2) bins.
Proof.
  intros E times_ref f0_ref conf_ref segs d tol grid f0s confs H.
  unfold warp_pitch_to_karaoke in H.
  destruct (map_grid segs (tk_grid d)) as [mapped|] eqn:Hm; [|discriminate].
  cbn [bind] in H.
  destruct (interp1d E times_ref f0_ref) as [f0_interp|]; [|discriminate].
  cbn [bind] in H.
  destruct (interp1d E times_ref conf_ref) as [conf_interp|]; [|discriminate].
  cbn [bind] in H.
  destruct (ema_smooth (map f0_interp mapped)) as [smooth|] eqn:He; [|discriminate].
  cbn [bind] in H. injection H as <- <- <-.
  apply ema_smooth_some in He. destruct He as [_ Hlen].
  pose proof (map_grid_length _ _ _ Hm) as Hgl.
  rewrite length_map in Hlen.
  apply note_bins_on_increasing_times.
  - apply tk_grid_shape.
  - congruence.
  - rewrite length_map. congruence.
Qed.

Lemma warp_output_feeds_create_note_bins_witness :
  let seg := {| tk_start := 0; tk_end := 1; a := 1; b := 0; quality := 1 |} in
  exists bins,
    create_note_bins [0 / 50; 1 / 50] [220; alpha * 221 + (1 - alpha) * 220]
                     [9 # 10; 9 # 10] 40 = Some bins
    /\ Forall valid_bin bins
    /\ StronglySorted (fun b1 b2 => nb_end b1 < nb_start b2) bins.
Proof.
  intro seg.
  apply (warp_output_feeds_create_note_bins diagonal_extern [0; 1 # 50; 2 # 50]
           [220; 221; 222] [9 # 10; 9 # 10; 9 # 10] [seg] (5 # 100) 40).
  vm_compute. reflexivity.
Defined.

End WarperMore.

(** ** PhraseScorer: range of the metrics, when it raises *)

Section ScorerMore.
Import Refine Spec.

Lemma mean_unit_range (l : list Q) :
  l <> [] -> Forall (fun x => 0 <= x <= 1) l -> 0 <= mean l <= 1.
Proof.
  intros Hne Hall. unfold mean.
  assert (Hsum : 0 <= sum l <= of_nat (length l)).
  { clear Hne. induction Hall as [|x l Hx _ IH].
    - change (sum []) with 0. change (of_nat (length (@nil Q))) with 0. lra.
    - cbn [length]. rewrite sum_cons, of_nat_S. cbv beta in Hx. lra. }
  assert (Hpos : 0 < of_nat (length l)).
  { apply (of_nat_lt 0). destruct l; [congruence|simpl; lia]. }
  split.
  - apply Qle_shift_div_l; lra.
  - apply Qle_shift_div_r; lra.
Qed.

Lemma extract_phrase_pitch_some (times f0 : list Q) (s e : Q) (r : list Q * list Q) :
  extract_phrase_pitch times f0 s e = Some r ->
  length f0 = length times
  /\ r = (phrase_f0 times times s e, phrase_f0 times f0 s e).
Proof.
  unfold extract_phrase_pitch, phrase_f0.
  destruct (length f0 =? length times)%nat eqn:H; [|discriminate].
  apply Nat.eqb_eq in H. intros [= <-]. auto.
Qed.

Lemma extract_phrase_pitch_none (times f0 : list Q) (s e : Q) :
  extract_phrase_pitch times f0 s e = None <-> length f0 <> length times.
Proof.
  unfold extract_phrase_pitch.
  destruct (length f0 =? length times)%nat eqn:H.
  - apply Nat.eqb_eq in H. split; [discriminate|contradiction].
  - apply Nat.eqb_neq in H. tauto.
Qed.

Lemma calculate_phrase_metrics_range (E : Extern)
    (ref_times ref_pitch singer_times singer_pitch : list Q) (ps pe : Q)
    (m : PhraseMetrics) :
  calculate_phrase_metrics E ref_times ref_pitch singer_times singer_pitch ps pe = Some m ->
  on_beat_pct m = accuracy m /\ 0 <= accuracy m <= 1.
Proof.
  unfold calculate_phrase_metrics.
  destruct (extract_phrase_pitch ref_times ref_pitch ps pe) as [[ref_t ref_f0]|];
    [|discriminate].
  destruct (extract_phrase_pitch singer_times singer_pitch ps pe) as [[singer_t singer_f0]|];
    [|discriminate].
  cbn [bind].
  destruct ((length ref_f0 =? 0)%nat || (length singer_f0 =? 0)%nat).
  { intros [= <-]. cbn. split; [reflexivity|lra]. }
  destruct (align_phrase_dtw E ref_f0 singer_f0) as [[[cost ref_idx] singer_idx]|];
    [|discriminate].
  cbn [bind].
  destruct (length ref_idx =? 0)%nat.
  { intros [= <-]. cbn. split; [reflexivity|lra]. }
  destruct (log2_pairs ref_f0 singer_f0 (combine ref_idx singer_idx)) as [pairs|];
    [|discriminate].
  cbn [bind].
  destruct (median (map (cents_error E) pairs)) as [med|] eqn:Hmed.
  2: { intros [= <-]. cbn. split; [reflexivity|lra]. }
  intros [= <-]. cbn [on_beat_pct accuracy]. split; [reflexivity|].
  set (cents := map (cents_error E) pairs) in *.
  assert (Hpos : 0 < of_nat (length cents)).
  { apply (of_nat_lt 0). destruct cents; [discriminate|simpl; lia]. }
  pose proof (of_nat_nonneg (length (filter (fun e => Qle_bool (Qabs e) 50) cents))) as H0.
  pose proof (of_nat_le _ _ (filter_length_le (fun e => Qle_bool (Qabs e) 50) cents)) as H1.
  split.
  - apply Qle_shift_div_l; lra.
  - apply Qle_shift_div_r; lra.
Qed.

(** Whatever the phrase and the contours, a result of
    [calculate_phrase_metrics] has an accuracy between 0 and 1 and an
    [on_beat_pct] equal to it. *)
Theorem calculate_phrase_metrics_accuracy_range :
  forall (E : Extern) (ref_times ref_pitch singer_times singer_pitch : list Q)
         (phrase_start phrase_end : Q) (metrics : PhraseMetrics),
    calculate_phrase_metrics E ref_times ref_pitch singer_times singer_pitch
                             phrase_start phrase_end = Some metrics ->
    on_beat_pct metrics = accuracy metrics /\ 0 <= accuracy metrics <= 1.
Proof.
  intros. eapply calculate_phrase_metrics_range. eassumption.
Qed.

Lemma calculate_phrase_metrics_accuracy_range_witness :
  exists metrics,
    calculate_phrase_metrics diagonal_extern
      [0; 1 # 50; 2 # 50; 3 # 50] [220; 221; 219; 220]
      [0; 1 # 50; 2 # 50; 3 # 50] [220; 330; 0; 0] 0 1 = Some metrics
    /\ on_beat_pct metrics = accuracy metrics /\ 0 <= accuracy metrics <= 1.
Proof.
  destruct (calculate_phrase_metrics diagonal_extern
              [0; 1 # 50; 2 # 50; 3 # 50] [220; 221; 219; 220]
              [0; 1 # 50; 2 # 50; 3 # 50] [220; 330; 0; 0] 0 1) as [m|] eqn:H;
    [|vm_compute in H; discriminate].
  exists m. split; [reflexivity|].
  exact (calculate_phrase_metrics_accuracy_range _ _ _ _ _ _ _ _ H).
Defined.

(** With the warping path a Python list, the only results are the
    degenerate ones. *)
Lemma calculate_phrase_metrics_list_degenerate (E : Extern)
    (ref_times ref_pitch singer_times singer_pitch : list Q) (ps pe : Q)
    (m : PhraseMetrics) :
  returns_list E ->
  calculate_phrase_metrics E ref_times ref_pitch singer_times singer_pitch ps pe = Some m ->
  m = degenerate 1.
Proof.
  intro Hlist. unfold calculate_phrase_metrics.
  destruct (extract_phrase_pitch ref_times ref_pitch ps pe) as [[ref_t ref_f0]|];
    [|discriminate].
  destruct (extract_phrase_pitch singer_times singer_pitch ps pe) as [[singer_t singer_f0]|];
    [|discriminate].
  cbn [bind].
  destruct ((length ref_f0 =? 0)%nat || (length singer_f0 =? 0)%nat).
  { now intros [= <-]. }
  unfold align_phrase_dtw.
  destruct ((length (filter (Qlt_bool 0) ref_f0) <? 3)%nat
            || (length (filter (Qlt_bool 0) singer_f0) <? 3)%nat).
  - cbn [bind length Nat.eqb]. now intros [= <-].
  - rewrite Hlist. cbn [column bind]. discriminate.
Qed.

(** With dtaidistance's warping path (a Python list),
    [calculate_phrase_metrics] raises exactly when a pitch array and its
    time array differ in length, or when the phrase window holds three or
    more voiced samples of the reference and of the singer: the path is
    then indexed as an array ([path[:, 0]], TypeError). *)
Theorem calculate_phrase_metrics_raises_iff :
  forall (E : Extern) (ref_times ref_pitch singer_times singer_pitch : list Q)
         (phrase_start phrase_end : Q),
    returns_list E ->
    (calculate_phrase_metrics E ref_times ref_pitch singer_times singer_pitch
                              phrase_start phrase_end = None
     <-> (length ref_pitch <> length ref_times
          \/ length singer_pitch <> length singer_times
          \/ ((3 <= length (phrase_voiced ref_times ref_pitch phrase_start phrase_end))%nat
              /\ (3 <= length (phrase_voiced singer_times singer_pitch
                                             phrase_start phrase_end))%nat))).
Proof.
  intros E rt rp st sp ps pe Hlist.
  destruct (Nat.eq_dec (length rp) (length rt)) as [Hr|Hr].
  2: { split; [intros _; now left|intros _].
       unfold calculate_phrase_metrics.
       apply (extract_phrase_pitch_none rt rp ps pe) in Hr. now rewrite Hr. }
  destruct (Nat.eq_dec (length sp) (length st)) as [Hs|Hs].
  2: { split; [intros _; right; now left|intros _].
       unfold calculate_phrase_metrics.
       apply (extract_phrase_pitch_none st sp ps pe) in Hs. rewrite Hs.
       now destruct (extract_phrase_pitch rt rp ps pe) as [[? ?]|]. }
  unfold calculate_phrase_metrics, phrase_voiced.
  rewrite (extract_phrase_pitch_parallel _ _ _ _ Hr),
          (extract_phrase_pitch_parallel _ _ _ _ Hs).
  cbn [bind].
  set (ref_f0 := phrase_f0 rt rp ps pe).
  set (singer_f0 := phrase_f0 st sp ps pe).
  pose proof (filter_length_le (Qlt_bool 0) ref_f0) as Hler.
  pose proof (filter_length_le (Qlt_bool 0) singer_f0) as Hles.
  destruct ((length ref_f0 =? 0)%nat || (length singer_f0 =? 0)%nat) eqn:Hz.
  { split; [discriminate|]. intros [H|[H|[H1 H2]]]; try contradiction.
    apply orb_true_iff in Hz. destruct Hz as [Hz|Hz]; apply Nat.eqb_eq in Hz; lia. }
  unfold align_phrase_dtw.
  destruct (length (filter (Qlt_bool 0) ref_f0) <? 3)%nat eqn:H1;
    [apply Nat.ltb_lt in H1|apply Nat.ltb_ge in H1].
  { cbn [orb bind length Nat.eqb]. split; [discriminate|].
    intros [H|[H|[H2 H3]]]; try contradiction. lia. }
  destruct (length (filter (Qlt_bool 0) singer_f0) <? 3)%nat eqn:H2;
    [apply Nat.ltb_lt in H2|apply Nat.ltb_ge in H2].
  { cbn [orb bind length Nat.eqb]. split; [discriminate|].
    intros [H|[H|[H3 H4]]]; try contradiction. lia. }
  cbn [orb]. rewrite Hlist. cbn [column bind].
  split; [intros _; right; right; split; assumption|reflexivity].
Qed.

Lemma calculate_phrase_metrics_raises_iff_witness :
  calculate_phrase_metrics diagonal_extern
    [0; 1 # 50; 2 # 50; 3 # 50] [220; 221; 0; 222]
    [0; 1 # 50; 2 # 50; 3 # 50] [219; 0; 223; 224] 0 1 = None.
Proof.
  apply (calculate_phrase_metrics_raises_iff diagonal_extern);
    [exact diagonal_extern_returns_list|].
  right. right. split; vm_compute; lia.
Defined.

End ScorerMore.

(** ** Refinement stage: what the result holds *)

Section RefineMore.
Import Refine Spec.

(** Each refined phrase is its input phrase with the metrics of that
    phrase's window. *)
Lemma refine_phrases_each (E : Extern) (rt rp pt pp : list Q) (phrases : list Phrase) :
  forall refined,
    refine_phrases E rt rp pt pp phrases = Some refined ->
    Forall2 (fun ph r =>
               rp_id r = id ph /\ rp_start r = start ph /\ rp_end r = end_ ph
               /\ calculate_phrase_metrics E rt rp pt pp (start ph) (end_ ph)
                  = Some (rp_metrics r))
            phrases refined.
Proof.
  induction phrases as [|ph phrases IH]; intros refined H.
  - injection H as <-. constructor.
  - cbn [refine_phrases] in H.
    destruct (calculate_phrase_metrics E rt rp pt pp (start ph) (end_ ph)) as [m|] eqn:Hm;
      [|discriminate].
    cbn [bind] in H.
    destruct (refine_phrases E rt rp pt pp phrases) as [rest|]; [|discriminate].
    cbn [bind] in H. injection H as <-.
    constructor; [cbn; auto|]. now apply IH.
Qed.

(** The result of [refine_results] lists the input phrases in their order
    with the ids and bounds unchanged, [phrase_accuracy] is the list of
    their accuracies, every accuracy and the overall accuracy lie between 0
    and 1, and [on_beat_pct] repeats the accuracy. *)
Theorem refine_results_keeps_phrases :
  forall (E : Extern) (reference : Reference) (performance : Performance) (r : Refined),
    refine_results E reference performance = Some r ->
    map rp_id (phrases r) = map id (get (phrases_k reference))
    /\ map rp_start (phrases r) = map start (get (phrases_k reference))
    /\ map rp_end (phrases r) = map end_ (get (phrases_k reference))
    /\ phrase_accuracy r = map (fun p => accuracy (rp_metrics p)) (phrases r)
    /\ Forall (fun p => 0 <= accuracy (rp_metrics p) <= 1
                        /\ on_beat_pct (rp_metrics p) = accuracy (rp_metrics p))
              (phrases r)
    /\ 0 <= overall_accuracy r <= 1.
Proof.
  intros E reference performance r H.
  unfold refine_results in H.
  destruct (refine_phrases E _ _ _ _ (get (phrases_k reference))) as [refined|] eqn:Hr;
    [|discriminate].
  cbn [bind] in H.
  destruct (generate_pitch_chart E _ _ _ _) as [chart|]; [|discriminate].
  cbn [bind] in H. injection H as <-.
  cbn [phrases phrase_accuracy overall_accuracy].
  apply refine_phrases_each in Hr.
  remember (get (phrases_k reference)) as input eqn:Hin. clear Hin.
  assert (Hid : map rp_id refined = map id input).
  { induction Hr as [|ph p phs ps (H1 & _) _ IH]; [reflexivity|].
    cbn [map]. f_equal; assumption. }
  assert (Hst : map rp_start refined = map start input).
  { clear Hid. induction Hr as [|ph p phs ps (_ & H1 & _) _ IH]; [reflexivity|].
    cbn [map]. f_equal; assumption. }
  assert (Hen : map rp_end refined = map end_ input).
  { clear Hid Hst. induction Hr as [|ph p phs ps (_ & _ & H1 & _) _ IH]; [reflexivity|].
    cbn [map]. f_equal; assumption. }
  assert (Hrange : Forall (fun p => 0 <= accuracy (rp_metrics p) <= 1
                                     /\ on_beat_pct (rp_metrics p) = accuracy (rp_metrics p))
                          refined).
  { clear Hid Hst Hen.
    induction Hr as [|ph p phs ps (_ & _ & _ & Hm) _ IH]; constructor; [|assumption].
    apply calculate_phrase_metrics_range in Hm. tauto. }
  split; [exact Hid|]. split; [exact Hst|]. split; [exact Hen|].
  split; [reflexivity|]. split; [exact Hrange|].
  destruct refined as [|p0 ps]; [lra|].
  apply mean_unit_range; [discriminate|].
  rewrite Forall_map. eapply Forall_impl; [|exact Hrange].
  intros p Hp. cbv beta in Hp |- *. tauto.
Qed.

Lemma refine_results_keeps_phrases_witness :
  let reference :=
    {| phrases_k := Some [{| id := 7; start := 0; end_ := 1 |};
                          {| id := 9; start := 2; end_ := 5 |}];
       f0_ref_on_k := Some [] |} in
  let performance := {| timestamps := Some []; pitch := Some [] |} in
  exists r,
    refine_results diagonal_extern reference performance = Some r
    /\ map rp_id (phrases r) = [7%Z; 9%Z].
Proof.
  intros reference performance.
  destruct (refine_results diagonal_extern reference performance) as [r|] eqn:H;
    [|vm_compute in H; discriminate].
  exists r. split; [reflexivity|].
  exact (proj1 (refine_results_keeps_phrases _ _ _ _ H)).
Defined.

Lemma compress_nil_r (mask : list bool) : compress mask [] = [].
Proof. unfold compress. destruct mask; reflexivity. Qed.

Lemma refine_phrases_no_samples (E : Extern) (rt rp : list Q) (phrases : list Phrase) :
  length rp = length rt ->
  refine_phrases E rt rp [] [] phrases
    = Some (map (fun ph => {| rp_id := id ph; rp_start := start ph; rp_end := end_ ph;
                              rp_metrics := degenerate 1 |}) phrases).
Proof.
  intro Hlen. induction phrases as [|ph phrases IH]; [reflexivity|].
  cbn [refine_phrases map]. rewrite IH.
  unfold calculate_phrase_metrics.
  rewrite (extract_phrase_pitch_parallel _ _ _ _ Hlen).
  cbn [bind extract_phrase_pitch length Nat.eqb map].
  rewrite compress_nil_r. cbn [length Nat.eqb]. rewrite orb_true_r. reflexivity.
Qed.

(** A performance without samples (the keys missing, or empty arrays) is
    scored without an error: every phrase gets the degenerate metrics, the
    overall accuracy and median error are zero and the chart is empty. *)
Theorem refine_results_empty_performance :
  forall (E : Extern) (reference : Reference) (performance : Performance),
    get (timestamps performance) = [] ->
    get (pitch performance) = [] ->
    exists r,
      refine_results E reference performance = Some r
      /\ phrases r
         = map (fun ph => {| rp_id := id ph; rp_start := start ph; rp_end := end_ ph;
                             rp_metrics := degenerate 1 |})
               (get (phrases_k reference))
      /\ overall_accuracy r == 0
      /\ overall_median_cents_error r == 0
      /\ pitch_timeline r = [].
Proof.
  intros E reference performance Ht Hp.
  unfold refine_results. rewrite Ht, Hp.
  rewrite refine_phrases_no_samples by (now rewrite !length_map).
  cbn [bind]. unfold generate_pitch_chart. cbn [length Nat.eqb].
  rewrite orb_true_r. cbn [bind].
  eexists. split; [reflexivity|].
  cbn [phrases overall_accuracy overall_median_cents_error pitch_timeline].
  rewrite !map_map. cbn [rp_metrics degenerate accuracy median_cents_error].
  split; [reflexivity|]. split; [|split; [|reflexivity]].
  - destruct (get (phrases_k reference)) as [|ph phs]; [reflexivity|].
    cbn [map]. unfold mean.
    rewrite <- (map_cons (fun _ : Phrase => 0) ph phs), sum_map_zero by reflexivity.
    unfold Qdiv. ring.
  - destruct (median (map (fun _ : Phrase => 0) (get (phrases_k reference)))) as [m|] eqn:Hm;
      [|reflexivity].
    destruct (median_all_zero (map (fun _ : Phrase => 0) (get (phrases_k reference))))
      as (m' & Hm' & Hz).
    + intro H0. rewrite H0 in Hm. discriminate.
    + rewrite Forall_map. apply Forall_forall. reflexivity.
    + congruence.
Qed.

Lemma refine_results_empty_performance_witness :
  exists r,
    refine_results diagonal_extern
      {| phrases_k := Some [{| id := 1; start := 0; end_ := 3 |}];
         f0_ref_on_k := Some [{| t := 0; f0 := 220 |}; {| t := 1; f0 := 221 |}] |}
      {| timestamps := None; pitch := None |} = Some r
    /\ overall_accuracy r == 0.
Proof.
  destruct (refine_results_empty_performance diagonal_extern
              {| phrases_k := Some [{| id := 1; start := 0; end_ := 3 |}];
                 f0_ref_on_k := Some [{| t := 0; f0 := 220 |}; {| t := 1; f0 := 221 |}] |}
              {| timestamps := None; pitch := None |} eq_refl eq_refl)
    as (r & H1 & _ & H2 & _).
  exists r. split; assumption.
Defined.

End RefineMore.

(** ** Reference document and replay *)

Section ReplayMore.
Import Refine Builder Spec.

Lemma compress_Forall (P : Q -> Prop) (mask : list bool) :
  forall l, Forall P l -> Forall P (compress mask l).
Proof.
  unfold compress.
  induction mask as [|m mask IH]; intros l Hl; [constructor|].
  destruct Hl as [|x l Hx Hl]; [constructor|].
  cbn [combine filter fst]. destruct m; cbn [map snd].
  - constructor; [assumption|now apply IH].
  - now apply IH.
Qed.

Lemma build_reference_json_voiced_only_aux (times_k f0_warped conf_warped : list Q)
    (phrases : list Phrase) :
  Forall (fun p => 0 < f0 p)
         (get (f0_ref_on_k (build_reference_json times_k f0_warped conf_warped phrases))).
Proof.
  unfold build_reference_json, build_f0_ref_on_k. cbn [get f0_ref_on_k].
  rewrite !Forall_map. cbn [f0 s_f0]. apply Forall_forall. intros p Hp.
  apply filter_In in Hp. now apply Qlt_bool_iff.
Qed.

(** The reference document holds voiced samples only, in the order of the
    frames, together with the phrases handed in. *)
Theorem build_reference_json_voiced_only :
  forall (times_k f0_warped conf_warped : list Q) (phrases : list Phrase),
    let reference := build_reference_json times_k f0_warped conf_warped phrases in
    Forall (fun p => 0 < f0 p) (get (f0_ref_on_k reference))
    /\ get (phrases_k reference) = phrases
    /\ (length f0_warped = length times_k ->
        length conf_warped = length times_k ->
        map f0 (get (f0_ref_on_k reference)) = filter (Qlt_bool 0) f0_warped)
    /\ (length (get (f0_ref_on_k reference)) <= length f0_warped)%nat.
Proof.
  intros times_k f0_warped conf_warped phrases reference.
  unfold reference, build_reference_json, build_f0_ref_on_k. clear reference.
  cbn [get f0_ref_on_k phrases_k]. rewrite !map_map. cbn [f0 s_f0 t s_t].
  split; [|split; [reflexivity|split]].
  - rewrite Forall_map. apply Forall_forall. intros p Hp.
    apply filter_In in Hp. now apply Qlt_bool_iff.
  - revert f0_warped conf_warped.
    induction times_k as [|tk times_k IH]; intros [|x f0w] [|c confw] Hf Hc;
      try discriminate; [reflexivity|].
    cbn [combine filter fst snd]. injection Hf as Hf. injection Hc as Hc.
    destruct (Qlt_bool 0 x); cbn [map fst snd]; [f_equal|]; now apply IH.
  - rewrite length_map.
    etransitivity; [apply filter_length_le|].
    rewrite !length_combine. lia.
Qed.

Lemma replay_phrase_metrics (E : Extern) (times pitch : list Q) (ps pe : Q) (m : PhraseMetrics) :
  returns_array E -> log2_of_one E -> diagonal_on_equal E ->
  Forall (fun x => 0 < x) pitch ->
  calculate_phrase_metrics E times pitch times pitch ps pe = Some m ->
  m = degenerate 1 \/ perfect_score m.
Proof.
  intros Harr Hlog Hdiag Hpos Hm.
  assert (Hm' := Hm). unfold calculate_phrase_metrics in Hm'.
  destruct (extract_phrase_pitch times pitch ps pe) as [r|] eqn:He; [|discriminate].
  apply extract_phrase_pitch_some in He. destruct He as [Hlen ->].
  cbn [bind] in Hm'.
  set (f := phrase_f0 times pitch ps pe) in *.
  assert (Hfpos : Forall (fun x => 0 < x) f) by (now apply compress_Forall).
  destruct ((length f =? 0)%nat || (length f =? 0)%nat) eqn:Hz.
  { injection Hm' as <-. now left. }
  destruct (Nat.lt_ge_cases (length f) 3) as [Hfew|Hmany].
  - left. unfold align_phrase_dtw in Hm'.
    assert (Hlt : (length (filter (Qlt_bool 0) f) <? 3)%nat = true).
    { apply Nat.ltb_lt. pose proof (filter_length_le (Qlt_bool 0) f). lia. }
    rewrite Hlt in Hm'. cbn [orb bind length Nat.eqb] in Hm'. now injection Hm' as <-.
  - right.
    destruct (exact_match_fully_voiced E times pitch ps pe Harr Hlog Hdiag Hlen Hfpos Hmany)
      as (m' & Hm'' & Hperfect).
    rewrite Hm in Hm''. injection Hm'' as <-. exact Hperfect.
Qed.

(** Round trip with the path as an array.  Replaying the samples of a
    reference document built by [build_reference_json] as the performance
    scores every phrase either with the degenerate metrics (fewer than
    three samples in its window) or perfectly: accuracy 1, median error 0,
    timing offset 0.  The DTW routine is assumed to return the diagonal on
    equal sequences, and [log2 1 = 0]. *)
Lemma refine_results_replay_with_array_path
    (E : Extern) (times_k f0_warped conf_warped : list Q) (phrases : list Phrase)
    (r : Refined) :
  returns_array E ->
  log2_of_one E ->
  diagonal_on_equal E ->
  let reference := build_reference_json times_k f0_warped conf_warped phrases in
  refine_results E reference (replay reference) = Some r ->
  Forall (fun p => rp_metrics p = degenerate 1 \/ perfect_score (rp_metrics p))
         (Refine.phrases r).
Proof.
  intros Harr Hlog Hdiag reference H.
  rename f0_warped into f0w, conf_warped into confw.
  pose proof (build_reference_json_voiced_only_aux times_k f0w confw phrases) as Hpos.
  fold reference in Hpos.
  unfold refine_results, replay in H. cbn [get timestamps pitch] in H.
  destruct (refine_phrases E _ _ _ _ (get (phrases_k reference))) as [refined|] eqn:Hr;
    [|discriminate].
  cbn [bind] in H.
  destruct (generate_pitch_chart E _ _ _ _) as [chart|]; [|discriminate].
  cbn [bind] in H. injection H as <-. cbn [Refine.phrases].
  apply refine_phrases_each in Hr.
  remember (get (phrases_k reference)) as input eqn:Hin. clear Hin.
  induction Hr as [|ph p phs ps (_ & _ & _ & Hm) _ IH]; constructor; [|assumption].
  eapply replay_phrase_metrics; try eassumption.
  now rewrite Forall_map.
Qed.

End ReplayMore.

Section ReplayWitnesses.
Import Refine Builder Spec.

Lemma build_reference_json_voiced_only_witness :
  map f0 (get (f0_ref_on_k (build_reference_json [0; 1 # 50; 2 # 50] [220; 0; 221]
                                                 [9 # 10; 9 # 10; 1 # 10] [])))
    = filter (Qlt_bool 0) [220; 0; 221].
Proof.
  refine (proj1 (proj2 (proj2 (build_reference_json_voiced_only
                                 [0; 1 # 50; 2 # 50] [220; 0; 221]
                                 [9 # 10; 9 # 10; 1 # 10] []))) _ _); reflexivity.
Defined.

Lemma refine_results_replay_with_array_path_example :
  exists r,
    refine_results diagonal_array_extern
      (build_reference_json [0; 1 # 50; 2 # 50; 3 # 50] [220; 0; 221; 222]
                            [9 # 10; 9 # 10; 9 # 10; 9 # 10]
                            [{| id := 1; start := 0; end_ := 1 |}])
      (replay (build_reference_json [0; 1 # 50; 2 # 50; 3 # 50] [220; 0; 221; 222]
                                    [9 # 10; 9 # 10; 9 # 10; 9 # 10]
                                    [{| id := 1; start := 0; end_ := 1 |}])) = Some r
    /\ Forall (fun p => perfect_score (rp_metrics p)) (Refine.phrases r).
Proof.
  eexists. split; [vm_compute; reflexivity|].
  repeat constructor.
Qed.

(** With dtaidistance's warping path (a Python list) the refinement stage
    never scores a phrase: whenever [refine_results] returns, every phrase
    carries the degenerate metrics (accuracy 0, [dtw_cost] 1.0), so the
    overall accuracy and median error are zero; a phrase with three or
    more voiced samples on both sides makes the whole call raise. *)
Theorem refine_results_only_degenerate :
  forall (E : Extern) (reference : Reference) (performance : Performance) (r : Refined),
    returns_list E ->
    refine_results E reference performance = Some r ->
    Forall (fun p => rp_metrics p = degenerate 1) (Refine.phrases r)
    /\ Forall (fun acc => acc = 0) (phrase_accuracy r)
    /\ overall_accuracy r == 0
    /\ overall_median_cents_error r == 0.
Proof.
  intros E reference performance r Hlist H.
  unfold refine_results in H.
  destruct (refine_phrases E _ _ _ _ (get (phrases_k reference))) as [refined|] eqn:Hr;
    [|discriminate].
  cbn [bind] in H.
  destruct (generate_pitch_chart E _ _ _ _) as [chart|]; [|discriminate].
  cbn [bind] in H. injection H as <-.
  cbn [Refine.phrases phrase_accuracy overall_accuracy overall_median_cents_error].
  apply refine_phrases_each in Hr.
  remember (get (phrases_k reference)) as input eqn:Hin. clear Hin.
  assert (Hdeg : Forall (fun p => rp_metrics p = degenerate 1) refined).
  { induction Hr as [|ph p phs ps (_ & _ & _ & Hm) _ IH]; constructor; [|assumption].
    eapply calculate_phrase_metrics_list_degenerate; eassumption. }
  clear Hr.
  assert (Hacc : Forall (fun acc => acc = 0)
                        (map (fun p => accuracy (rp_metrics p)) refined)).
  { rewrite Forall_map. eapply Forall_impl; [|exact Hdeg].
    intros p Hp. cbv beta in Hp |- *. now rewrite Hp. }
  assert (Hmed : Forall (fun e => e == 0)
                        (map (fun p => median_cents_error (rp_metrics p)) refined)).
  { rewrite Forall_map. eapply Forall_impl; [|exact Hdeg].
    intros p Hp. cbv beta in Hp |- *. rewrite Hp. reflexivity. }
  split; [exact Hdeg|]. split; [exact Hacc|]. split.
  - destruct refined as [|p0 ps]; [reflexivity|].
    unfold mean.
    assert (Hsum : sum (map (fun p => accuracy (rp_metrics p)) (p0 :: ps)) == 0).
    { clear -Hacc. induction Hacc as [|x l Hx _ IH]; [reflexivity|].
      rewrite sum_cons, IH, Hx. reflexivity. }
    rewrite Hsum. unfold Qdiv. ring.
  - destruct (median (map (fun p => median_cents_error (rp_metrics p)) refined))
      as [m|] eqn:Hm; [|reflexivity].
    destruct (median_all_zero _ ltac:(intro H0; rewrite H0 in Hm; discriminate) Hmed)
      as (m' & Hm' & Hz).
    congruence.
Qed.

Lemma refine_results_only_degenerate_witness :
  exists r,
    refine_results diagonal_extern
      {| phrases_k := Some [{| id := 1; start := 0; end_ := 1 |};
                            {| id := 2; start := 1; end_ := 2 |}];
         f0_ref_on_k := Some [{| t := 0; f0 := 220 |}; {| t := 1 # 2; f0 := 221 |};
                              {| t := 3 # 2; f0 := 222 |}] |}
      {| timestamps := Some [0; 1 # 2; 3 # 2]; pitch := Some [219; 0; 223] |} = Some r
    /\ Forall (fun p => rp_metrics p = degenerate 1) (Refine.phrases r).
Proof.
  destruct (refine_results diagonal_extern
      {| phrases_k := Some [{| id := 1; start := 0; end_ := 1 |};
                            {| id := 2; start := 1; end_ := 2 |}];
         f0_ref_on_k := Some [{| t := 0; f0 := 220 |}; {| t := 1 # 2; f0 := 221 |};
                              {| t := 3 # 2; f0 := 222 |}] |}
      {| timestamps := Some [0; 1 # 2; 3 # 2]; pitch := Some [219; 0; 223] |})
    as [r|] eqn:H; [|vm_compute in H; discriminate].
  exists r. split; [reflexivity|].
  exact (proj1 (refine_results_only_degenerate diagonal_extern _ _ r
                  diagonal_extern_returns_list H)).
Defined.

End ReplayWitnesses.

(** ** The pitch chart *)

Section ChartMore.
Import Refine Spec.

Lemma linspace_ends (start stop : Q) (m : nat) :
  nth 0 (linspace start stop (S (S m))) 0 == start
  /\ nth (S m) (linspace start stop (S (S m))) 0 = stop.
Proof.
  unfold linspace. split.
  - rewrite app_nth1 by (rewrite length_map, length_seq; lia).
    rewrite nth_map_seq by lia. cbn [Nat.add]. unfold of_nat. simpl inject_Z. ring.
  - rewrite app_nth2 by (rewrite length_map, length_seq; lia).
    rewrite length_map, length_seq, Nat.sub_diag. reflexivity.
Qed.

(** The chart is empty, without an error, when either time array is empty;
    otherwise, when the two interpolators can be built, it has 500 points
    whose times run from the earlier of the two first times to the later of
    the two last times. *)
Theorem generate_pitch_chart_shape :
  forall (E : Extern) (ref_times ref_pitch perf_times perf_pitch : list Q) (d : ChartPoint),
    (ref_times = [] \/ perf_times = [] ->
     generate_pitch_chart E ref_times ref_pitch perf_times perf_pitch = Some [])
    /\ (forall chart,
          ref_times <> [] -> perf_times <> [] ->
          generate_pitch_chart E ref_times ref_pitch perf_times perf_pitch = Some chart ->
          length chart = 500%nat
          /\ cp_t (nth 0 chart d) == py_min (hd 0 ref_times) (hd 0 perf_times)
          /\ cp_t (nth 499 chart d) = py_max (last ref_times 0) (last perf_times 0)).
Proof.
  intros E rt rp pt pp d. unfold generate_pitch_chart. split.
  - intros [-> | ->]; cbn [length Nat.eqb orb]; [reflexivity|].
    now rewrite orb_true_r.
  - intros chart Hr Hp.
    destruct rt as [|r0 rt']; [congruence|]. destruct pt as [|p0 pt']; [congruence|].
    cbn [length Nat.eqb orb].
    destruct (interp1d E (r0 :: rt') rp) as [fr|]; [|discriminate]. cbn [bind].
    destruct (interp1d E (p0 :: pt') pp) as [fp|]; [|discriminate]. cbn [bind].
    set (t_min := py_min _ _). set (t_max := py_max _ _).
    set (g := fun t => {| cp_t := t; cp_ref_f0 := fr t; cp_perf_f0 := fp t |}).
    intro Hc.
    assert (Hchart : chart = map g (linspace t_min t_max 500)) by congruence.
    clear Hc. subst chart.
    assert (Hlen : length (map g (linspace t_min t_max 500)) = 500%nat)
      by (now rewrite length_map, linspace_length).
    destruct (linspace_ends t_min t_max 498) as [H0 H1].
    split; [exact Hlen|].
    rewrite !(nth_indep _ d (g 0)) by (rewrite Hlen; lia).
    rewrite !(map_nth g). cbn [cp_t g]. split; assumption.
Qed.

Lemma generate_pitch_chart_shape_witness :
  generate_pitch_chart diagonal_extern [] [] [0; 1] [220; 221] = Some [].
Proof.
  apply (proj1 (generate_pitch_chart_shape diagonal_extern [] [] [0; 1] [220; 221]
                  {| cp_t := 0; cp_ref_f0 := 0; cp_perf_f0 := 0 |})).
  now left.
Defined.

End ChartMore.

(** ** Phrase detection *)

Section PhrasesMore.
Import Refine Builder Spec.

Lemma phrases_between_each (onsets : list Q) :
  forall i,
    Forall (fun p => 2 < end_ p - start p
                     /\ In (start p) onsets /\ In (end_ p) onsets
                     /\ (Z.of_nat i + 1 <= id p <= Z.of_nat i + Z.of_nat (length onsets) - 1)%Z)
           (phrases_between i onsets)
    /\ (length (phrases_between i onsets) <= length onsets - 1)%nat.
Proof.
  induction onsets as [|s onsets IH]; intro i; [split; [constructor|simpl; lia]|].
  destruct onsets as [|e rest]; [split; [constructor|simpl; lia]|].
  destruct (IH (S i)) as [Hall Hlen].
  assert (Hall' : Forall (fun p => 2 < end_ p - start p
                     /\ In (start p) (s :: e :: rest) /\ In (end_ p) (s :: e :: rest)
                     /\ (Z.of_nat i + 1 <= id p
                         <= Z.of_nat i + Z.of_nat (length (s :: e :: rest)) - 1)%Z)
                   (phrases_between (S i) (e :: rest))).
  { eapply Forall_impl; [|exact Hall]. intros p (H1 & H2 & H3 & H4).
    repeat split; try assumption; try (now right); cbn [length] in *; lia. }
  change (phrases_between i (s :: e :: rest))
    with (if Qlt_bool 2 (e - s)
          then {| id := Z.of_nat (i + 1); start := s; end_ := e |}
               :: phrases_between (S i) (e :: rest)
          else phrases_between (S i) (e :: rest)).
  destruct (Qlt_bool 2 (e - s)) eqn:Hd.
  - split; [|cbn [length] in *; lia].
    constructor; [|assumption]. cbn [id start end_].
    split; [now apply Qlt_bool_iff|]. split; [now left|]. split; [right; now left|].
    cbn [length]. lia.
  - split; [assumption|cbn [length] in *; lia].
Qed.

Lemma phrases_between_ordered (onsets : list Q) :
  forall i,
    StronglySorted Qle onsets ->
    StronglySorted (fun p q => end_ p <= start q) (phrases_between i onsets).
Proof.
  induction onsets as [|s onsets IH]; intros i Hs; [constructor|].
  destruct onsets as [|e rest]; [constructor|].
  inversion Hs as [|? ? Hs' _]; subst.
  specialize (IH (S i) Hs').
  change (phrases_between i (s :: e :: rest))
    with (if Qlt_bool 2 (e - s)
          then {| id := Z.of_nat (i + 1); start := s; end_ := e |}
               :: phrases_between (S i) (e :: rest)
          else phrases_between (S i) (e :: rest)).
  destruct (Qlt_bool 2 (e - s)); [|assumption].
  constructor; [assumption|].
  destruct (phrases_between_each (e :: rest) (S i)) as [Hall _].
  eapply Forall_impl; [|exact Hall]. intros p (_ & Hin & _). cbn [end_].
  inversion Hs' as [|? ? _ He]; subst. rewrite Forall_forall in He.
  destruct Hin as [<-|Hin]; [apply Qle_refl|now apply He].
Qed.

Lemma StronglySorted_snoc {A : Type} (R : A -> A -> Prop) (l : list A) (y : A) :
  StronglySorted R l -> Forall (fun x => R x y) l -> StronglySorted R (l ++ [y]).
Proof.
  induction 1 as [|x l Hl IH Hx]; intro Hy; simpl.
  - repeat constructor.
  - inversion Hy; subst. constructor; [now apply IH|].
    apply Forall_app. split; [assumption|]. repeat constructor. assumption.
Qed.

Lemma sorted_le_last (l : list Q) (y : Q) :
  StronglySorted Qle l -> In y l -> y <= last l 0.
Proof.
  induction 1 as [|x l Hl IH Hx]; intro Hin; [contradiction|].
  destruct l as [|z l'].
  - destruct Hin as [<-|[]]. apply Qle_refl.
  - change (last (x :: z :: l') 0) with (last (z :: l') 0).
    destruct Hin as [<-|Hin]; [|now apply IH].
    rewrite Forall_forall in Hx. apply Hx.
    destruct (exists_last (l := z :: l') ltac:(discriminate)) as (l0 & a0 & Heq).
    rewrite Heq, last_last. apply in_or_app. right. now left.
Qed.

(** Every detected phrase is longer than two seconds, there are no more
    phrases than onsets, every id lies between 1 and the number of onsets,
    and on onsets in non-decreasing order the phrases come in time order
    without overlap. *)
Theorem detect_phrases_valid :
  forall (onsets : list Q) (duration : Q),
    Forall (fun p => 2 < end_ p - start p
                     /\ (1 <= id p <= Z.of_nat (length onsets))%Z)
           (detect_phrases onsets duration)
    /\ (length (detect_phrases onsets duration) <= length onsets)%nat
    /\ (Sorted Qle onsets ->
        StronglySorted (fun p q => end_ p <= start q) (detect_phrases onsets duration)).
Proof.
  intros onsets duration. unfold detect_phrases.
  destruct (phrases_between_each onsets 0) as [Hall Hlen].
  assert (Hall' : Forall (fun p => 2 < end_ p - start p
                                   /\ (1 <= id p <= Z.of_nat (length onsets))%Z)
                         (phrases_between 0 onsets)).
  { eapply Forall_impl; [|exact Hall]. intros p (H1 & _ & _ & H2).
    split; [assumption|lia]. }
  assert (Hord : Sorted Qle onsets ->
                 StronglySorted (fun p q => end_ p <= start q) (phrases_between 0 onsets)).
  { intro Hs. apply phrases_between_ordered.
    apply Sorted_StronglySorted; [|assumption]. intros x y z. apply Qle_trans. }
  destruct (0 <? length onsets)%nat eqn:Hne.
  2: { split; [assumption|]. split; [lia|assumption]. }
  apply Nat.ltb_lt in Hne.
  destruct (Qlt_bool 2 (duration - last onsets 0)) eqn:Hd.
  2: { split; [assumption|]. split; [lia|assumption]. }
  split; [|split].
  - apply Forall_app. split; [assumption|]. constructor; [|constructor].
    cbn [id start end_]. split; [now apply Qlt_bool_iff|lia].
  - rewrite length_app. simpl. lia.
  - intro Hs. apply StronglySorted_snoc; [now apply Hord|].
    eapply Forall_impl; [|exact Hall]. intros p (_ & _ & Hin & _). cbn [start].
    apply sorted_le_last; [|assumption].
    apply Sorted_StronglySorted; [|assumption]. intros x y z. apply Qle_trans.
Qed.

Lemma detect_phrases_valid_witness :
  StronglySorted (fun p q => end_ p <= start q)
                 (detect_phrases [1 # 2; 3; 4; 7] 10).
Proof.
  apply (proj2 (proj2 (detect_phrases_valid [1 # 2; 3; 4; 7] 10))).
  repeat constructor; discriminate.
Defined.

End PhrasesMore.

(** ** The phrase segments of the analyser *)

Section AnalyzePhrases.
Import Analyze AnalyzeSpec.

Lemma tiles_snoc (phrases : list Segment) :
  forall from to stop,
    tiles from to phrases ->
    tiles from stop (phrases ++ [{| seg_start := to; seg_end := stop |}]).
Proof.
  induction phrases as [|p rest IH]; intros from to stop H; cbn [tiles app] in *.
  - subst. split; reflexivity.
  - destruct H as [H1 H2]. split; [assumption|]. now apply IH.
Qed.

Lemma group_fold_inv (onsets : list Q) :
  forall st,
    tiles 0 (current_start st) (gs_phrases st) ->
    Forall (fun p => 1 < seg_end p - seg_start p) (gs_phrases st) ->
    let st' := fold_left group_step onsets st in
    tiles 0 (current_start st') (gs_phrases st')
    /\ Forall (fun p => 1 < seg_end p - seg_start p) (gs_phrases st')
    /\ (current_start st' = current_start st \/ In (current_start st') onsets)
    /\ (length (gs_phrases st') <= length (gs_phrases st) + length onsets)%nat.
Proof.
  induction onsets as [|onset onsets IH]; intros st Ht Hl; cbn [fold_left].
  - repeat split; try assumption; [now left|cbn [length]; lia].
  - assert (Hstep : tiles 0 (current_start (group_step st onset))
                          (gs_phrases (group_step st onset))
                    /\ Forall (fun p => 1 < seg_end p - seg_start p)
                              (gs_phrases (group_step st onset))
                    /\ (current_start (group_step st onset) = current_start st
                        \/ current_start (group_step st onset) = onset)
                    /\ (length (gs_phrases (group_step st onset))
                        <= length (gs_phrases st) + 1)%nat).
    { unfold group_step. destruct (Qlt_bool 1 (onset - current_start st)) eqn:Hd;
        cbn [gs_phrases current_start].
      - split; [now apply tiles_snoc|]. split.
        + apply Forall_app. split; [assumption|]. repeat constructor.
          cbn [seg_start seg_end]. now apply Qlt_bool_iff.
        + split; [now right|]. rewrite length_app. cbn [length]. lia.
      - repeat split; try assumption; [now left|lia]. }
    destruct Hstep as (H1 & H2 & H3 & H4).
    destruct (IH (group_step st onset) H1 H2) as (K1 & K2 & K3 & K4).
    cbv zeta. repeat split; try assumption.
    + destruct K3 as [K3|K3].
      * destruct H3 as [H3|H3]; [left; congruence|right; left; congruence].
      * right. now right.
    + cbn [length]. lia.
Qed.

(** With at least two onsets the analyser never fails and its phrases tile
    the song from its start: the first phrase starts at 0, each next one
    starts where the one before ends, every phrase is longer than one
    second, the covered stretch ends at an onset or at the end of the song,
    and a stretch left over at the end is at most one second long. *)
Theorem create_phrase_segments_tiles_song :
  forall (onsets beats : list Q) (duration : Q),
    (2 <= length onsets)%nat ->
    exists phrases covered_to,
      create_phrase_segments onsets beats duration = Some phrases
      /\ tiles 0 covered_to phrases
      /\ Forall (fun p => 1 < seg_end p - seg_start p) phrases
      /\ (covered_to = 0 \/ In covered_to onsets \/ covered_to = duration)
      /\ (covered_to = duration \/ duration - covered_to <= 1)
      /\ (length phrases <= length onsets + 1)%nat.
Proof.
  intros onsets beats duration Hlen.
  unfold create_phrase_segments.
  destruct (length onsets <? 2)%nat eqn:Hb; [apply Nat.ltb_lt in Hb; lia|].
  set (st0 := {| gs_phrases := []; current_start := 0 |}).
  destruct (group_fold_inv onsets st0) as (K1 & K2 & K3 & K4);
    [reflexivity|constructor|].
  cbv zeta.
  set (st := fold_left group_step onsets st0) in *. clearbody st.
  cbn [gs_phrases current_start length Nat.add st0] in K3, K4.
  destruct (Qlt_bool 1 (duration - current_start st)) eqn:Hd.
  - exists (gs_phrases st ++ [{| seg_start := current_start st; seg_end := duration |}]),
           duration.
    split; [reflexivity|]. split; [now apply tiles_snoc|]. split.
    { apply Forall_app. split; [assumption|]. repeat constructor.
      cbn [seg_start seg_end]. now apply Qlt_bool_iff. }
    split; [now right; right|]. split; [now left|].
    rewrite length_app. cbn [length]. lia.
  - exists (gs_phrases st), (current_start st).
    split; [reflexivity|]. split; [assumption|]. split; [assumption|].
    split; [destruct K3 as [K3|K3]; [now left|right; now left]|].
    split; [right; now apply Qlt_bool_false_iff|lia].
Qed.

Lemma create_phrase_segments_tiles_song_witness :
  exists phrases covered_to,
    create_phrase_segments [1 # 2; 3; 7 # 2; 6] [] 10 = Some phrases
    /\ tiles 0 covered_to phrases
    /\ Forall (fun p => 1 < seg_end p - seg_start p) phrases
    /\ (covered_to = 0 \/ In covered_to [1 # 2; 3; 7 # 2; 6] \/ covered_to = 10)
    /\ (covered_to = 10 \/ 10 - covered_to <= 1)
    /\ (length phrases <= 5)%nat.
Proof.
  apply (create_phrase_segments_tiles_song [1 # 2; 3; 7 # 2; 6] [] 10).
  cbn [length]. lia.
Defined.

Lemma int_le (x : Q) : (0 < int x)%Z -> inject_Z (int x) <= x.
Proof.
  destruct x as [n d]. unfold int, Qle. cbn [Qnum Qden inject_Z]. intro Hpos.
  destruct (Z.le_gt_cases 0 n) as [Hn|Hn].
  - rewrite Z.quot_div_nonneg in * by lia.
    rewrite Z.mul_1_r, Z.mul_comm. apply Z.mul_div_le. lia.
  - exfalso.
    assert (H : (0 <= Z.quot (- n) (Z.pos d))%Z) by (apply Z.quot_pos; lia).
    rewrite Z.quot_opp_l in H by lia. lia.
Qed.

Lemma int_floor_le (d L : Q) (i : nat) :
  0 < L -> (i < Z.to_nat (int (d / L)))%nat -> of_nat (i + 1) * L <= d.
Proof.
  intros HL Hi.
  assert (Hz : (Z.of_nat (i + 1) <= int (d / L))%Z) by lia.
  assert (Hx : inject_Z (int (d / L)) <= d / L) by (apply int_le; lia).
  assert (Hq : of_nat (i + 1) <= d / L).
  { eapply Qle_trans; [|exact Hx]. unfold of_nat. rewrite <- Zle_Qle. exact Hz. }
  assert (E : d == d / L * L) by (field; lra).
  rewrite E. apply Qmult_le_compat_r; [exact Hq|lra].
Qed.

Lemma fallback_fold (bi duration : Q) (count : nat) :
  (forall i, (i < count)%nat -> of_nat (i + 1) * (bi * 4) <= duration) ->
  fold_left (fallback_step bi duration) (seq 0 count) []
  = if Qlt_bool 1 (bi * 4)
    then map (fun i => {| seg_start := of_nat i * bi * 4;
                          seg_end := of_nat (i + 1) * bi * 4 |}) (seq 0 count)
    else [].
Proof.
  induction count as [|n IH]; intro Hle.
  - cbn [seq fold_left map]. now destruct (Qlt_bool 1 (bi * 4)).
  - rewrite seq_S, fold_left_app, IH by (intros i Hi; apply Hle; lia).
    cbn [Nat.add fold_left]. unfold fallback_step.
    assert (Hn : of_nat (n + 1) * (bi * 4) <= duration) by (apply Hle; lia).
    assert (Hmin : py_min (of_nat (n + 1) * bi * 4) duration = of_nat (n + 1) * bi * 4).
    { unfold py_min.
      destruct (Qlt_bool duration (of_nat (n + 1) * bi * 4)) eqn:Hd; [|reflexivity].
      apply Qlt_bool_iff in Hd. lra. }
    rewrite Hmin.
    assert (Hstep : Qlt_bool 1 (of_nat (n + 1) * bi * 4 - of_nat n * bi * 4)
                    = Qlt_bool 1 (bi * 4)).
    { assert (E : of_nat (n + 1) * bi * 4 - of_nat n * bi * 4 == bi * 4).
      { rewrite Nat.add_1_r, of_nat_S. ring. }
      destruct (Qlt_bool 1 (bi * 4)) eqn:Hb.
      - apply Qlt_bool_iff. apply Qlt_bool_iff in Hb. lra.
      - apply Qlt_bool_false_iff. apply Qlt_bool_false_iff in Hb. lra. }
    rewrite Hstep. destruct (Qlt_bool 1 (bi * 4)); [|reflexivity].
    now rewrite map_app.
Qed.



(** The fallback grid.  Without two onsets, and with beats whose mean
    distance is positive (or fewer than two beats, where it is taken as two
    seconds), phrase [i] runs from [4 * beat_interval * i] to
    [4 * beat_interval * (i + 1)] for every [i] below
    [int(duration / (4 * beat_interval))] when four beats last more than a
    second, and there is no phrase otherwise.  Every phrase ends within the
    song, so the clamp to [duration] never applies and what is left after
    the last full phrase gets none. *)
Theorem create_phrase_segments_fallback_grid :
  forall (onsets beats : list Q) (duration : Q),
    (length onsets < 2)%nat ->
    0 < beat_interval beats ->
    let bi := beat_interval beats in
    exists phrases,
      create_phrase_segments onsets beats duration = Some phrases
      /\ phrases
         = (if Qlt_bool 1 (bi * 4)
            then map (fun i => {| seg_start := of_nat i * bi * 4;
                                  seg_end := of_nat (i + 1) * bi * 4 |})
                     (seq 0 (Z.to_nat (int (duration / (bi * 4)))))
            else [])
      /\ Forall (fun p => seg_end p <= duration
                          /\ seg_end p - seg_start p == bi * 4) phrases.
Proof.
  intros onsets beats duration Hlen Hbi bi.
  unfold create_phrase_segments.
  destruct (length onsets <? 2)%nat eqn:Hb; [|apply Nat.ltb_ge in Hb; lia].
  unfold fallback_phrases. fold bi.
  destruct (Qeq_bool (bi * 4) 0) eqn:Hz.
  { apply Qeq_bool_iff in Hz. subst bi. lra. }
  assert (Hle : forall i, (i < Z.to_nat (int (duration / (bi * 4))))%nat ->
                          of_nat (i + 1) * (bi * 4) <= duration).
  { intros i Hi. apply int_floor_le; [subst bi; lra|exact Hi]. }
  rewrite (fallback_fold bi duration _ Hle).
  eexists. split; [reflexivity|]. split; [reflexivity|].
  destruct (Qlt_bool 1 (bi * 4)); [|constructor].
  apply Forall_forall. intros p Hp. apply in_map_iff in Hp.
  destruct Hp as (i & <- & Hi). apply in_seq in Hi. cbn [seg_start seg_end].
  split.
  - assert (H := Hle i ltac:(lia)). lra.
  - rewrite Nat.add_1_r, of_nat_S. ring.
Qed.

Lemma create_phrase_segments_fallback_grid_witness :
  exists phrases,
    create_phrase_segments [3] [1; 3 # 2; 2; 5 # 2] 5 = Some phrases
    /\ phrases
       = (if Qlt_bool 1 (beat_interval [1; 3 # 2; 2; 5 # 2] * 4)
          then map (fun i => {| seg_start := of_nat i * beat_interval [1; 3 # 2; 2; 5 # 2] * 4;
                                seg_end := of_nat (i + 1)
                                           * beat_interval [1; 3 # 2; 2; 5 # 2] * 4 |})
                   (seq 0 (Z.to_nat (int (5 / (beat_interval [1; 3 # 2; 2; 5 # 2] * 4)))))
          else [])
    /\ Forall (fun p => seg_end p <= 5
                        /\ seg_end p - seg_start p == beat_interval [1; 3 # 2; 2; 5 # 2] * 4)
              phrases.
Proof.
  apply (create_phrase_segments_fallback_grid [3] [1; 3 # 2; 2; 5 # 2] 5).
  - cbn [length]. lia.
  - vm_compute. reflexivity.
Defined.


End AnalyzePhrases.

(** ** The DTW cost of the analyser *)

Section AnalyzeDtw.
Import Analyze AnalyzeSpec.

Lemma fill_row_length (x : Q) (seq2 : list Q) :
  forall diag above left,
    length above = length seq2 ->
    length (fill_row x seq2 diag above left) = length seq2.
Proof.
  induction seq2 as [|y seq2 IH]; intros diag above left Hlen; [reflexivity|].
  destruct above as [|up above]; [discriminate|].
  cbn [fill_row length]. f_equal. apply IH. now injection Hlen.
Qed.

Lemma fill_row_nth (x : Q) (seq2 : list Q) :
  forall diag above left j,
    length above = length seq2 ->
    (j < length seq2)%nat ->
    nth j (fill_row x seq2 diag above left) NaN
    = fadd (cost x (nth j seq2 0))
           (py_min3 (nth j above NaN)
                    (nth j (left :: fill_row x seq2 diag above left) NaN)
                    (nth j (diag :: above) NaN)).
Proof.
  induction seq2 as [|y seq2 IH]; intros diag above left j Hlen Hj;
    [cbn [length] in Hj; lia|].
  destruct above as [|up above]; [discriminate|].
  cbn [fill_row]. destruct j as [|j]; [reflexivity|].
  cbn [nth]. rewrite IH; [reflexivity|now injection Hlen|cbn [length] in Hj; lia].
Qed.

Lemma rows_length (seq2 : list Q) (l : list Q) :
  forall row,
    length row = S (length seq2) ->
    length (fold_left (next_row seq2) l row) = S (length seq2).
Proof.
  induction l as [|x l IH]; intros row Hlen; [exact Hlen|].
  cbn [fold_left]. apply IH.
  destruct row as [|diag above]; [discriminate|].
  cbn [next_row length]. f_equal. apply fill_row_length. now injection Hlen.
Qed.

Lemma first_row_length (m : nat) : length (first_row m) = S m.
Proof. unfold first_row. cbn [length]. now rewrite repeat_length. Qed.

Lemma firstn_S_snoc (l : list Q) (i : nat) :
  (i < length l)%nat -> firstn (S i) l = firstn i l ++ [nth i l 0].
Proof.
  revert i. induction l as [|x l IH]; intros i Hi; [cbn [length] in Hi; lia|].
  destruct i as [|i]; [reflexivity|].
  cbn [firstn nth app]. f_equal. apply IH. cbn [length] in Hi. lia.
Qed.

Lemma entry_0_0 (seq1 seq2 : list Q) : entry seq1 seq2 0 0 = Finite 0.
Proof. reflexivity. Qed.

Lemma entry_0_S (seq1 seq2 : list Q) (j : nat) :
  (j < length seq2)%nat -> entry seq1 seq2 0 (S j) = PosInf.
Proof.
  intro Hj. unfold entry, first_row. cbn [firstn fold_left nth].
  rewrite (nth_indep _ NaN PosInf) by now rewrite repeat_length.
  apply nth_repeat.
Qed.

Lemma entry_S_0 (seq1 seq2 : list Q) (i : nat) :
  (i < length seq1)%nat -> entry seq1 seq2 (S i) 0 = PosInf.
Proof.
  intro Hi. unfold entry. rewrite firstn_S_snoc, fold_left_app by assumption.
  cbn [fold_left].
  pose proof (rows_length seq2 (firstn i seq1) _ (first_row_length (length seq2))) as Hlen.
  destruct (fold_left (next_row seq2) (firstn i seq1) (first_row (length seq2)));
    [discriminate|reflexivity].
Qed.

Lemma entry_S_S (seq1 seq2 : list Q) (i j : nat) :
  (i < length seq1)%nat ->
  (j < length seq2)%nat ->
  entry seq1 seq2 (S i) (S j)
  = fadd (cost (nth i seq1 0) (nth j seq2 0))
         (py_min3 (entry seq1 seq2 i (S j)) (entry seq1 seq2 (S i) j)
                  (entry seq1 seq2 i j)).
Proof.
  intros Hi Hj. unfold entry. rewrite firstn_S_snoc, fold_left_app by assumption.
  cbn [fold_left].
  pose proof (rows_length seq2 (firstn i seq1) _ (first_row_length (length seq2))) as Hlen.
  destruct (fold_left (next_row seq2) (firstn i seq1) (first_row (length seq2)))
    as [|diag above]; [discriminate|].
  cbn [next_row].
  change (nth (S j) (PosInf :: fill_row (nth i seq1 0) seq2 diag above PosInf) NaN)
    with (nth j (fill_row (nth i seq1 0) seq2 diag above PosInf) NaN).
  change (nth (S j) (diag :: above) NaN) with (nth j above NaN).
  apply fill_row_nth; [now injection Hlen|exact Hj].
Qed.

Lemma dtw_distance_entry (seq1 seq2 : list Q) :
  dtw_distance seq1 seq2 = entry seq1 seq2 (length seq1) (length seq2).
Proof.
  unfold dtw_distance, entry. rewrite firstn_all, last_nth.
  rewrite rows_length by apply first_row_length.
  cbn [Nat.sub]. now rewrite Nat.sub_0_r.
Qed.

Lemma cost_nonneg (x y : Q) : 0 <= cost x y.
Proof.
  unfold cost. destruct (Qlt_bool 0 x && Qlt_bool 0 y); [apply Qabs_nonneg|lra].
Qed.

Lemma py_min3_spec (x y z : Float) :
  nonneg_or_inf x -> nonneg_or_inf y -> nonneg_or_inf z ->
  nonneg_or_inf (py_min3 x y z)
  /\ fle (py_min3 x y z) x /\ fle (py_min3 x y z) y /\ fle (py_min3 x y z) z
  /\ (py_min3 x y z = x \/ py_min3 x y z = y \/ py_min3 x y z = z).
Proof.
  unfold py_min3.
  destruct x as [u| | |], y as [v| | |], z as [w| | |]; cbn [nonneg_or_inf];
    intros Hx Hy Hz; try contradiction; cbn [flt];
    repeat match goal with
           | |- context [Qlt_bool ?a ?b] =>
               let H := fresh "H" in
               destruct (Qlt_bool a b) eqn:H;
               [apply Qlt_bool_iff in H|apply Qlt_bool_false_iff in H]
           end;
    cbn [flt nonneg_or_inf fle];
    repeat match goal with
           | |- context [Qlt_bool ?a ?b] =>
               let H := fresh "H" in
               destruct (Qlt_bool a b) eqn:H;
               [apply Qlt_bool_iff in H|apply Qlt_bool_false_iff in H]
           end;
    cbn [flt nonneg_or_inf fle];
    repeat split; try lra; try exact I; auto.
Qed.

Lemma fadd_nonneg_or_inf (c : Q) (x : Float) :
  0 <= c -> nonneg_or_inf x -> nonneg_or_inf (fadd c x).
Proof. destruct x; cbn [fadd nonneg_or_inf]; intros; try assumption. lra. Qed.

Lemma entry_nonneg_or_inf (seq1 seq2 : list Q) (i : nat) :
  (i <= length seq1)%nat ->
  forall j, (j <= length seq2)%nat -> nonneg_or_inf (entry seq1 seq2 i j).
Proof.
  induction i as [|i IHi]; intros Hi j Hj.
  - destruct j as [|j]; [rewrite entry_0_0; cbn; lra|].
    rewrite entry_0_S by lia. exact I.
  - induction j as [|j IHj]; [rewrite entry_S_0 by lia; exact I|].
    rewrite entry_S_S by lia.
    apply fadd_nonneg_or_inf; [apply cost_nonneg|].
    apply py_min3_spec; [apply IHi; lia|apply IHj; lia|apply IHi; lia].
Qed.

Lemma fle_finite (x y : Float) :
  nonneg_or_inf x -> fle x y -> (exists v, y = Finite v) ->
  exists u, x = Finite u /\ 0 <= u.
Proof.
  intros Hx Hle [v ->]. destruct x as [u| | |]; cbn in *; try contradiction.
  now exists u.
Qed.

Lemma entry_finite (seq1 seq2 : list Q) :
  forall i, (i < length seq1)%nat ->
  forall j, (j < length seq2)%nat ->
    exists v, entry seq1 seq2 (S i) (S j) = Finite v /\ 0 <= v.
Proof.
  assert (Hstep : forall i j x y z,
            (i < length seq1)%nat -> (j < length seq2)%nat ->
            x = entry seq1 seq2 i (S j) -> y = entry seq1 seq2 (S i) j ->
            z = entry seq1 seq2 i j ->
            (exists v, x = Finite v) \/ (exists v, y = Finite v) \/ (exists v, z = Finite v) ->
            exists v, entry seq1 seq2 (S i) (S j) = Finite v /\ 0 <= v).
  { intros i j x y z Hi Hj -> -> -> Hfin.
    rewrite entry_S_S by assumption.
    destruct (py_min3_spec (entry seq1 seq2 i (S j)) (entry seq1 seq2 (S i) j)
                           (entry seq1 seq2 i j))
      as (Hm & Hx & Hy & Hz & _);
      try (apply entry_nonneg_or_inf; lia).
    assert (Hu : exists u, py_min3 (entry seq1 seq2 i (S j)) (entry seq1 seq2 (S i) j)
                                   (entry seq1 seq2 i j) = Finite u /\ 0 <= u).
    { destruct Hfin as [H|[H|H]];
        [apply (fle_finite _ _ Hm Hx H)|apply (fle_finite _ _ Hm Hy H)
        |apply (fle_finite _ _ Hm Hz H)]. }
    destruct Hu as (u & -> & Hu). cbn [fadd]. eexists. split; [reflexivity|].
    pose proof (cost_nonneg (nth i seq1 0) (nth j seq2 0)). lra. }
  induction i as [|i IHi]; intros Hi j Hj.
  - induction j as [|j IHj].
    + eapply Hstep; try reflexivity; try assumption.
      right. right. rewrite entry_0_0. now eexists.
    + eapply Hstep; try reflexivity; try assumption.
      right. left. destruct IHj as (v & -> & _); [lia|]. now eexists.
  - eapply Hstep; try reflexivity; try assumption.
    left. destruct (IHi ltac:(lia) j Hj) as (v & -> & _). now eexists.
Qed.

(** The cost is a number exactly when both contours have a frame: it is
    then non-negative.  With one empty contour no path exists and the cost
    is infinite; with two empty contours it is [0.0 / 0], not a number. *)
Theorem calculate_dtw_alignment_finite_when_nonempty :
  forall (reference_pitch live_pitch : list Q),
    match reference_pitch, live_pitch with
    | [], [] => calculate_dtw_alignment reference_pitch live_pitch = NaN
    | _ :: _, _ :: _ =>
        exists c, calculate_dtw_alignment reference_pitch live_pitch = Finite c /\ 0 <= c
    | _, _ => calculate_dtw_alignment reference_pitch live_pitch = PosInf
    end.
Proof.
  intros seq1 seq2. unfold calculate_dtw_alignment. rewrite dtw_distance_entry.
  destruct seq1 as [|x seq1], seq2 as [|y seq2].
  - reflexivity.
  - cbn [length]. rewrite entry_0_S by (cbn [length]; lia). reflexivity.
  - cbn [length]. rewrite entry_S_0 by (cbn [length]; lia). reflexivity.
  - destruct (entry_finite (x :: seq1) (y :: seq2) (length seq1)
                           ltac:(cbn [length]; lia) (length seq2)
                           ltac:(cbn [length]; lia)) as (v & Hv & Hpos).
    cbn [length]. rewrite Hv. cbn [Nat.max fdiv].
    eexists. split; [reflexivity|].
    apply Qle_shift_div_l; [apply (of_nat_lt 0); lia|lra].
Qed.

Lemma diagonal_costs_firstn_S (seq1 : list Q) :
  forall seq2 i,
    (i < length seq1)%nat -> (i < length seq2)%nat ->
    sum (diagonal_costs (firstn (S i) seq1) (firstn (S i) seq2))
    == sum (diagonal_costs (firstn i seq1) (firstn i seq2))
       + cost (nth i seq1 0) (nth i seq2 0).
Proof.
  induction seq1 as [|x seq1 IH]; intros seq2 i H1 H2; [cbn [length] in H1; lia|].
  destruct seq2 as [|y seq2]; [cbn [length] in H2; lia|].
  destruct i as [|i].
  - cbn [firstn nth]. unfold diagonal_costs. cbn [combine map fst snd sum fold_right]. ring.
  - change (firstn (S (S i)) (x :: seq1)) with (x :: firstn (S i) seq1).
    change (firstn (S (S i)) (y :: seq2)) with (y :: firstn (S i) seq2).
    change (firstn (S i) (x :: seq1)) with (x :: firstn i seq1).
    change (firstn (S i) (y :: seq2)) with (y :: firstn i seq2).
    change (diagonal_costs (x :: firstn (S i) seq1) (y :: firstn (S i) seq2))
      with (cost x y :: diagonal_costs (firstn (S i) seq1) (firstn (S i) seq2)).
    change (diagonal_costs (x :: firstn i seq1) (y :: firstn i seq2))
      with (cost x y :: diagonal_costs (firstn i seq1) (firstn i seq2)).
    rewrite !sum_cons, IH by (cbn [length] in *; lia). cbn [nth]. ring.
Qed.

Lemma entry_diagonal_bound (seq1 seq2 : list Q) :
  forall i,
    (i <= length seq1)%nat -> (i <= length seq2)%nat ->
    exists v, entry seq1 seq2 i i = Finite v
              /\ 0 <= v <= sum (diagonal_costs (firstn i seq1) (firstn i seq2)).
Proof.
  induction i as [|i IH]; intros H1 H2.
  - exists 0. split; [apply entry_0_0|]. cbn. lra.
  - destruct IH as (v & Hv & Hv0 & Hvs); [lia|lia|].
    rewrite entry_S_S by lia.
    destruct (py_min3_spec (entry seq1 seq2 i (S i)) (entry seq1 seq2 (S i) i)
                           (entry seq1 seq2 i i))
      as (Hm & _ & _ & Hz & _);
      try (apply entry_nonneg_or_inf; lia).
    rewrite Hv in Hz at 2.
    destruct (py_min3 (entry seq1 seq2 i (S i)) (entry seq1 seq2 (S i) i)
                      (entry seq1 seq2 i i)) as [u| | |];
      cbn [fle nonneg_or_inf] in Hz, Hm; try contradiction.
    cbn [fadd]. eexists. split; [reflexivity|].
    rewrite diagonal_costs_firstn_S by lia.
    pose proof (cost_nonneg (nth i seq1 0) (nth i seq2 0)). lra.
Qed.

Lemma diagonal_costs_length (seq1 seq2 : list Q) :
  length seq1 = length seq2 -> length (diagonal_costs seq1 seq2) = length seq1.
Proof.
  intro H. unfold diagonal_costs. rewrite length_map, length_combine. lia.
Qed.

(** For two contours of the same length the cost is at most the mean local
    cost of pairing them frame by frame: warping can only lower it. *)
Theorem calculate_dtw_alignment_diagonal_bound :
  forall (reference_pitch live_pitch : list Q),
    length reference_pitch = length live_pitch ->
    reference_pitch <> [] ->
    exists c,
      calculate_dtw_alignment reference_pitch live_pitch = Finite c
      /\ 0 <= c <= mean (diagonal_costs reference_pitch live_pitch).
Proof.
  intros seq1 seq2 Hlen Hne.
  unfold calculate_dtw_alignment. rewrite dtw_distance_entry.
  destruct (entry_diagonal_bound seq1 seq2 (length seq1)) as (v & Hv & Hv0 & Hvs);
    [lia|lia|].
  rewrite <- Hlen, Hv, Nat.max_id.
  rewrite firstn_all in Hvs. rewrite Hlen, firstn_all in Hvs.
  unfold mean. rewrite diagonal_costs_length by assumption.
  destruct seq1 as [|x seq1]; [congruence|].
  cbn [length fdiv].
  assert (Hn : 0 < of_nat (S (length seq1))) by (apply (of_nat_lt 0); lia).
  eexists. split; [reflexivity|].
  split.
  - apply Qle_shift_div_l; [exact Hn|lra].
  - apply Qle_shift_div_l; [exact Hn|].
    assert (E : v / of_nat (S (length seq1)) * of_nat (S (length seq1)) == v)
      by (field; lra).
    rewrite E. exact Hvs.
Qed.

Lemma calculate_dtw_alignment_diagonal_bound_witness :
  exists c,
    calculate_dtw_alignment [220; 0; 330] [222; 440; 0] = Finite c
    /\ 0 <= c <= mean (diagonal_costs [220; 0; 330] [222; 440; 0]).
Proof.
  apply (calculate_dtw_alignment_diagonal_bound [220; 0; 330] [222; 440; 0]).
  - reflexivity.
  - discriminate.
Defined.

Lemma diagonal_costs_self (seq : list Q) :
  Forall (fun x => 0 < x) seq -> sum (diagonal_costs seq seq) == 0.
Proof.
  induction 1 as [|x seq Hx Hall IH]; [reflexivity|].
  change (diagonal_costs (x :: seq) (x :: seq))
    with (cost x x :: diagonal_costs seq seq).
  rewrite sum_cons, IH. unfold cost.
  apply Qlt_bool_iff in Hx. rewrite Hx. cbn [andb].
  assert (E : x - x == 0) by ring. rewrite E. reflexivity.
Qed.

(** A fully voiced contour matches itself at cost zero. *)
Theorem calculate_dtw_alignment_identical :
  forall (pitch : list Q),
    pitch <> [] ->
    Forall (fun x => 0 < x) pitch ->
    exists c, calculate_dtw_alignment pitch pitch = Finite c /\ c == 0.
Proof.
  intros seq Hne Hall.
  unfold calculate_dtw_alignment. rewrite dtw_distance_entry.
  destruct (entry_diagonal_bound seq seq (length seq)) as (v & Hv & Hv0 & Hvs);
    [lia|lia|].
  rewrite Hv, Nat.max_id. rewrite firstn_all, diagonal_costs_self in Hvs by assumption.
  unfold fdiv. destruct (length seq) as [|n] eqn:Hl.
  { destruct seq; [congruence|discriminate]. }
  eexists. split; [reflexivity|].
  assert (E : v == 0) by lra. rewrite E.
  unfold Qdiv. ring.
Qed.

Lemma calculate_dtw_alignment_identical_witness :
  exists c, calculate_dtw_alignment [220; 247; 262] [220; 247; 262] = Finite c /\ c == 0.
Proof.
  apply (calculate_dtw_alignment_identical [220; 247; 262]).
  - discriminate.
  - repeat constructor.
Defined.

Lemma entry_constant_cost (seq1 seq2 : list Q) :
  (forall i j, (i < length seq1)%nat -> (j < length seq2)%nat ->
               cost (nth i seq1 0) (nth j seq2 0) = 100) ->
  forall i, (i < length seq1)%nat ->
  forall j, (j < length seq2)%nat ->
    is_value (entry seq1 seq2 (S i) (S j)) (100 * of_nat (Nat.max (S i) (S j))).
Proof.
  intro Hc.
  induction i as [|i IHi]; intro Hi.
  - induction j as [|j IHj]; intro Hj.
    + rewrite entry_S_S, entry_0_S, entry_S_0, entry_0_0, Hc by lia.
      vm_compute. reflexivity.
    + rewrite entry_S_S, (entry_0_S _ _ (S j)), (entry_0_S _ _ j), Hc by lia.
      specialize (IHj ltac:(lia)).
      destruct (entry seq1 seq2 1 (S j)) as [v| | |]; cbn [is_value] in IHj;
        try contradiction.
      unfold py_min3. cbn [flt fadd is_value].
      replace (Nat.max 1 (S (S j))) with (S (S j)) by lia.
      replace (Nat.max 1 (S j)) with (S j) in IHj by lia.
      rewrite (of_nat_S (S j)), IHj. ring.
  - induction j as [|j IHj]; intro Hj.
    + rewrite entry_S_S, (entry_S_0 _ _ (S i)), (entry_S_0 _ _ i), Hc by lia.
      pose proof (IHi ltac:(lia) 0%nat Hj) as IH.
      destruct (entry seq1 seq2 (S i) 1) as [v| | |]; cbn [is_value] in IH;
        try contradiction.
      unfold py_min3. cbn [flt fadd is_value].
      replace (Nat.max (S (S i)) 1) with (S (S i)) by lia.
      replace (Nat.max (S i) 1) with (S i) in IH by lia.
      rewrite (of_nat_S (S i)), IH. ring.
    + rewrite entry_S_S, Hc by lia.
      pose proof (IHi ltac:(lia) j ltac:(lia)) as Hdiag.
      pose proof (IHi ltac:(lia) (S j) Hj) as Hup.
      specialize (IHj ltac:(lia)).
      destruct (entry seq1 seq2 (S i) (S j)) as [vd| | |]; cbn [is_value] in Hdiag;
        try contradiction.
      destruct (entry seq1 seq2 (S i) (S (S j))) as [vu| | |]; cbn [is_value] in Hup;
        try contradiction.
      destruct (entry seq1 seq2 (S (S i)) (S j)) as [vl| | |]; cbn [is_value] in IHj;
        try contradiction.
      assert (HU : of_nat (Nat.max (S i) (S j)) <= of_nat (Nat.max (S i) (S (S j))))
        by (apply of_nat_le; lia).
      assert (HL : of_nat (Nat.max (S i) (S j)) <= of_nat (Nat.max (S (S i)) (S j)))
        by (apply of_nat_le; lia).
      assert (HT : of_nat (Nat.max (S (S i)) (S (S j)))
                   == of_nat (Nat.max (S i) (S j)) + 1).
      { replace (Nat.max (S (S i)) (S (S j))) with (S (Nat.max (S i) (S j))) by lia.
        apply of_nat_S. }
      set (T := of_nat (Nat.max (S (S i)) (S (S j)))) in *.
      set (D := of_nat (Nat.max (S i) (S j))) in *.
      set (U := of_nat (Nat.max (S i) (S (S j)))) in *.
      set (L := of_nat (Nat.max (S (S i)) (S j))) in *.
      clearbody T D U L.
      unfold py_min3. cbn [flt].
      destruct (Qlt_bool vl vu) eqn:H1;
        [apply Qlt_bool_iff in H1|apply Qlt_bool_false_iff in H1]; cbn [flt];
        (destruct (Qlt_bool vd _) eqn:H2;
         [apply Qlt_bool_iff in H2|apply Qlt_bool_false_iff in H2]);
        cbn [fadd is_value]; lra.
Qed.

(** Silence costs 100 per frame.  When one of the two contours has no
    voiced frame, the cost of two non-empty contours is exactly 100,
    whatever the other contour and whatever the lengths. *)
Theorem calculate_dtw_alignment_unvoiced :
  forall (reference_pitch live_pitch : list Q),
    reference_pitch <> [] ->
    live_pitch <> [] ->
    Forall (fun x => x <= 0) reference_pitch \/ Forall (fun x => x <= 0) live_pitch ->
    exists c, calculate_dtw_alignment reference_pitch live_pitch = Finite c /\ c == 100.
Proof.
  intros seq1 seq2 Hne1 Hne2 Hsilent.
  assert (Hc : forall i j, (i < length seq1)%nat -> (j < length seq2)%nat ->
                           cost (nth i seq1 0) (nth j seq2 0) = 100).
  { intros i j Hi Hj. unfold cost. destruct Hsilent as [Hs|Hs].
    - rewrite Forall_forall in Hs.
      assert (H : nth i seq1 0 <= 0) by (apply Hs, nth_In, Hi).
      apply Qlt_bool_false_iff in H. now rewrite H.
    - rewrite Forall_forall in Hs.
      assert (H : nth j seq2 0 <= 0) by (apply Hs, nth_In, Hj).
      apply Qlt_bool_false_iff in H. rewrite H. now rewrite andb_false_r. }
  unfold calculate_dtw_alignment. rewrite dtw_distance_entry.
  destruct seq1 as [|x seq1]; [congruence|].
  destruct seq2 as [|y seq2]; [congruence|].
  pose proof (entry_constant_cost (x :: seq1) (y :: seq2) Hc (length seq1)
                ltac:(cbn [length]; lia) (length seq2) ltac:(cbn [length]; lia)) as Hv.
  cbn [length] in *.
  destruct (entry (x :: seq1) (y :: seq2) (S (length seq1)) (S (length seq2)))
    as [v| | |]; cbn [is_value] in Hv; try contradiction.
  cbn [Nat.max fdiv].
  eexists. split; [reflexivity|].
  change (S (Nat.max (length seq1) (length seq2)))
    with (Nat.max (S (length seq1)) (S (length seq2))).
  rewrite Hv. field.
  assert (H : 0 < of_nat (Nat.max (S (length seq1)) (S (length seq2))))
    by (apply (of_nat_lt 0); lia).
  lra.
Qed.

Lemma calculate_dtw_alignment_unvoiced_witness :
  exists c, calculate_dtw_alignment [220; 247; 262; 294] [0; 0] = Finite c /\ c == 100.
Proof.
  apply (calculate_dtw_alignment_unvoiced [220; 247; 262; 294] [0; 0]).
  - discriminate.
  - discriminate.
  - right. repeat constructor; discriminate.
Defined.

End AnalyzeDtw.
